(** * tezsign: frame codec, stash, payload validator, Base58Check, keychain
      watermark and broker, embedded from the Go sources.

    Conventions of the embedding.
    - A Go [[]byte] is a [list byte]; [len] is its length as a [Z].
    - Go's [int] is 64 bits wide: the broker package converts the constant
      [^uint32(0)] to [int], which compiles only there.  Lengths of
      in-memory slices stay far below 2^63, so sums of lengths are written
      without wrap-around.  Fixed-width values ([uint32], [int32], [byte])
      carry their wrap-around explicitly.
    - A [[16]byte] message id is a [list byte]; statements that need the
      array length say [length id = 16].
    - Logging has no effect on any value below and is left out. *)

From Stdlib Require Import ZArith Lia Sorted.
From Stdlib Require Import Strings.Byte.
From stdpp Require Import base option list gmap countable strings.

Open Scope Z_scope.

(** ** Results of fallible functions *)

Inductive result (E A : Type) : Type :=
| Ok (a : A)
| Err (e : E).
Arguments Ok {E A} a.
Arguments Err {E A} e.

Definition is_ok {E A} (r : result E A) : bool :=
  match r with Ok _ => true | Err _ => false end.

(** ** Bytes and fixed-width integers *)

Module Bytes.

(** [byte(x)]: conversion of an integer to a byte keeps the low 8 bits. *)
Definition of_Z (z : Z) : byte :=
  match Byte.of_N (Z.to_N (z mod 256)) with
  | Some b => b
  | None => x00
  end.

Definition to_Z (b : byte) : Z := Z.of_N (Byte.to_N b).

Definition eqb (a b : byte) : bool := Z.eqb (to_Z a) (to_Z b).

(** [a ^ b] on bytes. *)
Definition xor (a b : byte) : byte := of_Z (Z.lxor (to_Z a) (to_Z b)).

(** [len(s)] as a Go [int]. *)
Definition len (s : list byte) : Z := Z.of_nat (length s).

(** [uint32(x)] *)
Definition uint32 (z : Z) : Z := z mod 2 ^ 32.

(** [int32(x)] of a [uint32]: two's complement reinterpretation. *)
Definition int32 (z : Z) : Z :=
  let u := z mod 2 ^ 32 in
  if u <? 2 ^ 31 then u else u - 2 ^ 32.

(** [s[i]] for an index known to be in range; [x00] stands for the
    out-of-range read, which every caller below excludes by a length
    check before indexing. *)
Definition at_ (s : list byte) (i : nat) : byte := nth i s x00.

(** [binary.LittleEndian.Uint32(b)]: reads [b[0..3]]. *)
Definition LittleEndian_Uint32 (b : list byte) : Z :=
  Z.lor (to_Z (at_ b 0))
    (Z.lor (Z.shiftl (to_Z (at_ b 1)) 8)
       (Z.lor (Z.shiftl (to_Z (at_ b 2)) 16)
              (Z.shiftl (to_Z (at_ b 3)) 24))).

(** [binary.LittleEndian.PutUint32(b, v)]: the four bytes written. *)
Definition LittleEndian_PutUint32 (v : Z) : list byte :=
  [of_Z v; of_Z (Z.shiftr v 8); of_Z (Z.shiftr v 16); of_Z (Z.shiftr v 24)].

(** [binary.BigEndian.Uint32(b)]: reads [b[0..3]]. *)
Definition BigEndian_Uint32 (b : list byte) : Z :=
  Z.lor (to_Z (at_ b 3))
    (Z.lor (Z.shiftl (to_Z (at_ b 2)) 8)
       (Z.lor (Z.shiftl (to_Z (at_ b 1)) 16)
              (Z.shiftl (to_Z (at_ b 0)) 24))).

(** [binary.BigEndian.PutUint32(b, v)], also the [be32] of the benchmark's
    payload builders: the four bytes written. *)
Definition BigEndian_PutUint32 (v : Z) : list byte :=
  [of_Z (Z.shiftr v 24); of_Z (Z.shiftr v 16); of_Z (Z.shiftr v 8); of_Z v].

(** [make([]byte, n)] *)
Definition make (n : Z) : list byte := replicate (Z.to_nat n) x00.

(** [dst[i] = b] *)
Definition set (dst : list byte) (i : nat) (b : byte) : list byte :=
  <[i := b]> dst.

(** [copy(dst[lo:hi], src)]: copies [min (hi - lo) (len src)] bytes into
    [dst] starting at [lo]; the rest of [dst] is untouched. *)
Definition copy (dst : list byte) (lo hi : nat) (src : list byte) : list byte :=
  let n := Nat.min (hi - lo) (length src) in
  take lo dst ++ take n src ++ drop (lo + n) dst.

(** [bytes.IndexByte(s, c)]: index of the first [c] in [s], or -1. *)
Fixpoint IndexByte (s : list byte) (c : byte) : Z :=
  match s with
  | [] => -1
  | b :: s' =>
      if eqb b c then 0
      else let i := IndexByte s' c in if i <? 0 then -1 else i + 1
  end.

End Bytes.

(** ** broker/constants.go *)

Module Const.
Definition KB : Z := Z.shiftl 1 10.
Definition MB : Z := Z.shiftl 1 20.
Definition DEFAULT_BROKER_CAPACITY : Z := 50 * MB.
Definition MAX_MESSAGE_PAYLOAD : Z := DEFAULT_BROKER_CAPACITY / 2.
Definition DEFAULT_READ_BUFFER : Z := 256 * KB.
Definition MagicByte : byte := x56.
Definition HeaderLen : Z := 1 + 1 + 16 + 4 + 1.

Definition payloadTypeUnknown : byte := x00.
Definition payloadTypeRequest : byte := x01.
Definition payloadTypeResponse : byte := x02.

(** Modelled from the spec: the accept frame type, whose declaration is not
    among the sources.  The spec leaves the values of the accept and
    retry types free, fixed within one deployment and outside
    [{0x01, 0x02}]; [handleWork] switches on all four constants, so they
    are pairwise distinct. *)
Definition payloadTypeAcceptRequest : byte := x03.

(** Modelled from the spec: the retry frame type, see above. *)
Definition payloadTypeRetry : byte := x04.
End Const.

(** ** Errors of the broker package (values named as the code names them) *)

Inductive broker_error : Type :=
| ErrInvalidHeaderParity
| ErrInvalidHeaderLength
| ErrInvalidHeaderBadMagic
| ErrEncodeHeaderDestTooSmall
| ErrEncodeHeaderPayloadLarge
| ErrNoPayloadFound
| ErrInvalidPayload (cause : broker_error)   (* errors.Join(ErrInvalidPayload, err) *)
| ErrInvalidPayloadSize
| ErrIncompletePayload
| ErrPayloadTooLarge          (* fmt.Errorf("payload too large") *)
| ErrPayloadExceedsMax        (* fmt.Errorf("payload exceeds maximum message payload ...") *)
| ErrCtx                      (* ctx.Err() of the caller's context *)
| ErrEOF.                     (* io.EOF *)

(** ** broker/wire.go: header and frame codec *)

Module Wire.
Import Bytes Const.

Record Header : Type := mkHeader {
  Magic : byte;
  Type_ : byte;          (* payloadType *)
  ID : list byte;        (* [16]byte *)
  Size : Z               (* uint32 *)
}.

(** [headerParity]: XOR of all 22 bytes; an error (and 0) on any other
    length. *)
Definition headerParity (bytes22 : list byte) : byte * option broker_error :=
  if negb (len bytes22 =? HeaderLen - 1) then (x00, Some ErrInvalidHeaderParity)
  else (fold_left Bytes.xor bytes22 x00, None).

Definition DecodeHeader (src : list byte) : result broker_error Header :=
  if len src <? HeaderLen then Err ErrInvalidHeaderLength
  else if negb (Bytes.eqb (at_ src 0) MagicByte) then Err ErrInvalidHeaderBadMagic
  else
    let p := fst (headerParity (take 22 src)) in
    if negb (Bytes.eqb (at_ src 22) p) then Err ErrInvalidHeaderBadMagic
    else
      Ok {| Magic := at_ src 0;
            Type_ := at_ src 1;
            ID := take 16 (drop 2 src);
            Size := LittleEndian_Uint32 (take 4 (drop 18 src)) |}.

(** The layout of a frame, as constants.go lists the header fields:
    magic(1) + type(1) + id(16) + size(4) + parity(1), then the payload. *)
Definition header22 (msgType : byte) (id : list byte) (size : Z) : list byte :=
  [MagicByte; msgType] ++ id ++ LittleEndian_PutUint32 size.

Definition frameLayout (msgType : byte) (id payload : list byte) : list byte :=
  let h := header22 msgType id (len payload) in
  h ++ [fold_left Bytes.xor h x00] ++ payload.

(** [newMessage]: [dst] is allocated zeroed and filled field by field, as
    in the code. *)
Definition newMessage (msgType : byte) (id payload : list byte)
  : result broker_error (list byte) :=
  let payloadLen := len payload in
  let requiredSize := HeaderLen + payloadLen in
  let dst := make requiredSize in
  (* cap(dst) < requiredSize never holds for a fresh make *)
  if (payloadLen <? 0) || (payloadLen >? 2 ^ 32 - 1) then
    Err ErrEncodeHeaderPayloadLarge
  else
    let dst := set dst 0 MagicByte in
    let dst := set dst 1 msgType in
    let dst := copy dst 2 18 id in
    let dst := copy dst 18 22 (LittleEndian_PutUint32 (uint32 payloadLen)) in
    let p := fst (headerParity (take 22 dst)) in
    let dst := set dst 22 p in
    let dst := copy dst (Z.to_nat HeaderLen) (length dst) payload in
    Ok dst.

End Wire.

(** ** broker/stash.go: the re-synchronising receive buffer *)

Module Stash.
Import Bytes Const Wire.

(** [buf] is the unread part of the [bytes.Buffer]. *)
Record stash : Type := mkStash {
  buf : list byte;
  capacity : Z
}.

Definition newStash (size : Z) : stash := {| buf := []; capacity := size |}.

(** [bytes.Buffer.Next(n)]: returns the next [n] unread bytes and advances
    past them; with fewer than [n] unread bytes it returns them all. *)
Definition Next (b : list byte) (n : Z) : list byte * list byte :=
  (take (Z.to_nat n) b, drop (Z.to_nat n) b).

(** [Write]: returns the stash after the write and the byte count that
    [bytes.Buffer.Write] reports. *)
Definition Write (s : stash) (data : list byte) : stash * Z :=
  let dataLen := len data in
  let b :=
    if len (buf s) + dataLen >? capacity s then
      let drop_ := (len (buf s) + dataLen) - capacity s in
      snd (Next (buf s) drop_)
    else buf s in
  ({| buf := b ++ data; capacity := capacity s |}, dataLen).

(** [ReadPayload]: the error returns of the code carry the zero id,
    [payloadTypeUnknown] and a nil payload; here they are [Err]. *)
Definition ReadPayload (s : stash)
  : result broker_error (list byte * byte * list byte) * stash :=
  let data := buf s in
  let idx := IndexByte data MagicByte in
  if idx <? 0 then
    let drop_ := len (buf s) - (HeaderLen - 1) in
    let b := if drop_ >? 0 then snd (Next (buf s) drop_) else buf s in
    (Err ErrNoPayloadFound, {| buf := b; capacity := capacity s |})
  else
    let b := snd (Next (buf s) idx) in
    let data := b in
    match DecodeHeader data with
    | Err err =>
        (Err (ErrInvalidPayload err),
         {| buf := snd (Next b 1); capacity := capacity s |})
    | Ok h =>
        if Size h >? MAX_MESSAGE_PAYLOAD then
          (Err ErrInvalidPayloadSize,
           {| buf := snd (Next b HeaderLen); capacity := capacity s |})
        else
          let total := uint32 (HeaderLen + Size h) in
          if len data <? total then
            (Err ErrIncompletePayload, {| buf := b; capacity := capacity s |})
          else
            let b := snd (Next b HeaderLen) in
            let '(payloadBuffer, b) := Next b (Size h) in
            let result_ := make (Size h) in
            let result_ := copy result_ 0 (length result_) payloadBuffer in
            (Ok (ID h, Type_ h, result_), {| buf := b; capacity := capacity s |})
    end.

End Stash.

(** ** encoding/hex: [hex.DecodeString] *)

Module Hex.

Definition digit (c : byte) : option Z :=
  let v := Bytes.to_Z c in
  if (48 <=? v) && (v <=? 57) then Some (v - 48)
  else if (97 <=? v) && (v <=? 102) then Some (v - 87)
  else if (65 <=? v) && (v <=? 70) then Some (v - 55)
  else None.

Fixpoint decode (s : list byte) : option (list byte) :=
  match s with
  | [] => Some []
  | [_] => None
  | a :: b :: s' =>
      match digit a, digit b, decode s' with
      | Some x, Some y, Some r => Some (Bytes.of_Z (16 * x + y) :: r)
      | _, _, _ => None
      end
  end.

Definition DecodeString (s : string) : option (list byte) :=
  decode (String.list_byte_of_string s).

End Hex.

(** ** keychain: sign-payload validator (DecodeAndValidateSignPayload) *)

Module Keychain.
Import Bytes.

Inductive SIGN_KIND : Type := UNSPECIFIED | BLOCK | PREATTESTATION | ATTESTATION.

#[global] Instance SIGN_KIND_eq_dec : EqDecision SIGN_KIND.
Proof. solve_decision. Defined.

Inductive payload_error : Type :=
| errEmptyPayload
| errOutOfBounds
| errNegativeLevel
| errNegativeRound
| errNegativeFitnessLen
| errUnsupportedOperation (tag : byte).  (* fmt.Errorf("unsupported operation 0x%02x", raw[0]) *)

(** [raw[off:]] *)
Definition from (raw : list byte) (off : Z) : list byte := drop (Z.to_nat off) raw.

Definition DecodeAndValidateSignPayload (raw : list byte)
  : result payload_error (SIGN_KIND * Z * Z * list byte) :=
  if len raw <? 1 then Err errEmptyPayload
  else
    match at_ raw 0 with
    | x11 => (* Tenderbake block *)
        let levelOff := 1 + 4 in
        let fitnessOff := 1 + 4 + 4 + 1 + 32 + 8 + 1 + 32 in
        let blockMinLen := fitnessOff + 4 in
        if len raw <? blockMinLen then Err errOutOfBounds
        else
          let levelI32 := int32 (BigEndian_Uint32 (from raw levelOff)) in
          if levelI32 <? 0 then Err errNegativeLevel
          else
            let fitnessLenI32 := int32 (BigEndian_Uint32 (from raw fitnessOff)) in
            if fitnessLenI32 <? 0 then Err errNegativeFitnessLen
            else
              let roundOff := fitnessOff + fitnessLenI32 in
              if roundOff + 4 >? len raw then Err errOutOfBounds
              else
                let roundI32 := int32 (BigEndian_Uint32 (from raw roundOff)) in
                if roundI32 <? 0 then Err errNegativeRound
                else Ok (BLOCK, levelI32, roundI32, raw)
    | x12 | x13 => (* Tenderbake preattestation / attestation *)
        let levelOff := 1 + 4 + 32 + 1 in
        let roundOff := levelOff + 4 in
        let attMinLen := roundOff + 4 in
        if len raw <? attMinLen then Err errOutOfBounds
        else
          let levelI32 := int32 (BigEndian_Uint32 (from raw levelOff)) in
          if levelI32 <? 0 then Err errNegativeLevel
          else
            let roundI32 := int32 (BigEndian_Uint32 (from raw roundOff)) in
            if roundI32 <? 0 then Err errNegativeRound
            else
              if Bytes.eqb (at_ raw 0) x12
              then Ok (PREATTESTATION, levelI32, roundI32, raw)
              else Ok (ATTESTATION, levelI32, roundI32, raw)
    | tag => Err (errUnsupportedOperation tag)
    end.

(** The offset the spec calls [fitness_off]. *)
Definition fitness_off : Z := 1 + 4 + 4 + 1 + 32 + 8 + 1 + 32.

(** The block payload of the repository's verification program (its
    [tests] table). *)
Definition test_block : list byte :=
  default [] (Hex.DecodeString
    "117a06a77000a06dd417fc89ce97287862c59ff018f096be938c81454efc8bead42633ffff40429a17460000000068ea92180466ae1df25437b553f9d772aade2115aedbcd8720ce06a0975e13bc4ac1f008320000002100000001020000000400a06dd40000000000000004ffffffff00000004000000009a033180f02da06bd0a583fbfde72695562efefba5a9801a1ce2583496a04fb749f0d48f769c5a3453f9d14b5a61b8a9964709ce1c168ddbe61fc10c2bb3c136000000009aadd15cdae80000000a").

(** app/tests/benchmark/payload.go, [buildBlockPayload]: the fields it writes
    one after the other into a zeroed buffer of 91 bytes. *)
Definition buildBlockPayload (level round : Z) : list byte :=
  [x11]                                       (* wm *)
  ++ [x12; x34; x56; x78]                     (* chain_id (dummy) *)
  ++ BigEndian_PutUint32 (uint32 level)       (* level (int32 be) *)
  ++ [x01]                                    (* proto_level (dummy) *)
  ++ replicate 32 x00 ++ replicate 8 x00      (* predecessor, timestamp *)
  ++ [x04]                                    (* dummy validation passes *)
  ++ replicate 32 x00                         (* oph *)
  ++ BigEndian_PutUint32 4                    (* fitness_len = 4 *)
  ++ BigEndian_PutUint32 round.               (* round (int32 be) *)

(** *** Errors of the keychain package: the four values the source
    declares, and the [Corrupted] error kind of the spec. *)
Inductive keychain_error : Type :=
| ErrKeyLocked
| ErrKeyNotFound
| ErrStaleWatermark
| ErrBadPayload
| ErrCorrupted.

(** *** Key entries and the sign operation

    The file of the keychain that holds the key entries and returns
    [ErrStaleWatermark] is not among the sources; only the error values
    and the payload validator are.  The definitions below follow sections
    3 and 4.9 of the spec. *)

(** Modelled from the spec: the lock state of a key entry, which is missing
    from the sources. *)
Inductive lock_state : Type := UNLOCKED | LOCKED | CORRUPTED.

(** Modelled from the spec: the key entry of the keychain, which is missing
    from the sources: secret scalar, lock state, the per-kind watermark
    [(level, round)] and the [state_corrupted] flag. *)
Record KeyEntry : Type := mkKeyEntry {
  secret : Z;
  lock : lock_state;
  last_block : Z * Z;
  last_preattestation : Z * Z;
  last_attestation : Z * Z;
  state_corrupted : bool
}.

(** Modelled from the spec: the stored watermark of a kind (the accessor
    is missing from the sources). *)
Definition watermark_of (k : SIGN_KIND) (e : KeyEntry) : Z * Z :=
  match k with
  | BLOCK => last_block e
  | PREATTESTATION => last_preattestation e
  | ATTESTATION => last_attestation e
  | UNSPECIFIED => (0, 0)
  end.

(** Modelled from the spec: the commit of a new watermark for a kind (step
    4 of [sign]; missing from the sources). *)
Definition set_watermark (k : SIGN_KIND) (w : Z * Z) (e : KeyEntry) : KeyEntry :=
  match k with
  | BLOCK =>
      mkKeyEntry (secret e) (lock e) w (last_preattestation e)
        (last_attestation e) (state_corrupted e)
  | PREATTESTATION =>
      mkKeyEntry (secret e) (lock e) (last_block e) w
        (last_attestation e) (state_corrupted e)
  | ATTESTATION =>
      mkKeyEntry (secret e) (lock e) (last_block e) (last_preattestation e)
        w (state_corrupted e)
  | UNSPECIFIED => e
  end.

(** Modelled from the spec: "mark the key CORRUPTED" (step 4 of [sign];
    missing from the sources). *)
Definition mark_corrupted (e : KeyEntry) : KeyEntry :=
  mkKeyEntry (secret e) CORRUPTED (last_block e) (last_preattestation e)
    (last_attestation e) true.

(** Modelled from the spec: the lexicographic order on [(level, round)]
    that step 3 of [sign] compares with; [lex_ltb a b] is [a < b]. *)
Definition lex_ltb (a b : Z * Z) : bool :=
  (a.1 <? b.1) || ((a.1 =? b.1) && (a.2 <? b.2)).

Definition lex_lt (a b : Z * Z) : Prop := lex_ltb a b = true.
Definition lex_le (a b : Z * Z) : Prop := lex_ltb b a = false.

Section Sign.
(** The BLS signature of [signed_bytes] under a secret scalar with the
    MinPk DST: computed by the blst library, opaque here. *)
Variable bls_sign : Z -> list byte -> list byte.

(** Modelled from the spec: the keychain's [sign] on one key entry, which
    is missing from the sources; section 4.9, steps 1 to 5.
    [store_ok] says whether persisting the new watermark succeeds. *)
Definition sign_entry (e : KeyEntry) (payload : list byte) (store_ok : bool)
  : result keychain_error (list byte) * KeyEntry :=
  match DecodeAndValidateSignPayload payload with
  | Err _ => (Err ErrBadPayload, e)                                   (* 1 *)
  | Ok (kind, level, round, signed_bytes) =>
      match lock e with
      | UNLOCKED =>
          if lex_ltb (watermark_of kind e) (level, round) then        (* 3 *)
            if store_ok then                                          (* 4 *)
              let e' := set_watermark kind (level, round) e in
              (Ok (bls_sign (secret e') signed_bytes), e')            (* 5 *)
            else (Err ErrCorrupted, mark_corrupted e)
          else (Err ErrStaleWatermark, e)
      | _ => (Err ErrKeyLocked, e)                                    (* 2 *)
      end
  end.

(** Modelled from the spec: the keychain's [sign] per key alias, which is
    missing from the sources; an unknown alias fails [ErrKeyNotFound]. *)
Definition sign (kc : gmap string KeyEntry) (alias : string)
    (payload : list byte) (store_ok : bool)
  : result keychain_error (list byte) * gmap string KeyEntry :=
  match kc !! alias with
  | None => (Err ErrKeyNotFound, kc)
  | Some e =>
      let '(r, e') := sign_entry e payload store_ok in
      (r, <[alias := e']> kc)
  end.

(** Modelled from the spec: the lock-state transitions, which are missing
    from the sources.  [UNLOCKED -> LOCKED] is explicit,
    [LOCKED -> UNLOCKED] needs the password check to pass, [CORRUPTED] is
    permanent. *)
Definition lock_key (e : KeyEntry) : KeyEntry :=
  match lock e with
  | UNLOCKED =>
      mkKeyEntry (secret e) LOCKED (last_block e) (last_preattestation e)
        (last_attestation e) (state_corrupted e)
  | _ => e
  end.

(** Modelled from the spec: [LOCKED -> UNLOCKED], see [lock_key]. *)
Definition unlock_key (password_ok : bool) (e : KeyEntry) : KeyEntry :=
  match lock e with
  | LOCKED =>
      if password_ok then
        mkKeyEntry (secret e) UNLOCKED (last_block e) (last_preattestation e)
          (last_attestation e) (state_corrupted e)
      else e
  | _ => e
  end.

(** Operations a client issues against the keychain, and the record of
    a successful sign. *)
Inductive op : Type :=
| OpSign (alias : string) (payload : list byte) (store_ok : bool)
| OpLock (alias : string)
| OpUnlock (alias : string) (password_ok : bool).

Record signed : Type := mkSigned {
  s_alias : string;
  s_kind : SIGN_KIND;
  s_at : Z * Z;
  s_sig : list byte
}.

(** The [(kind, level, round)] of a payload the validator accepts. *)
Definition kind_at (payload : list byte) : option (SIGN_KIND * (Z * Z)) :=
  match DecodeAndValidateSignPayload payload with
  | Ok (kind, level, round, _) => Some (kind, (level, round))
  | Err _ => None
  end.

(** Runs the operations in order; returns the successful signs, oldest
    first, and the final keychain. *)
Fixpoint run (kc : gmap string KeyEntry) (ops : list op)
  : list signed * gmap string KeyEntry :=
  match ops with
  | [] => ([], kc)
  | OpSign alias payload store_ok :: ops' =>
      let '(r, kc') := sign kc alias payload store_ok in
      let '(log, kc'') := run kc' ops' in
      match r, kind_at payload with
      | Ok sig, Some (kind, lr) => (mkSigned alias kind lr sig :: log, kc'')
      | _, _ => (log, kc'')
      end
  | OpLock alias :: ops' => run (alter lock_key alias kc) ops'
  | OpUnlock alias ok :: ops' => run (alter (unlock_key ok) alias kc) ops'
  end.

(** The [(level, round)] pairs of the successful signs of one key and
    one kind. *)
Definition signed_at (alias : string) (kind : SIGN_KIND) (log : list signed)
  : list (Z * Z) :=
  s_at <$> filter (fun s => s_alias s = alias /\ s_kind s = kind) log.

End Sign.

(** An unlocked key whose block watermark is [(100, 2)]. *)
Definition scenario_key : KeyEntry :=
  mkKeyEntry 1 UNLOCKED (100, 2) (0, 0) (0, 0) false.

End Keychain.

(** ** crypto/sha256 (FIPS 180-4), as [sha256.Sum256] computes it *)

Module SHA256.

Definition w32 (x : Z) : Z := x mod 2 ^ 32.
Definition add32 (x y : Z) : Z := w32 (x + y).
Definition rotr (n x : Z) : Z := Z.lor (Z.shiftr x n) (w32 (Z.shiftl x (32 - n))).
Definition not32 (x : Z) : Z := Z.lxor x 0xffffffff.

Definition Ch (x y z : Z) : Z := Z.lxor (Z.land x y) (Z.land (not32 x) z).
Definition Maj (x y z : Z) : Z :=
  Z.lxor (Z.lxor (Z.land x y) (Z.land x z)) (Z.land y z).
Definition bsig0 (x : Z) : Z := Z.lxor (Z.lxor (rotr 2 x) (rotr 13 x)) (rotr 22 x).
Definition bsig1 (x : Z) : Z := Z.lxor (Z.lxor (rotr 6 x) (rotr 11 x)) (rotr 25 x).
Definition ssig0 (x : Z) : Z := Z.lxor (Z.lxor (rotr 7 x) (rotr 18 x)) (Z.shiftr x 3).
Definition ssig1 (x : Z) : Z := Z.lxor (Z.lxor (rotr 17 x) (rotr 19 x)) (Z.shiftr x 10).

(** The first 64 primes.  FIPS 180-4 takes the round constants from their
    cube roots and the initial hash value from the square roots of the
    first eight. *)
Definition primes : list Z :=
  [ 2; 3; 5; 7; 11; 13; 17; 19; 23; 29; 31; 37; 41; 43; 47; 53; 59; 61; 67;
    71; 73; 79; 83; 89; 97; 101; 103; 107; 109; 113; 127; 131; 137; 139; 149;
    151; 157; 163; 167; 173; 179; 181; 191; 193; 197; 199; 211; 223; 227;
    229; 233; 239; 241; 251; 257; 263; 269; 271; 277; 281; 283; 293; 307;
    311 ].

(** Integer cube root, bit by bit from bit [n - 1] down. *)
Fixpoint cbrt_bits (n : nat) (x r : Z) : Z :=
  match n with
  | O => r
  | S n' =>
      let c := r + 2 ^ Z.of_nat n' in
      cbrt_bits n' x (if c * c * c <=? x then c else r)
  end.

(** The first 32 bits of the fractional part of the cube root of [p]. *)
Definition frac_cbrt (p : Z) : Z := w32 (cbrt_bits 36 (p * 2 ^ 96) 0).

(** The first 32 bits of the fractional part of the square root of [p]. *)
Definition frac_sqrt (p : Z) : Z := w32 (Z.sqrt (p * 2 ^ 64)).

Definition K : list Z := Eval vm_compute in frac_cbrt <$> primes.

Record state : Type := mkState { ha : Z; hb : Z; hc : Z; hd : Z; he : Z; hf : Z; hg : Z; hh : Z }.

Definition H0 : list Z := Eval vm_compute in frac_sqrt <$> take 8 primes.

Definition init : state :=
  mkState (nth 0 H0 0) (nth 1 H0 0) (nth 2 H0 0) (nth 3 H0 0)
          (nth 4 H0 0) (nth 5 H0 0) (nth 6 H0 0) (nth 7 H0 0).

(** Big-endian word of four bytes, and back. *)
Definition word_of (b : list byte) : Z := Bytes.BigEndian_Uint32 b.

Definition bytes_of_word (x : Z) : list byte := Bytes.BigEndian_PutUint32 x.

(** The 16 words of a 64-byte block. *)
Fixpoint words (n : nat) (b : list byte) : list Z :=
  match n with
  | O => []
  | S n' => word_of (take 4 b) :: words n' (drop 4 b)
  end.

(** Message schedule; [rev_w] holds W[t-1], W[t-2], ... (latest first). *)
Fixpoint schedule (n : nat) (rev_w : list Z) : list Z :=
  match n with
  | O => rev rev_w
  | S n' =>
      let w := add32 (add32 (ssig1 (nth 1 rev_w 0)) (nth 6 rev_w 0))
                     (add32 (ssig0 (nth 14 rev_w 0)) (nth 15 rev_w 0)) in
      schedule n' (w :: rev_w)
  end.

Definition round (s : state) (kw : Z * Z) : state :=
  let t1 := add32 (add32 (add32 (hh s) (bsig1 (he s))) (Ch (he s) (hf s) (hg s)))
                  (add32 kw.1 kw.2) in
  let t2 := add32 (bsig0 (ha s)) (Maj (ha s) (hb s) (hc s)) in
  mkState (add32 t1 t2) (ha s) (hb s) (hc s) (add32 (hd s) t1) (he s) (hf s) (hg s).

Definition compress (s : state) (block : list byte) : state :=
  let w := schedule 48 (rev (words 16 block)) in
  let r := fold_left round (zip K w) s in
  mkState (add32 (ha s) (ha r)) (add32 (hb s) (hb r)) (add32 (hc s) (hc r))
          (add32 (hd s) (hd r)) (add32 (he s) (he r)) (add32 (hf s) (hf r))
          (add32 (hg s) (hg r)) (add32 (hh s) (hh r)).

(** Padding: 0x80, zeros up to 56 mod 64, then the bit length on 8 bytes. *)
Definition pad (msg : list byte) : list byte :=
  let l := Bytes.len msg in
  let k := (55 - l) mod 64 in
  let bits := 8 * l in
  msg ++ [x80] ++ replicate (Z.to_nat k) x00
      ++ bytes_of_word (Z.shiftr bits 32) ++ bytes_of_word bits.

Fixpoint blocks (n : nat) (s : state) (m : list byte) : state :=
  match n with
  | O => s
  | S n' => blocks n' (compress s (take 64 m)) (drop 64 m)
  end.

Definition digest (s : state) : list byte :=
  bytes_of_word (ha s) ++ bytes_of_word (hb s) ++ bytes_of_word (hc s)
  ++ bytes_of_word (hd s) ++ bytes_of_word (he s) ++ bytes_of_word (hf s)
  ++ bytes_of_word (hg s) ++ bytes_of_word (hh s).

Definition Sum256 (msg : list byte) : list byte :=
  let m := pad msg in
  digest (blocks (length m / 64) init m).

End SHA256.

(** ** github.com/mr-tron/base58: [Decode] with the Bitcoin alphabet *)

Module Base58.

Definition alphabet : string :=
  "123456789ABCDEFGHJKLMNPQRSTUVWXYZabcdefghijkmnopqrstuvwxyz".

Definition digit (c : byte) : option Z :=
  let i := Bytes.IndexByte (String.list_byte_of_string alphabet) c in
  if i <? 0 then None else Some i.

Fixpoint digits (s : list byte) : option (list Z) :=
  match s with
  | [] => Some []
  | c :: s' =>
      match digit c, digits s' with
      | Some d, Some ds => Some (d :: ds)
      | _, _ => None
      end
  end.

Fixpoint leading_zeros (ds : list Z) : nat :=
  match ds with
  | d :: ds' => if d =? 0 then S (leading_zeros ds') else O
  | [] => O
  end.

(** Big-endian bytes of [n] without leading zero bytes; [fuel] bounds the
    number of bytes. *)
Fixpoint be_bytes (fuel : nat) (n : Z) (acc : list byte) : list byte :=
  match fuel with
  | O => acc
  | S f => if n <=? 0 then acc else be_bytes f (n / 256) (Bytes.of_Z n :: acc)
  end.

(** [Decode]: an error on the empty string and on a character outside the
    alphabet; otherwise one zero byte per leading '1', then the big-endian
    bytes of the number the digits spell in base 58. *)
Definition Decode (s : string) : option (list byte) :=
  let str := String.list_byte_of_string s in
  match str with
  | [] => None
  | _ =>
      match digits str with
      | None => None
      | Some ds =>
          let n := fold_left (fun acc d => acc * 58 + d) ds 0 in
          Some (replicate (leading_zeros ds) x00 ++ be_bytes (length str) n [])
      end
  end.

End Base58.

(** ** signer: Base58Check prefixes, decoding and secret-key import *)

Module Signer.
Import Bytes.

Definition pfxBLPubkey : list byte := [x06; x95; x87; xcc].       (* 6, 149, 135, 204 *)
Definition pfxBLSignature : list byte := [x28; xab; x40; xcf].    (* 40, 171, 64, 207 *)
Definition pfxTz4 : list byte := [x06; xa1; xa6].                 (* 6, 161, 166 *)
Definition pfxBLSecretKey : list byte := [x03; x96; xc0; x28].    (* 3, 150, 192, 40 *)

Inductive decode_error : Type :=
| errBase58                         (* the error of base58.Decode *)
| errTooShort                       (* fmt.Errorf("too short: %d", ...) *)
| errPrefixMismatch                 (* fmt.Errorf("prefix mismatch") *)
| errBadChecksum                    (* errors.New("bad checksum") *)
| errPayloadSize                    (* "... payload must be N bytes" *)
| errBLSecretKeyTooShort
| errBadBLskPrefix
| errBLSecretKeyPayloadNot32Bytes
| errScalarInvalid.

Definition doubleSHA256 (b : list byte) : list byte :=
  let h1 := SHA256.Sum256 b in
  let h2 := SHA256.Sum256 h1 in
  h2.

(** [for i := range prefix { if decoded[i] != prefix[i] { return err } }]:
    [true] when no index differs.  The length check before the loop keeps
    every [decoded[i]] in range. *)
Fixpoint prefix_matches (decoded prefix : list byte) {struct prefix} : bool :=
  match prefix with
  | [] => true
  | p :: prefix' =>
      match decoded with
      | d :: decoded' => Bytes.eqb d p && prefix_matches decoded' prefix'
      | [] => false
      end
  end.

(** [for i := 0; i < 4; i++ { if check[i] != exp[i] { return err } }] *)
Definition checksum_matches (check exp : list byte) : bool :=
  forallb (fun i => Bytes.eqb (at_ check i) (at_ exp i)) [0; 1; 2; 3]%nat.

(** [s[lo:hi]] *)
Definition slice (s : list byte) (lo hi : Z) : list byte :=
  take (Z.to_nat (hi - lo)) (drop (Z.to_nat lo) s).

Definition b58CheckDecode (prefix : list byte) (s : string)
  : result decode_error (list byte) :=
  match Base58.Decode s with
  | None => Err errBase58
  | Some decoded =>
      let min := len prefix + 4 in
      if len decoded <? min then Err errTooShort
      else if negb (prefix_matches decoded prefix) then Err errPrefixMismatch
      else
        let payload := slice decoded (len prefix) (len decoded - 4) in
        let check := slice decoded (len decoded - 4) (len decoded) in
        let exp := take 4 (doubleSHA256 (prefix ++ payload)) in
        if negb (checksum_matches check exp) then Err errBadChecksum
        else Ok payload
  end.

Definition decodeBlsPubkey (blsPubkey : string) : result decode_error (list byte) :=
  match b58CheckDecode pfxBLPubkey blsPubkey with
  | Err e => Err e
  | Ok pk => if negb (len pk =? 48) then Err errPayloadSize else Ok pk
  end.

Definition decodeBlsSig (blsSig : string) : result decode_error (list byte) :=
  match b58CheckDecode pfxBLSignature blsSig with
  | Err e => Err e
  | Ok sig => if negb (len sig =? 96) then Err errPayloadSize else Ok sig
  end.

(** The order of the BLS12-381 scalar field. *)
Definition curve_order : Z :=
  0x73eda753299d7d483339d80809a1d80553bda402fffe5bfeffffffff00000001.

(** Little-endian value of a byte string. *)
Definition le_value (b : list byte) : Z :=
  fold_right (fun x acc => to_Z x + 256 * acc) 0 b.

(** [blst.SecretKey.FromLEndian]: the scalar of 32 little-endian bytes, or
    nil when the bytes are not a valid secret key (not 32 bytes, zero, or
    not below the group order): the blst library's check, stated here. *)
Definition FromLEndian (le : list byte) : option Z :=
  if negb (len le =? 32) then None
  else
    let x := le_value le in
    if (0 <? x) && (x <? curve_order) then Some x else None.

Definition ImportBLSecretKey (blSecretKey : string) : result decode_error Z :=
  match Base58.Decode blSecretKey with
  | None => Err errBase58
  | Some raw =>
      if len raw <? 4 + len pfxBLSecretKey then Err errBLSecretKeyTooShort
      else
        let n := len raw - 4 in
        if negb (prefix_matches raw pfxBLSecretKey) then Err errBadBLskPrefix
        else
          let le := slice raw (len pfxBLSecretKey) n in
          if negb (len le =? 32) then Err errBLSecretKeyPayloadNot32Bytes
          else
            match FromLEndian le with
            | None => Err errScalarInvalid
            | Some sk => Ok sk
            end
  end.

(** Strings of the repository's demo programs: the secret key its [main]
    imports and a public key it decodes; and the same secret key with its
    last character changed from 'i' to 'j'. *)
Definition demo_BLsk : string := "BLsk3QwjBXavZAS4N7xvM3cmb1AMsLf6Fh9GBmo45x9vJv1NUjUJZi".
Definition demo_BLpk : string :=
  "BLpk1vvYoUeVyjsZhdhtzuEEsUAbigzgvZ3Ms3v4MZoeinnJKRa3MKksHZgH7nYXFxSREebWo619".
Definition tampered_BLsk : string := "BLsk3QwjBXavZAS4N7xvM3cmb1AMsLf6Fh9GBmo45x9vJv1NUjUJZj".

End Signer.

(** ** broker: waiter table, request maps and the broker itself *)

#[global] Instance byte_eq_dec : EqDecision byte.
Proof.
  intros a b. destruct (decide (Byte.to_N a = Byte.to_N b)) as [H|H].
  - left. apply (f_equal Byte.of_N) in H. rewrite !Byte.of_to_N in H.
    by injection H.
  - right. by intros ->.
Defined.

#[global] Instance byte_countable : Countable byte :=
  inj_countable Byte.to_N Byte.of_N Byte.of_to_N.

Module Broker.
Import Bytes Const Wire.

(** A delivery slot: [make(chan []byte, 1)].  [slot] is the buffered value;
    [closed] records a [close] of the channel. *)
Record chanState : Type := mkChan {
  slot : option (list byte);
  closed : bool
}.

(** [waiterEntry]: the channel (by reference) and its creation time. *)
Record waiterEntry : Type := mkWaiter {
  ch : nat;
  createdAt : Z
}.

(** The application handler: it returns its response bytes (the broker
    drops the handler's error) or panics. *)
Inductive handler_result : Type :=
| Returns (resp : list byte)
| Panics.

Definition Handler : Type := list byte -> handler_result.

(** [work]: a unit of work for the worker pool. *)
Record work : Type := mkWork {
  w_id : list byte;
  w_payloadType : byte;
  w_payload : list byte
}.

(** The broker's state that the functions below read and write.
    [chans] is the part of the heap that holds the delivery slots: a
    waiter entry and the caller of [Request] share a slot by reference.
    [writeChan] is the buffered channel of capacity 32, oldest frame first;
    [ctx_done] says whether the broker's context is cancelled. *)
Record Broker : Type := mkBroker {
  waiters : gmap (list byte) waiterEntry;
  chans : gmap nat chanState;
  handler : option Handler;
  writeChan : list (list byte);
  processingRequests : gmap (list byte) unit;
  unconfirmedRequests : gmap (list byte) (list byte);
  ctx_done : bool
}.

Definition writeChanCap : Z := 32.

Definition set_waiters (f : gmap (list byte) waiterEntry -> gmap (list byte) waiterEntry)
    (b : Broker) : Broker :=
  mkBroker (f (waiters b)) (chans b) (handler b) (writeChan b)
    (processingRequests b) (unconfirmedRequests b) (ctx_done b).

Definition set_chans (f : gmap nat chanState -> gmap nat chanState) (b : Broker) : Broker :=
  mkBroker (waiters b) (f (chans b)) (handler b) (writeChan b)
    (processingRequests b) (unconfirmedRequests b) (ctx_done b).

Definition set_writeChan (f : list (list byte) -> list (list byte)) (b : Broker) : Broker :=
  mkBroker (waiters b) (chans b) (handler b) (f (writeChan b))
    (processingRequests b) (unconfirmedRequests b) (ctx_done b).

Definition set_processing (f : gmap (list byte) unit -> gmap (list byte) unit)
    (b : Broker) : Broker :=
  mkBroker (waiters b) (chans b) (handler b) (writeChan b)
    (f (processingRequests b)) (unconfirmedRequests b) (ctx_done b).

Definition set_unconfirmed (f : gmap (list byte) (list byte) -> gmap (list byte) (list byte))
    (b : Broker) : Broker :=
  mkBroker (waiters b) (chans b) (handler b) (writeChan b)
    (processingRequests b) (f (unconfirmedRequests b)) (ctx_done b).

(** *** wire.go: waiterMap *)

(** [NewWaiter]: the id comes from [NewMessageID] (16 random bytes) and the
    time from [time.Now]; both are inputs here.  The new channel takes the
    first free address. *)
Definition NewWaiter (b : Broker) (id : list byte) (now : Z) : nat * Broker :=
  let c := fresh (dom (chans b)) in
  let b := set_chans (insert c (mkChan None false)) b in
  (c, set_waiters (insert id (mkWaiter c now)) b).

Definition waiters_Delete (b : Broker) (id : list byte) : Broker :=
  set_waiters (delete id) b.

Definition LoadAndDelete (b : Broker) (id : list byte) : option nat * Broker :=
  match waiters b !! id with
  | None => (None, b)
  | Some e => (Some (ch e), set_waiters (delete id) b)
  end.

(** [ReapStale]: ranges over the table, deletes each entry whose age
    [now - createdAt] exceeds [ttl], and counts them. *)
Definition ReapStale (b : Broker) (now ttl : Z) : Z * Broker :=
  let '(m, reaped) :=
    map_fold (fun key entry '(m, reaped) =>
                if now - createdAt entry >? ttl then (delete key m, reaped + 1)
                else (m, reaped))
             (waiters b, 0) (waiters b) in
  (reaped, set_waiters (fun _ => m) b).

(** *** broker.go *)

(** The cases of the [select] in [writeFrame]. *)
Inductive write_case : Type :=
| SendFrame        (* case b.writeChan <- frame *)
| CtxDone          (* case <-ctx.Done() *)
| BrokerCtxDone.   (* case <-b.ctx.Done() *)

(** [writeFrame]: [pick] is the case the [select] takes; the result is
    [None] when that case is not ready in this state (the goroutine does
    not take this step).  [caller_done] is the state of [ctx].  The
    deferred [recover] guards the body, in which nothing modelled here
    panics. *)
Definition writeFrame (pick : write_case) (b : Broker) (caller_done : bool)
    (msgType : byte) (id payload : list byte)
  : option (option broker_error * Broker) :=
  match newMessage msgType id payload with
  | Err err => Some (Some err, b)
  | Ok frame =>
      match pick with
      | SendFrame =>
          if Z.of_nat (length (writeChan b)) <? writeChanCap
          then Some (None, set_writeChan (fun q => q ++ [frame]) b)
          else None
      | CtxDone => if caller_done then Some (Some ErrCtx, b) else None
      | BrokerCtxDone => if ctx_done b then Some (Some ErrEOF, b) else None
      end
  end.

(** The loop of the retry case: one [writeFrame] per unconfirmed request,
    its result dropped. *)
Fixpoint retransmit (picks : list write_case) (b : Broker)
    (reqs : list (list byte * list byte)) {struct reqs} : option Broker :=
  match reqs with
  | [] => Some b
  | (reqID, reqPayload) :: reqs' =>
      match picks with
      | [] => None
      | pick :: picks' =>
          match writeFrame pick b (ctx_done b) payloadTypeRequest reqID reqPayload with
          | None => None
          | Some (_, b') => retransmit picks' b' reqs'
          end
      end
  end.

(** How a call of [handleWork] ends: it returns, or the handler's panic
    unwinds through it. *)
Inductive work_end : Type :=
| Returned
| Panicked.

(** [handleWork]: [picks] are the cases taken by the successive
    [writeFrame] calls.  [requestMap.All] clones the map; the range over
    the clone visits the entries in no particular order, here the order of
    [map_to_list]. *)
Definition handleWork (picks : list write_case) (b : Broker) (w : work)
  : option (work_end * Broker) :=
  if Bytes.eqb (w_payloadType w) payloadTypeResponse then
    match LoadAndDelete b (w_id w) with
    | (Some c, b) =>
        match chans b !! c with
        | Some (mkChan _ true) => Some (Panicked, b)   (* send on a closed channel *)
        | Some (mkChan None false) =>
            Some (Returned, set_chans (insert c (mkChan (Some (w_payload w)) false)) b)
        | _ => Some (Returned, b)   (* default: slot full, drop the response *)
        end
    | (None, b) => Some (Returned, b)
    end
  else if Bytes.eqb (w_payloadType w) payloadTypeRequest then
    match processingRequests b !! w_id w with
    | Some _ => Some (Returned, b)
    | None =>
        let b := set_processing (insert (w_id w) ()) b in
        match picks with
        | [] => None
        | pick1 :: picks' =>
            match writeFrame pick1 b (ctx_done b) payloadTypeAcceptRequest (w_id w) [] with
            | None => None
            | Some (_, b) =>
                match handler b with
                | None => Some (Returned, set_processing (delete (w_id w)) b)
                | Some h =>
                    match h (w_payload w) with
                    | Panics => Some (Panicked, b)
                    | Returns resp =>
                        let b := set_processing (delete (w_id w)) b in
                        match picks' with
                        | [] => None
                        | pick2 :: _ =>
                            match writeFrame pick2 b (ctx_done b) payloadTypeResponse (w_id w) resp with
                            | None => None
                            | Some (_, b) => Some (Returned, b)
                            end
                        end
                    end
                end
            end
        end
    end
  else if Bytes.eqb (w_payloadType w) payloadTypeAcceptRequest then
    Some (Returned, set_unconfirmed (delete (w_id w)) b)
  else if Bytes.eqb (w_payloadType w) payloadTypeRetry then
    match retransmit picks b (map_to_list (unconfirmedRequests b)) with
    | None => None
    | Some b => Some (Returned, b)
    end
  else Some (Returned, b).

(** The process that runs the broker: a panic that no deferred function of
    the goroutine recovers ends the program. *)
Inductive process : Type :=
| Running (b : Broker)
| Crashed.

(** One turn of a worker goroutine of [startWorkers] on a received work
    item: [b.handleWork(w)], with only
    [defer func() { workerDone <- struct{}{} }()] on the stack. *)
Definition worker (picks : list write_case) (b : Broker) (w : work) : option process :=
  match handleWork picks b w with
  | None => None
  | Some (Returned, b') => Some (Running b')
  | Some (Panicked, _) => Some Crashed
  end.

(** How the first part of [Request] ends: with an error, or waiting on
    the delivery slot [c] for the id. *)
Inductive request_state : Type :=
| Failed (id : list byte) (err : broker_error)
| Awaiting (id : list byte) (c : nat).

Definition zero_id : list byte := replicate 16 x00.

(** [Request], up to its final [select]. *)
Definition Request_send (pick : write_case) (b : Broker) (caller_done : bool)
    (payload : list byte) (new_id : list byte) (now : Z)
  : option (request_state * Broker) :=
  let payloadLen := len payload in
  if payloadLen >? 2 ^ 32 - 1 then Some (Failed zero_id ErrPayloadTooLarge, b)
  else if payloadLen >? MAX_MESSAGE_PAYLOAD then Some (Failed zero_id ErrPayloadExceedsMax, b)
  else
    let '(c, b) := NewWaiter b new_id now in
    let id := new_id in
    let b := set_unconfirmed (insert id payload) b in
    match writeFrame pick b caller_done payloadTypeRequest id payload with
    | None => None
    | Some (Some err, b) => Some (Failed id err, waiters_Delete b id)
    | Some (None, b) => Some (Awaiting id c, b)
    end.

(** The cases of the final [select] of [Request]. *)
Inductive await_case : Type :=
| RecvResponse      (* case resp := <-ch *)
| AwaitCtxDone      (* case <-ctx.Done() *)
| AwaitBrokerDone.  (* case <-b.ctx.Done() *)

(** The final [select] of [Request]: [None] when the picked case is not
    ready.  A receive is ready when the slot holds a value or the channel
    is closed (it then yields nil). *)
Definition Request_await (pick : await_case) (b : Broker) (caller_done : bool)
    (id : list byte) (c : nat)
  : option (result broker_error (list byte) * Broker) :=
  match pick with
  | RecvResponse =>
      match chans b !! c with
      | Some (mkChan (Some resp) cl) =>
          Some (Ok resp, set_chans (insert c (mkChan None cl)) b)
      | Some (mkChan None true) => Some (Ok [], b)
      | _ => None
      end
  | AwaitCtxDone =>
      if caller_done
      then Some (Err ErrCtx, waiters_Delete (set_unconfirmed (delete id) b) id)
      else None
  | AwaitBrokerDone =>
      if ctx_done b
      then Some (Err ErrEOF, waiters_Delete (set_unconfirmed (delete id) b) id)
      else None
  end.

(** Brokers and work items used in the examples below: a broker with no
    request in flight, a handler that echoes its payload and one that
    panics. *)
Definition idle_broker (h : Handler) : Broker :=
  mkBroker ∅ ∅ (Some h) [] ∅ ∅ false.

Definition echo : Handler := fun payload => Returns payload.
Definition panicking : Handler := fun _ => Panics.
Definition demo_id : list byte := replicate 16 x2a.
Definition demo_payload : list byte := [x74; x65; x73; x74].

Definition demo_request : work := mkWork demo_id payloadTypeRequest demo_payload.

(** A broker with one waiter, created at time 0, whose caller awaits the
    empty slot 0. *)
Definition waiting_broker : Broker :=
  mkBroker {[ demo_id := mkWaiter 0 0 ]} {[ 0%nat := mkChan None false ]}
    (Some echo) [] ∅ {[ demo_id := demo_payload ]} false.

(** A payload of MAX_MESSAGE_PAYLOAD + 1 zero bytes. *)
Definition oversized_payload : list byte :=
  replicate (Z.to_nat (MAX_MESSAGE_PAYLOAD + 1)) x00.

(** The idle broker after a [Request] of [demo_payload] whose [writeFrame]
    failed: the payload is unconfirmed under [demo_id], no waiter is left,
    and the delivery slot allocated for it is unreferenced. *)
Definition abandoned_broker : Broker :=
  mkBroker ∅ {[ 0%nat := mkChan None false ]} (Some echo) [] ∅
    {[ demo_id := demo_payload ]} false.

End Broker.

(** ** broker.go: the stash drainer *)

#[global] Instance broker_error_eq_dec : EqDecision broker_error.
Proof. solve_decision. Defined.

Module Reader.
Import Bytes Const Wire Stash Broker.

Definition workQueueSize : Z := 64.

(** [errors.Is(err, target)] for a sentinel [target]: [err] is the target,
    or a join one of whose parts is. *)
Fixpoint errors_Is (err target : broker_error) : bool :=
  bool_decide (err = target)
  || match err with
     | ErrInvalidPayload cause => errors_Is cause target
     | _ => false
     end.

(** The [select] of [processStash] on a work item: send it when the work
    channel has room, return when the broker's context is done, and with
    neither ready take the [default] and drop the item.  With both ready
    either may be taken: [prefer_done] says which.  The result is [None]
    when [processStash] returns. *)
Definition enqueue (prefer_done : bool) (workChan : list work) (ctx_done : bool)
    (w : work) : option (list work) :=
  if Z.of_nat (length workChan) <? workQueueSize then
    if ctx_done && prefer_done then None else Some (workChan ++ [w])
  else if ctx_done then None
  else Some workChan.

(** [processStash]: the loop stops on [ErrNoPayloadFound] and
    [ErrIncompletePayload], goes on after any other error, and hands every
    extracted frame to the work channel.  [fuel] bounds the number of
    iterations ([None] when it runs out); [picks] gives [prefer_done] for
    the successive work items (send, when the list is used up). *)
Fixpoint processStash (fuel : nat) (picks : list bool) (s : stash)
    (workChan : list work) (ctx_done : bool) : option (stash * list work) :=
  match fuel with
  | O => None
  | S fuel' =>
      match ReadPayload s with
      | (Err err, s') =>
          if errors_Is err ErrNoPayloadFound then Some (s', workChan)
          else if errors_Is err ErrIncompletePayload then Some (s', workChan)
          else if errors_Is err ErrInvalidPayloadSize
          then processStash fuel' picks s' workChan ctx_done
          else processStash fuel' picks s' workChan ctx_done
      | (Ok (id, pt, payload), s') =>
          let w := mkWork id pt payload in
          match enqueue (hd false picks) workChan ctx_done w with
          | None => Some (s', workChan)
          | Some workChan' => processStash fuel' (tl picks) s' workChan' ctx_done
          end
      end
  end.

(** The part of [readLoop] that follows a read of [n > 0] bytes:
    [b.stash.Write(buf[:n])] and [b.processStash()]. *)
Definition on_read (fuel : nat) (picks : list bool) (s : stash) (data : list byte)
    (workChan : list work) (ctx_done : bool) : option (stash * list work) :=
  processStash fuel picks (Write s data).1 workChan ctx_done.

End Reader.

(** The bytes of a sequence of frames on the wire, one after the other. *)
Definition encode_all (ws : list Broker.work) : list byte :=
  concat ((fun w => Wire.frameLayout (Broker.w_payloadType w) (Broker.w_id w)
                      (Broker.w_payload w)) <$> ws).

(** A work item that came through the codec: a 16-byte id and a payload
    within MAX_MESSAGE_PAYLOAD. *)
Definition well_formed (w : Broker.work) : Prop :=
  length (Broker.w_id w) = 16%nat /\
  Bytes.len (Broker.w_payload w) <= Const.MAX_MESSAGE_PAYLOAD.

(** ** app/tests/benchmark/payload.go: the other payload builders *)

Module Benchmark.
Import Bytes.

(** [buildPreattestationPayload]: the fields it writes into a zeroed buffer
    of 46 bytes. *)
Definition buildPreattestationPayload (level round : Z) : list byte :=
  [x12]                                       (* wm *)
  ++ [xaa; xbb; xcc; xdd]                     (* chain_id (dummy) *)
  ++ replicate 32 x00                         (* branch *)
  ++ [x01]                                    (* inner kind *)
  ++ BigEndian_PutUint32 (uint32 level)       (* level (int32 be) *)
  ++ BigEndian_PutUint32 round.               (* round (int32 be) *)

(** [buildAttestationPayload]: the same layout under the tag 0x13. *)
Definition buildAttestationPayload (level round : Z) : list byte :=
  [x13]
  ++ [xaa; xbb; xcc; xdd]
  ++ replicate 32 x00
  ++ [x01]
  ++ BigEndian_PutUint32 (uint32 level)
  ++ BigEndian_PutUint32 round.

(** [buildTenderbakePayload]: [msg] is not used; [nil] for any other kind. *)
Definition buildTenderbakePayload (kind : byte) (level round : Z) (msg : list byte)
  : list byte :=
  match kind with
  | x11 => Keychain.buildBlockPayload level round
  | x12 => buildPreattestationPayload level round
  | x13 => buildAttestationPayload level round
  | _ => []
  end.

End Benchmark.

(** ** broker.go: error classification, read loop and writer loop *)

Module Loops.
Import Bytes Const Wire Stash Broker Reader.

(** [time.Duration] counts nanoseconds. *)
Definition Millisecond : Z := 1000000.
Definition Second : Z := 1000 * Millisecond.

Definition initialBackoff : Z := 10 * Millisecond.
Definition maxBackoff : Z := 1 * Second.
Definition backoffFactor : Z := 2.
Definition maxConsecutiveErrors : Z := 10.

(** The [syscall.Errno] values the code tells apart. *)
Inductive Errno : Type := EBADF | ENOENT | EOTHER.

(** What the code observes of a non-nil [error]: the [syscall.Errno] that
    [errors.As] finds in it, and whether [errors.Is] finds
    [context.Canceled] or [context.DeadlineExceeded]. *)
Record io_error : Type := mkError {
  as_Errno : option Errno;
  is_Canceled : bool;
  is_DeadlineExceeded : bool
}.

(** [isFatal]; [None] is the nil error. *)
Definition isFatal (err : option io_error) : bool :=
  match err with
  | None => false
  | Some e =>
      match as_Errno e with
      | Some EBADF => true
      | Some ENOENT => true
      | _ => false
      end
  end.

(** [isRetryable] *)
Definition isRetryable (err : option io_error) : bool :=
  match err with
  | None => false
  | Some e =>
      if is_Canceled e || is_DeadlineExceeded e then false
      else if isFatal err then false
      else true
  end.

(** [b.cancel()] *)
Definition cancel (b : Broker) : Broker :=
  mkBroker (waiters b) (chans b) (handler b) (writeChan b)
    (processingRequests b) (unconfirmedRequests b) true.

(** How one turn of a loop ends: the goroutine returns, it goes round
    again (after having slept the given durations), or it waits in a
    [select] none of whose cases is ready. *)
Inductive step (S : Type) : Type :=
| Exit (s : S)
| Next (s : S) (slept : list Z)
| Block (s : S).
Arguments Exit {S} s.
Arguments Next {S} s slept.
Arguments Block {S} s.

(** The state in which a turn, or a run of turns, ends. *)
Definition final {S : Type} (r : step S) : S :=
  match r with
  | Exit s => s
  | Next s _ => s
  | Block s => s
  end.

(** *** readLoop *)

(** The state of the read loop: the broker, its stash and work channel,
    and the locals [backoff] and [consecutiveErrors]. *)
Record reader : Type := mkReader {
  rd_broker : Broker;
  rd_stash : stash;
  rd_workChan : list work;
  rd_backoff : Z;
  rd_consecutiveErrors : Z
}.

(** The state in which [readLoop] starts. *)
Definition newReader (b : Broker) (s : stash) (workChan : list work) : reader :=
  mkReader b s workChan initialBackoff 0.

(** What happens around one turn of the read loop: the bytes [buf[:n]] and
    the error that [ReadContext] returns, the cases taken by the selects
    of [processStash] and of [writeFrame], and whether the broker's
    context is cancelled before the backoff timer fires. *)
Record read_event : Type := mkReadEvent {
  ev_data : list byte;
  ev_err : option io_error;
  ev_picks : list bool;
  ev_write : write_case;
  ev_stop : bool
}.

(** One turn of the loop of [readLoop].  The context is looked at where
    the code looks at it; [processStash] gets the number of turns within
    which it always returns. *)
Definition readLoop_iter (st : reader) (ev : read_event) : step reader :=
  let b := rd_broker st in
  if ctx_done b then Exit st
  else
    let st1 :=
      if len (ev_data ev) >? 0 then
        let s1 := (Write (rd_stash st) (ev_data ev)).1 in
        match processStash (S (length (buf s1))) (ev_picks ev) s1 (rd_workChan st)
                (ctx_done b) with
        | Some (s', workChan') => mkReader b s' workChan' initialBackoff 0
        | None => st
        end
      else st in
    match ev_err ev with
    | None => Next st1 []
    | Some e =>
        let consecutiveErrors := rd_consecutiveErrors st1 + 1 in
        let st2 := mkReader b (rd_stash st1) (rd_workChan st1) (rd_backoff st1)
                     consecutiveErrors in
        if consecutiveErrors >=? maxConsecutiveErrors then Exit st2
        else if isFatal (Some e) then Exit st2
        else if is_Canceled e || is_DeadlineExceeded e then Exit st2
        else
          match writeFrame (ev_write ev) b (ctx_done b) payloadTypeRetry zero_id [] with
          | None => Block st2
          | Some (_, b') =>
              if ev_stop ev
              then Exit (mkReader (cancel b') (rd_stash st1) (rd_workChan st1)
                           (rd_backoff st1) consecutiveErrors)
              else
                let backoff := rd_backoff st1 * backoffFactor in
                let backoff := if backoff >? maxBackoff then maxBackoff else backoff in
                Next (mkReader b' (rd_stash st1) (rd_workChan st1) backoff
                        consecutiveErrors)
                     [rd_backoff st1]
          end
    end.

(** The loop over a sequence of events. *)
Fixpoint readLoop (st : reader) (evs : list read_event) : step reader :=
  match evs with
  | [] => Next st []
  | ev :: evs' =>
      match readLoop_iter st ev with
      | Next st' slept =>
          match readLoop st' evs' with
          | Next st'' slept' => Next st'' (slept ++ slept')
          | r => r
          end
      | r => r
      end
  end.

(** *** writerLoop *)

(** The state of the writer loop: the broker, the frame [data] taken from
    the write channel and not yet written, the locals [backoff] and
    [consecutiveErrors], and the frames [WriteContext] has written,
    oldest first. *)
Record writer : Type := mkWriter {
  wr_broker : Broker;
  wr_data : option (list byte);
  wr_backoff : Z;
  wr_consecutiveErrors : Z;
  wr_written : list (list byte)
}.

Definition newWriter (b : Broker) : writer :=
  mkWriter b None initialBackoff 0 [].

(** What happens around one call of [WriteContext]: its error, whether
    the outer [select] prefers the context when a frame is ready too, and
    whether the context is cancelled before the backoff timer fires. *)
Record write_event : Type := mkWriteEvent {
  wev_err : option io_error;
  wev_prefer_done : bool;
  wev_stop : bool
}.

(** One call of [WriteContext] with what surrounds it: the outer [select]
    when no frame is in hand, the check of the context, the call, and the
    handling of its error. *)
Definition writerLoop_iter (st : writer) (ev : write_event) : step writer :=
  let b := wr_broker st in
  let taken :=
    match wr_data st with
    | Some data => Some (data, b)
    | None =>
        match writeChan b with
        | data :: rest =>
            if ctx_done b && wev_prefer_done ev then None
            else Some (data, set_writeChan (fun _ => rest) b)
        | [] => None
        end
    end in
  match taken with
  | None => if ctx_done b then Exit st else Block st
  | Some (data, b) =>
      let st1 := mkWriter b (Some data) (wr_backoff st) (wr_consecutiveErrors st)
                   (wr_written st) in
      if ctx_done b then Exit st1
      else
        match wev_err ev with
        | Some e =>
            let consecutiveErrors := wr_consecutiveErrors st + 1 in
            let st2 := mkWriter b (Some data) (wr_backoff st) consecutiveErrors
                         (wr_written st) in
            if consecutiveErrors >=? maxConsecutiveErrors then Exit st2
            else if isFatal (Some e) then Exit st2
            else if is_Canceled e || is_DeadlineExceeded e then Exit st2
            else if wev_stop ev
            then Exit (mkWriter (cancel b) (Some data) (wr_backoff st) consecutiveErrors
                         (wr_written st))
            else
              let backoff := wr_backoff st * backoffFactor in
              let backoff := if backoff >? maxBackoff then maxBackoff else backoff in
              Next (mkWriter b (Some data) backoff consecutiveErrors (wr_written st))
                   [wr_backoff st]
        | None =>
            Next (mkWriter b None initialBackoff 0 (wr_written st ++ [data])) []
        end
  end.

Fixpoint writerLoop (st : writer) (evs : list write_event) : step writer :=
  match evs with
  | [] => Next st []
  | ev :: evs' =>
      match writerLoop_iter st ev with
      | Next st' slept =>
          match writerLoop st' evs' with
          | Next st'' slept' => Next st'' (slept ++ slept')
          | r => r
          end
      | r => r
      end
  end.

(** The retry frame of the read loop, and an event that stands for a
    failed read without data whose retry frame is queued and whose backoff
    timer fires. *)
Definition retry_frame : list byte := frameLayout payloadTypeRetry zero_id [].

Definition failed_read (e : io_error) : read_event :=
  mkReadEvent [] (Some e) [] SendFrame false.

(** The frames the writer has written, holds and has still to take, in
    this order. *)
Definition frames (st : writer) : list (list byte) :=
  wr_written st ++ from_option (fun d => [d]) [] (wr_data st) ++ writeChan (wr_broker st).

End Loops.

(** ** base58.Encode and the Base58Check encoders of signer.go *)

Module Base58Enc.

(** The digits of [n] in base 58, most significant first, without leading
    zero digits; [fuel] bounds their number. *)
Fixpoint to_digits (fuel : nat) (n : Z) (acc : list Z) : list Z :=
  match fuel with
  | O => acc
  | S f => if n <=? 0 then acc else to_digits f (n / 58) (n mod 58 :: acc)
  end.

Fixpoint leading_zero_bytes (bin : list byte) : nat :=
  match bin with
  | x :: bin' => if Bytes.eqb x x00 then S (leading_zero_bytes bin') else O
  | [] => O
  end.

(** The number a list of base-58 digits spells. *)
Definition digits_value (ds : list Z) : Z :=
  fold_left (fun acc d => acc * 58 + d) ds 0.

(** A byte string without leading zero byte. *)
Definition canonical (b : list byte) : Prop :=
  b = [] \/ exists x b', b = x :: b' /\ x <> x00.

(** The number a byte string spells, big-endian. *)
Definition be_value (bin : list byte) : Z :=
  fold_left (fun acc x => acc * 256 + Bytes.to_Z x) bin 0.

(** [base58.Encode] of the library the signer imports
    (github.com/mr-tron/base58): one '1' per leading zero byte, then the
    base-58 digits of the number the bytes spell, in the alphabet of
    [Base58.alphabet]. *)
Definition Encode (bin : list byte) : string :=
  let zcount := leading_zero_bytes bin in
  let ds := to_digits (2 * length bin) (be_value bin) [] in
  String.string_of_list_byte
    (replicate zcount x31
     ++ ((fun d => Bytes.at_ (String.list_byte_of_string Base58.alphabet) (Z.to_nat d))
           <$> ds)).

End Base58Enc.

Module Encoder.
Import Bytes Signer.

Inductive encode_error : Type :=
| errPubkeyNot48Bytes
| errSigNot96Bytes.

(** [b58CheckEncode]:
    Base58Check(prefix || payload || doubleSHA256(prefix||payload)[0:4]) *)
Definition b58CheckEncode (prefix payload : list byte) : string :=
  let n := (length prefix + length payload)%nat in
  let buf := make (Z.of_nat n + 4) in
  let buf := copy buf 0 (length buf) prefix in
  let buf := copy buf (length prefix) (length buf) payload in
  let sum1 := SHA256.Sum256 (take n buf) in
  let sum2 := SHA256.Sum256 sum1 in
  let buf := copy buf n (length buf) (take 4 sum2) in
  Base58Enc.Encode buf.

Definition EncodeBLPubkey (pubkeyBytes : list byte) : result encode_error string :=
  if negb (len pubkeyBytes =? 48) then Err errPubkeyNot48Bytes
  else Ok (b58CheckEncode pfxBLPubkey pubkeyBytes).

Definition EncodeBLSignature (sigBytes : list byte) : result encode_error string :=
  if negb (len sigBytes =? 96) then Err errSigNot96Bytes
  else Ok (b58CheckEncode pfxBLSignature sigBytes).

(** The [n] low bytes of [x], least significant first. *)
Fixpoint le_bytes (n : nat) (x : Z) : list byte :=
  match n with
  | O => []
  | S n' => of_Z x :: le_bytes n' (x / 256)
  end.

(** [blst.SecretKey.ToLEndian]: the scalar as 32 little-endian bytes. *)
Definition ToLEndian (secretKey : Z) : list byte := le_bytes 32 secretKey.

(** [EncodeBLSecretKey] *)
Definition EncodeBLSecretKey (secretKey : Z) : string :=
  let le := ToLEndian secretKey in
  b58CheckEncode pfxBLSecretKey le.

End Encoder.

(** ** Sequences of operations on a stash *)

(** The two operations the read loop performs on its stash. *)
Inductive stash_op : Type :=
| OpWrite (data : list byte)
| OpReadPayload.

Definition stash_apply (s : Stash.stash) (op : stash_op) : Stash.stash :=
  match op with
  | OpWrite data => (Stash.Write s data).1
  | OpReadPayload => (Stash.ReadPayload s).2
  end.

(** ** signer: hierarchical key derivation (EIP-2333 HKDF_mod_r) *)

Module HD.
Import Bytes Signer Encoder.

(** Field order r of BLS12-381 (scalar field Fr). *)
Definition bls12381_r : Z :=
  0x73EDA753299D7D483339D80809A1D80553BDA402FFFE5BFEFFFFFFFF00000001.

Definition saltLabel : list byte := String.list_byte_of_string "TEZSIGN-HD-V1|".

Inductive hd_error : Type :=
| errMissingZeroFieldOrderR
| errIkmInvalid
| errLoadScalarFailed
| errNilParent
| errParentScalarSizeInvalid
| errNilMaster
| panicFillBytes.   (* big.Int.FillBytes panics when the value does not fit *)

(** [hdParams]: [R] is a pointer and may be nil. *)
Record hdParams : Type := mkParams {
  R : option Z;
  Salt : list byte
}.

(** [TezSignHDParams]: salt := SHA256("TEZSIGN-HD-V1|" || masterSalt) *)
Definition TezSignHDParams (masterSalt : list byte) : hdParams :=
  mkParams (Some bls12381_r) (SHA256.Sum256 (saltLabel ++ masterSalt)).

(** [hmac.New(sha256.New, key)], [Write], [Sum]: HMAC with SHA-256, whose
    block size is 64 bytes. *)
Definition hmac_sha256 (key msg : list byte) : list byte :=
  let key := if len key >? 64 then SHA256.Sum256 key else key in
  let key := key ++ replicate (64 - length key) x00 in
  let ipad := Bytes.xor x36 <$> key in
  let opad := Bytes.xor x5c <$> key in
  SHA256.Sum256 (opad ++ SHA256.Sum256 (ipad ++ msg)).

(** [hkdfExtract] *)
Definition hkdfExtract (salt ikm : list byte) : list byte := hmac_sha256 salt ikm.

(** The loop of [hkdfExpand]; every turn adds 32 bytes, so [fuel] turns
    are enough for [L <= 32 * fuel]. *)
Fixpoint hkdfExpand_loop (fuel : nat) (prk info t out : list byte) (ctr : byte) (L : Z)
  : list byte :=
  if len out <? L then
    match fuel with
    | O => out
    | S fuel' =>
        let t := hmac_sha256 prk (t ++ info ++ [ctr]) in
        hkdfExpand_loop fuel' prk info t (out ++ t) (of_Z (to_Z ctr + 1)) L
    end
  else out.

(** [hkdfExpand] *)
Definition hkdfExpand (prk info : list byte) (L : Z) : list byte :=
  take (Z.to_nat L) (hkdfExpand_loop (Z.to_nat L) prk info [] [] x01 L).

(** [beToLE32]: [le[i] = be[31-i]] for [i] from 0 to 31. *)
Definition beToLE32 (be : list byte) : list byte :=
  (fun i => at_ be (31 - i)) <$> seq 0 32.

(** [k.FillBytes(be[:])] into 32 bytes: the big-endian bytes of [k],
    zero-extended. *)
Definition FillBytes32 (k : Z) : list byte := rev (le_bytes 32 k).

(** The candidate scalar of one turn of [hkdfModR]: OS2IP(okm) mod r. *)
Definition candidate (ikm salt : list byte) (r : Z) : Z :=
  let prk := hkdfExtract salt ikm in
  let okm := hkdfExpand prk [] 48 in
  Base58Enc.be_value okm mod r.

(** The loop of [hkdfModR]; [None] when [fuel] turns did not find a
    non-zero candidate. *)
Fixpoint hkdfModR_loop (fuel : nat) (ikm salt : list byte) (r : Z)
  : option (result hd_error Z) :=
  match fuel with
  | O => None
  | S fuel' =>
      let k := candidate ikm salt r in
      if negb (k =? 0) then
        if k >=? 2 ^ 256 then Some (Err panicFillBytes)
        else
          let be := FillBytes32 k in
          let le := beToLE32 be in
          match FromLEndian le with
          | None => Some (Err errLoadScalarFailed)
          | Some sk => Some (Ok sk)
          end
      else hkdfModR_loop fuel' ikm (SHA256.Sum256 salt) r
  end.

(** [hkdfModR] *)
Definition hkdfModR (fuel : nat) (ikm : list byte) (params : hdParams)
  : option (result hd_error Z) :=
  match R params with
  | None => Some (Err errMissingZeroFieldOrderR)
  | Some r =>
      if r <=? 0 then Some (Err errMissingZeroFieldOrderR)
      else if len ikm <? 32 then Some (Err errIkmInvalid)
      else hkdfModR_loop fuel ikm (Salt params) r
  end.

(** [deriveMasterSK] *)
Definition deriveMasterSK (fuel : nat) (seed : list byte) (params : hdParams)
  : option (result hd_error Z) :=
  hkdfModR fuel seed params.

(** [deriveChildSK]; a nil parent is [None]. *)
Definition deriveChildSK (fuel : nat) (parent : option Z) (index : Z) (params : hdParams)
  : option (result hd_error Z) :=
  match parent with
  | None => Some (Err errNilParent)
  | Some sk =>
      let le := ToLEndian sk in
      if negb (len le =? 32) then Some (Err errParentScalarSizeInvalid)
      else
        let be := beToLE32 le in
        let ikm := be ++ BigEndian_PutUint32 index in
        hkdfModR fuel ikm params
  end.

(** [derivePathSK]: the loop applies [deriveChildSK] index by index and
    stops at the first error. *)
Definition derivePathSK (fuel : nat) (master : option Z) (path : list Z)
    (params : hdParams) : option (result hd_error Z) :=
  match master with
  | None => Some (Err errNilMaster)
  | Some sk =>
      fold_left (fun acc i =>
                   match acc with
                   | Some (Ok sk) => deriveChildSK fuel (Some sk) i params
                   | r => r
                   end)
                path (Some (Ok sk))
  end.

(** [GenerateHDKey], up to the secret key it returns. *)
Definition GenerateHDKey (fuel : nat) (masterSalt seed : list byte) (index : Z)
  : option (result hd_error Z) :=
  let params := TezSignHDParams masterSalt in
  match deriveMasterSK fuel seed params with
  | Some (Ok masterSK) =>
      let path := [12381; 1729; 0; 0; index] in
      derivePathSK fuel (Some masterSK) path params
  | r => r
  end.

End HD.

(** * Properties *)

(** ** Bytes *)

Section BytesFacts.
Import Bytes.

Lemma to_Z_range (b : byte) : 0 <= to_Z b < 256.
Proof.
  unfold to_Z. pose proof (Byte.to_N_bounded b) as H.
  split; [apply N2Z.is_nonneg|]. lia.
Qed.

Lemma to_Z_of_Z (z : Z) : to_Z (of_Z z) = z mod 256.
Proof.
  unfold of_Z, to_Z.
  assert (Hr : 0 <= z mod 256 < 256) by (apply Z.mod_pos_bound; lia).
  destruct (Byte.of_N (Z.to_N (z mod 256))) as [b|] eqn:E.
  - apply Byte.to_of_N in E. rewrite E. rewrite Z2N.id; lia.
  - apply Byte.of_N_None_iff in E. lia.
Qed.

Lemma to_Z_inj (a b : byte) : to_Z a = to_Z b -> a = b.
Proof.
  unfold to_Z. intros H. apply N2Z.inj in H.
  assert (Some a = Some b) as [= ->]; [|done].
  by rewrite <- (Byte.of_to_N a), <- (Byte.of_to_N b), H.
Qed.

Lemma eqb_eq (a b : byte) : eqb a b = true <-> a = b.
Proof.
  unfold eqb. rewrite Z.eqb_eq. split; [apply to_Z_inj | by intros ->].
Qed.

Lemma eqb_refl (a : byte) : eqb a a = true.
Proof. by apply eqb_eq. Qed.

Lemma len_app (a b : list byte) : len (a ++ b) = len a + len b.
Proof. unfold len. rewrite length_app. lia. Qed.

Lemma len_nonneg (a : list byte) : 0 <= len a.
Proof. unfold len. lia. Qed.

Lemma mod256_testbit (z j : Z) :
  Z.testbit (z mod 256) j = (j <? 8) && Z.testbit z j.
Proof.
  change 256 with (2 ^ 8).
  destruct (Z.ltb_spec j 8) as [Hlt|Hge]; simpl.
  - destruct (Z.ltb_spec j 0) as [Hneg|Hpos].
    + by rewrite !Z.testbit_neg_r.
    + apply Z.mod_pow2_bits_low. lia.
  - apply Z.mod_pow2_bits_high. lia.
Qed.

Lemma shiftr_testbit (n k j : Z) :
  Z.testbit (Z.shiftr n k) j = (0 <=? j) && Z.testbit n (j + k).
Proof.
  destruct (Z.leb_spec 0 j); simpl.
  - by apply Z.shiftr_spec.
  - by apply Z.testbit_neg_r.
Qed.

Lemma LittleEndian_roundtrip (n : Z) :
  0 <= n < 2 ^ 32 ->
  LittleEndian_Uint32 (LittleEndian_PutUint32 n) = n.
Proof.
  intros Hn. apply Z.bits_inj'. intros i Hi.
  unfold LittleEndian_Uint32, LittleEndian_PutUint32, at_. simpl nth.
  rewrite !Z.lor_spec, !Z.shiftl_spec by lia.
  rewrite !to_Z_of_Z, !mod256_testbit, !shiftr_testbit.
  assert (Hhi : 32 <= i -> Z.testbit n i = false).
  { intros. rewrite <- (Z.mod_small n (2 ^ 32)) by lia.
    apply Z.mod_pow2_bits_high. lia. }
  replace (i - 8 + 8) with i by lia.
  replace (i - 16 + 16) with i by lia.
  replace (i - 24 + 24) with i by lia.
  destruct (Z.ltb_spec i 8), (Z.ltb_spec (i - 8) 8), (Z.ltb_spec (i - 16) 8),
    (Z.ltb_spec (i - 24) 8), (Z.leb_spec 0 (i - 8)), (Z.leb_spec 0 (i - 16)),
    (Z.leb_spec 0 (i - 24)); try lia; simpl;
    rewrite ?orb_false_r; try done.
  symmetry. apply Hhi. lia.
Qed.

End BytesFacts.

(** ** Frame codec *)

Section WireFacts.
Import Bytes Const Wire.

Lemma headerParity_22 (h : list byte) :
  length h = 22%nat -> headerParity h = (fold_left Bytes.xor h x00, None).
Proof.
  intros Hl. unfold headerParity, len, HeaderLen. rewrite Hl. done.
Qed.

Lemma newMessage_layout (t : byte) (id payload : list byte) :
  length id = 16%nat ->
  len payload <= 2 ^ 32 - 1 ->
  newMessage t id payload = Ok (frameLayout t id payload).
Proof.
  intros Hid Hp. unfold newMessage, frameLayout, header22.
  pose proof (len_nonneg payload) as Hnn.
  destruct (Z.ltb_spec (len payload) 0); [lia|].
  destruct (Z.gtb_spec (len payload) (2 ^ 32 - 1)); [lia|].
  cbn [orb]. f_equal.
  do 17 (destruct id as [|? id]; try discriminate Hid). clear Hid.
  unfold make.
  replace (Z.to_nat (HeaderLen + len payload)) with (23 + length payload)%nat
    by (unfold HeaderLen, len; lia).
  unfold uint32. rewrite (Z.mod_small (len payload)) by lia.
  unfold LittleEndian_PutUint32.
  cbn [Nat.add replicate set copy list_insert insert take drop firstn skipn
       Nat.min Nat.sub length app Z.to_nat HeaderLen Z.add Pos.add Pos.succ
       Pos.to_nat Pos.iter_op Nat.add].
  rewrite length_replicate, headerParity_22 by done.
  change (Z.to_nat HeaderLen) with 23%nat.
  unfold copy. cbn [Nat.sub take drop firstn skipn app Nat.add fst].
  rewrite Nat.sub_0_r, Nat.min_id, firstn_all.
  rewrite skipn_all2 by (rewrite length_replicate; lia).
  by rewrite app_nil_r.
Qed.

Lemma DecodeHeader_frameLayout (t : byte) (id payload rest : list byte) :
  length id = 16%nat ->
  len payload <= 2 ^ 32 - 1 ->
  DecodeHeader (frameLayout t id payload ++ rest)
  = Ok {| Magic := MagicByte; Type_ := t; ID := id; Size := len payload |}.
Proof.
  intros Hid Hp. pose proof (len_nonneg payload) as Hnn.
  pose proof (LittleEndian_roundtrip (len payload) ltac:(lia)) as Hle.
  unfold LittleEndian_PutUint32 in Hle.
  unfold frameLayout, header22, LittleEndian_PutUint32, DecodeHeader.
  do 17 (destruct id as [|? id]; try discriminate Hid). clear Hid.
  cbn [app].
  match goal with |- context [len ?l <? HeaderLen] =>
    destruct (Z.ltb_spec (len l) HeaderLen) as [Hlt|_];
      [unfold len, HeaderLen in Hlt; cbn [length] in Hlt; lia|]
  end.
  cbn [at_ nth take drop firstn skipn].
  rewrite headerParity_22 by done.
  cbn [fst]. rewrite !eqb_refl. cbn [negb].
  by rewrite Hle.
Qed.

Lemma DecodeHeader_Ok_inv (src : list byte) (h : Header) :
  DecodeHeader src = Ok h ->
  HeaderLen <= len src /\ IndexByte src MagicByte = 0 /\
  Size h = LittleEndian_Uint32 (take 4 (drop 18 src)).
Proof.
  unfold DecodeHeader. intros H.
  destruct (Z.ltb_spec (len src) HeaderLen); [done|].
  destruct (Bytes.eqb (at_ src 0) MagicByte) eqn:Emagic; [|done].
  cbn [negb] in H.
  destruct (Bytes.eqb (at_ src 22) _); [|done].
  cbn [negb] in H. injection H as <-. cbn [Size].
  split; [done|]. split; [|done].
  destruct src as [|b src]; [unfold len, HeaderLen in *; simpl in *; lia|].
  cbn [IndexByte]. unfold at_ in Emagic. cbn [nth] in Emagic.
  by rewrite Emagic.
Qed.

End WireFacts.

(** ** Stash *)

Section StashFacts.
Import Bytes Const Wire Stash.

Lemma frameLayout_split (t : byte) (id payload : list byte) :
  length id = 16%nat ->
  exists hdr, length hdr = 23%nat /\ frameLayout t id payload = hdr ++ payload.
Proof.
  intros Hid. unfold frameLayout.
  exists (header22 t id (len payload) ++ [fold_left Bytes.xor (header22 t id (len payload)) x00]).
  split; [|by rewrite <- app_assoc].
  unfold header22, LittleEndian_PutUint32.
  rewrite !length_app. cbn [length]. lia.
Qed.

Lemma copy_whole (src : list byte) :
  copy (make (len src)) 0 (length (make (len src))) src = src.
Proof.
  unfold copy, make, len. rewrite Nat2Z.id, length_replicate.
  rewrite Nat.sub_0_r, Nat.min_id. cbn [take firstn app Nat.add].
  rewrite firstn_all, skipn_all2 by (rewrite length_replicate; lia).
  by rewrite app_nil_r.
Qed.

Lemma ReadPayload_frame (t : byte) (id payload rest : list byte) (cap : Z) :
  length id = 16%nat ->
  len payload <= MAX_MESSAGE_PAYLOAD ->
  ReadPayload {| buf := frameLayout t id payload ++ rest; capacity := cap |}
  = (Ok (id, t, payload), {| buf := rest; capacity := cap |}).
Proof.
  intros Hid Hp.
  assert (HM : MAX_MESSAGE_PAYLOAD = 26214400) by reflexivity.
  pose proof (len_nonneg payload) as Hnn.
  pose proof (DecodeHeader_frameLayout t id payload rest Hid ltac:(lia)) as Hdec.
  pose proof (DecodeHeader_Ok_inv _ _ Hdec) as (_ & Hidx & _).
  destruct (frameLayout_split t id payload Hid) as (hdr & Hhdr & Hsplit).
  unfold ReadPayload. cbn [buf capacity]. rewrite Hidx.
  change (0 <? 0) with false. cbv iota.
  unfold Next. change (Z.to_nat 0) with 0%nat. cbn [snd]. rewrite !skipn_O.
  rewrite Hdec. cbn [Size ID Type_].
  destruct (Z.gtb_spec (len payload) MAX_MESSAGE_PAYLOAD); [lia|].
  unfold uint32, HeaderLen. rewrite Z.mod_small by lia.
  match goal with |- context [len ?l <? ?n] =>
    destruct (Z.ltb_spec (len l) n) as [Hlt|_] end.
  { rewrite Hsplit, !len_app in Hlt. unfold len in Hlt at 1.
    pose proof (len_nonneg rest). lia. }
  cbn [snd]. rewrite Hsplit, <- app_assoc.
  change (Z.to_nat (1 + 1 + 16 + 4 + 1)) with 23%nat.
  rewrite drop_app_length' by done.
  replace (Z.to_nat (len payload)) with (length payload)
    by (unfold len; lia).
  rewrite take_app_length, drop_app_length.
  by rewrite copy_whole.
Qed.

Lemma ReadPayload_drops_header (s : stash) (h : Header) :
  DecodeHeader (buf s) = Ok h ->
  Size h > MAX_MESSAGE_PAYLOAD ->
  ReadPayload s
  = (Err ErrInvalidPayloadSize, {| buf := drop 23 (buf s); capacity := capacity s |}).
Proof.
  intros Hdec Hsz.
  pose proof (DecodeHeader_Ok_inv _ _ Hdec) as (_ & Hidx & _).
  unfold ReadPayload. rewrite Hidx.
  change (0 <? 0) with false. cbv iota.
  unfold Next. change (Z.to_nat 0) with 0%nat. cbn [snd]. rewrite !skipn_O.
  rewrite Hdec.
  destruct (Z.gtb_spec (Size h) MAX_MESSAGE_PAYLOAD); [done|lia].
Qed.

End StashFacts.

(** The frame of a request with id [demo_id] and payload "test": magic,
    type, sixteen id bytes, the length 4 in little endian, the parity byte
    and the payload. *)
Example newMessage_demo :
  Wire.newMessage Const.payloadTypeRequest Broker.demo_id Broker.demo_payload
  = Ok ([x56; x01] ++ replicate 16 x2a ++ [x04; x00; x00; x00; x53]
        ++ [x74; x65; x73; x74]).
Proof. vm_compute. reflexivity. Qed.

(** Resynchronisation: noise without a magic byte in front of a frame is
    dropped, the frame is extracted and the byte after it stays. *)
Example ReadPayload_resync_demo :
  Stash.ReadPayload
    (Stash.mkStash
       ([x00; x01; x02]
        ++ Wire.frameLayout Const.payloadTypeRequest Broker.demo_id Broker.demo_payload
        ++ [x99]) 64)
  = (Ok (Broker.demo_id, Const.payloadTypeRequest, Broker.demo_payload),
     Stash.mkStash [x99] 64).
Proof. vm_compute. reflexivity. Qed.

(** A frame whose payload has not fully arrived is left in the stash. *)
Example ReadPayload_incomplete_demo :
  Stash.ReadPayload
    (Stash.mkStash
       (take 25 (Wire.frameLayout Const.payloadTypeRequest Broker.demo_id
                   Broker.demo_payload)) 64)
  = (Err ErrIncompletePayload,
     Stash.mkStash
       (take 25 (Wire.frameLayout Const.payloadTypeRequest Broker.demo_id
                   Broker.demo_payload)) 64).
Proof. vm_compute. reflexivity. Qed.

(** A header whose parity is off by one bit is rejected and one byte is
    consumed. *)
Example ReadPayload_bad_parity_demo :
  Stash.ReadPayload
    (Stash.mkStash
       ([x56; x01] ++ replicate 16 x2a ++ [x04; x00; x00; x00; x52]
        ++ [x74; x65; x73; x74]) 64)
  = (Err (ErrInvalidPayload ErrInvalidHeaderBadMagic),
     Stash.mkStash
       ([x01] ++ replicate 16 x2a ++ [x04; x00; x00; x00; x52]
        ++ [x74; x65; x73; x74]) 64).
Proof. vm_compute. reflexivity. Qed.

(** Drop from the head: two bytes written into a stash of capacity 4 that
    holds three push the oldest byte out. *)
Example Write_drop_demo :
  (Stash.Write (Stash.mkStash [x01; x02; x03] 4) [x04; x05]).1
  = Stash.mkStash [x02; x03; x04; x05] 4.
Proof. reflexivity. Qed.

(** C2: for every frame type, every 16-byte id and every payload of at most
    MAX_MESSAGE_PAYLOAD bytes, the encoder succeeds, the header decoder
    recovers magic, type, id and size from the encoded bytes, and
    [ReadPayload] on a stash that holds exactly the encoded bytes returns
    the id, the type and the payload, leaving the stash empty. *)
Theorem frame_roundtrip (t : byte) (id payload : list byte) :
  length id = 16%nat ->
  Bytes.len payload <= Const.MAX_MESSAGE_PAYLOAD ->
  exists frame,
    Wire.newMessage t id payload = Ok frame /\
    Wire.DecodeHeader frame
    = Ok (Wire.mkHeader Const.MagicByte t id (Bytes.len payload)) /\
    forall cap,
      Stash.ReadPayload (Stash.mkStash frame cap)
      = (Ok (id, t, payload), Stash.mkStash [] cap).
Proof.
  intros Hid Hp.
  assert (HM : Const.MAX_MESSAGE_PAYLOAD = 26214400) by reflexivity.
  exists (Wire.frameLayout t id payload). split; [|split].
  - apply newMessage_layout; [done|lia].
  - rewrite <- (app_nil_r (Wire.frameLayout t id payload)).
    apply DecodeHeader_frameLayout; [done|lia].
  - intros cap. rewrite <- (app_nil_r (Wire.frameLayout t id payload)).
    by apply ReadPayload_frame.
Qed.

(** The round trip of a request frame with id [demo_id] and payload "test". *)
Lemma frame_roundtrip_witness :
  exists frame,
    Wire.newMessage Const.payloadTypeRequest (replicate 16 x2a) [x74; x65; x73; x74]
    = Ok frame /\
    Wire.DecodeHeader frame
    = Ok (Wire.mkHeader Const.MagicByte Const.payloadTypeRequest (replicate 16 x2a) 4) /\
    forall cap,
      Stash.ReadPayload (Stash.mkStash frame cap)
      = (Ok (replicate 16 x2a, Const.payloadTypeRequest, [x74; x65; x73; x74]),
         Stash.mkStash [] cap).
Proof.
  apply (frame_roundtrip Const.payloadTypeRequest (replicate 16 x2a) [x74; x65; x73; x74]).
  - reflexivity.
  - vm_compute. discriminate.
Defined.

(** C4: when the stash begins with a header that [DecodeHeader] accepts and
    whose size field exceeds MAX_MESSAGE_PAYLOAD, [ReadPayload] reports
    [ErrInvalidPayloadSize] and consumes exactly the 23 header bytes: the
    stash afterwards is the old content without its first 23 bytes, all
    following bytes unchanged, and the capacity is unchanged. *)
Theorem ReadPayload_oversized (s : Stash.stash) (h : Wire.Header) :
  Wire.DecodeHeader (Stash.buf s) = Ok h ->
  Wire.Size h > Const.MAX_MESSAGE_PAYLOAD ->
  exists hdr rest,
    Stash.buf s = hdr ++ rest /\
    Bytes.len hdr = Const.HeaderLen /\
    Stash.ReadPayload s = (Err ErrInvalidPayloadSize, Stash.mkStash rest (Stash.capacity s)).
Proof.
  intros Hdec Hsz.
  pose proof (DecodeHeader_Ok_inv _ _ Hdec) as (Hlen & _ & _).
  exists (take 23 (Stash.buf s)), (drop 23 (Stash.buf s)).
  split; [by rewrite take_drop|]. split.
  - unfold Bytes.len, Const.HeaderLen in *. rewrite length_take. lia.
  - by apply (ReadPayload_drops_header s h).
Qed.

(** A header with size field 0xffffffff followed by three more bytes. *)
Lemma ReadPayload_oversized_witness :
  exists hdr rest,
    [x56; x01] ++ replicate 16 x00 ++ [xff; xff; xff; xff; x57; x56; x01; x02]
    = hdr ++ rest /\
    Bytes.len hdr = Const.HeaderLen /\
    Stash.ReadPayload
      (Stash.mkStash
         ([x56; x01] ++ replicate 16 x00 ++ [xff; xff; xff; xff; x57; x56; x01; x02])
         64)
    = (Err ErrInvalidPayloadSize, Stash.mkStash rest 64).
Proof.
  apply (ReadPayload_oversized
           (Stash.mkStash
              ([x56; x01] ++ replicate 16 x00 ++ [xff; xff; xff; xff; x57; x56; x01; x02])
              64)
           (Wire.mkHeader x56 x01 (replicate 16 x00) 4294967295)).
  - vm_compute. reflexivity.
  - vm_compute. reflexivity.
Defined.

(** The stash invariant, where it holds: a write of at most [capacity]
    bytes into a stash within its capacity leaves it within its capacity,
    and on overflow exactly the oldest overflow bytes are dropped. *)
Lemma Write_within_capacity (s : Stash.stash) (data : list byte) :
  Bytes.len (Stash.buf s) <= Stash.capacity s ->
  Bytes.len data <= Stash.capacity s ->
  Bytes.len (Stash.buf (Stash.Write s data).1) <= Stash.capacity s /\
  Stash.buf (Stash.Write s data).1
  = drop (Z.to_nat (Z.max 0 (Bytes.len (Stash.buf s) + Bytes.len data - Stash.capacity s)))
         (Stash.buf s) ++ data.
Proof.
  intros Hs Hd. unfold Stash.Write, Stash.Next. cbn [fst snd Stash.buf].
  pose proof (len_nonneg data). pose proof (len_nonneg (Stash.buf s)).
  destruct (Z.gtb_spec (Bytes.len (Stash.buf s) + Bytes.len data) (Stash.capacity s)).
  - rewrite Z.max_r by lia. split; [|done].
    rewrite len_app. unfold Bytes.len in *. rewrite length_drop. lia.
  - rewrite Z.max_l by lia. cbn [Z.to_nat drop]. rewrite skipn_O.
    split; [|done]. rewrite len_app. lia.
Qed.

(** Hence the invariant holds along every sequence of writes none of which
    is longer than the capacity. *)
Lemma Writes_within_capacity (writes : list (list byte)) :
  forall s : Stash.stash,
    Bytes.len (Stash.buf s) <= Stash.capacity s ->
    Forall (fun data => Bytes.len data <= Stash.capacity s) writes ->
    Bytes.len (Stash.buf (fold_left (fun s data => (Stash.Write s data).1) writes s))
    <= Stash.capacity s.
Proof.
  induction writes as [|data writes IH]; intros s Hs Hw; cbn [fold_left]; [done|].
  apply Forall_cons in Hw as [Hd Hw].
  destruct (Write_within_capacity s data Hs Hd) as [Hs' _].
  specialize (IH (Stash.Write s data).1). cbn [Stash.Write Stash.capacity fst] in IH.
  apply IH; [exact Hs'|exact Hw].
Qed.

(** C8: a single write longer than the capacity leaves more bytes in the
    stash than its capacity: [Write] of 5 bytes into an empty stash of
    capacity 4 buffers all 5 bytes. *)
Theorem Write_exceeds_capacity :
  Bytes.len (Stash.buf (Stash.Write (Stash.newStash 4) [x01; x02; x03; x04; x05]).1) = 5 /\
  Stash.capacity (Stash.Write (Stash.newStash 4) [x01; x02; x03; x04; x05]).1 = 4.
Proof. split; reflexivity. Qed.

(** ** Payload validator *)

Section ValidatorFacts.
Import Bytes Keychain.

Lemma int32_range (z : Z) : - 2 ^ 31 <= int32 z < 2 ^ 31.
Proof.
  unfold int32. pose proof (Z.mod_pos_bound z (2 ^ 32) ltac:(lia)).
  destruct (Z.ltb_spec (z mod 2 ^ 32) (2 ^ 31)); lia.
Qed.

(** What an accepted payload looks like, by kind. *)
Lemma Decode_Ok_inv (raw : list byte) (kind : SIGN_KIND) (level round : Z) (sb : list byte) :
  DecodeAndValidateSignPayload raw = Ok (kind, level, round, sb) ->
  sb = raw /\ 0 <= level < 2 ^ 31 /\ 0 <= round < 2 ^ 31 /\
  match kind with
  | BLOCK =>
      at_ raw 0 = x11 /\
      level = int32 (BigEndian_Uint32 (from raw 5)) /\
      0 <= int32 (BigEndian_Uint32 (from raw fitness_off)) /\
      fitness_off + 4 <= len raw /\
      fitness_off + int32 (BigEndian_Uint32 (from raw fitness_off)) + 4 <= len raw /\
      round = int32 (BigEndian_Uint32
                       (from raw (fitness_off + int32 (BigEndian_Uint32 (from raw fitness_off)))))
  | PREATTESTATION =>
      at_ raw 0 = x12 /\ 46 <= len raw /\
      level = int32 (BigEndian_Uint32 (from raw 38)) /\
      round = int32 (BigEndian_Uint32 (from raw 42))
  | ATTESTATION =>
      at_ raw 0 = x13 /\ 46 <= len raw /\
      level = int32 (BigEndian_Uint32 (from raw 38)) /\
      round = int32 (BigEndian_Uint32 (from raw 42))
  | UNSPECIFIED => False
  end.
Proof.
  intros H. unfold DecodeAndValidateSignPayload in H.
  destruct (len raw <? 1); [done|].
  destruct (at_ raw 0) eqn:E; try discriminate H; cbv zeta in H;
    repeat match type of H with
           | context [if ?c then _ else _] => destruct c eqn:?; try discriminate H
           end;
    injection H as <- <- <- <-;
    repeat match goal with
           | H : (_ <? _) = false |- _ => apply Z.ltb_ge in H
           | H : (_ >? _) = false |- _ => rewrite Z.gtb_ltb in H; apply Z.ltb_ge in H
           end;
    repeat match goal with
           | H : context [int32 ?x] |- _ =>
               lazymatch goal with
               | _ : - 2 ^ 31 <= int32 x < 2 ^ 31 |- _ => fail
               | _ => pose proof (int32_range x)
               end
           end;
    unfold fitness_off;
    repeat split; try reflexivity; try lia; try done.
Qed.

End ValidatorFacts.

(** C3, as the code has it: every block payload (tag 0x11) the validator
    accepts is at least [fitness_off + 4] = 87 bytes long and at least
    [fitness_off + fitness_len + 4] bytes long, where [fitness_len] is the
    non-negative int32 read at [fitness_off]; the round is read at
    [fitness_off + fitness_len]. *)
Theorem block_payload_min_length (raw : list byte) (level round : Z) (sb : list byte) :
  Keychain.DecodeAndValidateSignPayload raw = Ok (Keychain.BLOCK, level, round, sb) ->
  Keychain.fitness_off + 4 <= Bytes.len raw /\
  0 <= Bytes.int32 (Bytes.BigEndian_Uint32 (Keychain.from raw Keychain.fitness_off)) /\
  Keychain.fitness_off
  + Bytes.int32 (Bytes.BigEndian_Uint32 (Keychain.from raw Keychain.fitness_off)) + 4
  <= Bytes.len raw /\
  round = Bytes.int32 (Bytes.BigEndian_Uint32
            (Keychain.from raw
               (Keychain.fitness_off
                + Bytes.int32 (Bytes.BigEndian_Uint32 (Keychain.from raw Keychain.fitness_off))))).
Proof.
  intros H. apply Decode_Ok_inv in H as (_ & _ & _ & _ & _ & ? & ? & ? & ?).
  done.
Qed.

(** C3, counterexample: the 87-byte payload made of the tag 0x11 and 86
    zero bytes is accepted as a block at level 0 and round 0, though it is
    shorter than [fitness_off + 8] = 91 bytes. *)
Lemma block_payload_87_accepted :
  Keychain.DecodeAndValidateSignPayload (x11 :: replicate 86 x00)
  = Ok (Keychain.BLOCK, 0, 0, x11 :: replicate 86 x00) /\
  Bytes.len (x11 :: replicate 86 x00) < Keychain.fitness_off + 8.
Proof. split; vm_compute; reflexivity. Qed.

(** The block payload of the repository's verification program: 198 bytes,
    fitness length 33, level 10513876, round 0. *)
Lemma block_payload_min_length_witness :
  Keychain.fitness_off + 4 <= Bytes.len Keychain.test_block /\
  0 <= Bytes.int32 (Bytes.BigEndian_Uint32
                      (Keychain.from Keychain.test_block Keychain.fitness_off)) /\
  Keychain.fitness_off
  + Bytes.int32 (Bytes.BigEndian_Uint32
                   (Keychain.from Keychain.test_block Keychain.fitness_off)) + 4
  <= Bytes.len Keychain.test_block /\
  0 = Bytes.int32 (Bytes.BigEndian_Uint32
        (Keychain.from Keychain.test_block
           (Keychain.fitness_off
            + Bytes.int32 (Bytes.BigEndian_Uint32
                             (Keychain.from Keychain.test_block Keychain.fitness_off))))).
Proof.
  apply (block_payload_min_length Keychain.test_block 10513876 0 Keychain.test_block).
  vm_compute. reflexivity.
Defined.

(** ** Keychain watermark *)

Section KeychainFacts.
Import Bytes Keychain.
Variable bls_sign : Z -> list byte -> list byte.

Ltac lex_solve :=
  unfold lex_lt, lex_le, lex_ltb in *;
  repeat match goal with p : (Z * Z)%type |- _ => destruct p end;
  cbn [fst snd] in *;
  repeat match goal with
         | H : context [?a <? ?b] |- _ => destruct (Z.ltb_spec a b)
         | |- context [?a <? ?b] => destruct (Z.ltb_spec a b)
         | H : context [?a =? ?b] |- _ => destruct (Z.eqb_spec a b)
         | |- context [?a =? ?b] => destruct (Z.eqb_spec a b)
         end;
  cbn [orb andb] in *; try done; try lia.

Lemma lex_lt_trans (a b c : Z * Z) : lex_lt a b -> lex_lt b c -> lex_lt a c.
Proof. intros. lex_solve. Qed.

Lemma watermark_of_set_same (k : SIGN_KIND) (w : Z * Z) (e : KeyEntry) :
  k <> UNSPECIFIED -> watermark_of k (set_watermark k w e) = w.
Proof. by destruct k. Qed.

Lemma watermark_of_set_other (k k' : SIGN_KIND) (w : Z * Z) (e : KeyEntry) :
  k <> k' -> watermark_of k (set_watermark k' w e) = watermark_of k e.
Proof. by destruct k, k'. Qed.

Lemma Decode_kind_specified (raw : list byte) (kind : SIGN_KIND) (level round : Z)
    (sb : list byte) :
  DecodeAndValidateSignPayload raw = Ok (kind, level, round, sb) -> kind <> UNSPECIFIED.
Proof. intros H ->. by apply Decode_Ok_inv in H as (_ & _ & _ & ?). Qed.

(** The two ways a [sign_entry] ends. *)
Lemma sign_entry_cases (e : KeyEntry) (payload : list byte) (store_ok : bool) :
  (exists kind level round sb,
      DecodeAndValidateSignPayload payload = Ok (kind, level, round, sb) /\
      lock e = UNLOCKED /\
      lex_lt (watermark_of kind e) (level, round) /\
      sign_entry bls_sign e payload store_ok
      = (Ok (bls_sign (secret e) sb), set_watermark kind (level, round) e))
  \/ (exists err e',
        sign_entry bls_sign e payload store_ok = (Err err, e') /\
        forall k, watermark_of k e' = watermark_of k e).
Proof.
  unfold sign_entry.
  destruct (DecodeAndValidateSignPayload payload) as [[[[kind level] round] sb]|err] eqn:Hd;
    [|right; eauto].
  destruct (lock e) eqn:Hl; [|right; eauto..].
  destruct (lex_ltb (watermark_of kind e) (level, round)) eqn:Hw; [|right; eauto].
  destruct store_ok.
  - left. exists kind, level, round, sb. repeat split; try done.
    by destruct kind.
  - right. eexists _, _. split; [done|]. by intros [].
Qed.

Lemma lock_key_watermark (k : SIGN_KIND) (e : KeyEntry) :
  watermark_of k (lock_key e) = watermark_of k e.
Proof. unfold lock_key. by destruct (lock e), k. Qed.

Lemma unlock_key_watermark (ok : bool) (k : SIGN_KIND) (e : KeyEntry) :
  watermark_of k (unlock_key ok e) = watermark_of k e.
Proof. unfold unlock_key. by destruct (lock e), ok, k. Qed.

(** Every later successful sign of a key and kind lies strictly above the
    watermark stored now, and the later signs are strictly increasing. *)
Lemma run_above_watermark (alias : string) (kind : SIGN_KIND) (ops : list op) :
  forall kc : gmap string KeyEntry,
    StronglySorted lex_lt (signed_at alias kind (run bls_sign kc ops).1) /\
    forall e, kc !! alias = Some e ->
              Forall (lex_lt (watermark_of kind e))
                     (signed_at alias kind (run bls_sign kc ops).1).
Proof.
  induction ops as [|o ops IH]; intros kc.
  { split; [constructor|]. intros. constructor. }
  destruct o as [a payload st | a | a ok]; cbn [run].
  - (* sign *)
    unfold sign.
    destruct (kc !! a) as [e0|] eqn:Hkc.
    + destruct (sign_entry_cases e0 payload st)
        as [(k & level & round & sb & Hd & Hl & Hw & Hs) | (err & e' & Hs & Hwm)];
        rewrite Hs.
      * destruct (IH (<[a := set_watermark k (level, round) e0]> kc)) as [IH1 IH2].
        destruct (run bls_sign _ ops) as [log kc''] eqn:Hrun.
        unfold kind_at. rewrite Hd. cbn [fst] in *.
        unfold signed_at in *. rewrite filter_cons. cbn [s_alias s_kind].
        destruct (decide (a = alias /\ k = kind)) as [[-> ->]|Hne].
        -- rewrite fmap_cons. cbn [s_at].
           specialize (IH2 _ (lookup_insert_eq _ _ _)).
           rewrite watermark_of_set_same in IH2 by eauto using Decode_kind_specified.
           split.
           ++ by constructor.
           ++ intros e He. assert (e = e0) as -> by congruence.
              constructor; [done|].
              eapply Forall_impl; [exact IH2|].
              intros x Hx. by eapply lex_lt_trans.
        -- split; [done|]. intros e He.
           destruct (decide (a = alias)) as [->|Ha].
           ++ assert (e = e0) as -> by congruence.
              specialize (IH2 _ (lookup_insert_eq _ _ _)).
              rewrite watermark_of_set_other in IH2 by (intros <-; by apply Hne). done.
           ++ apply IH2. by rewrite lookup_insert_ne.
      * destruct (IH (<[a := e']> kc)) as [IH1 IH2].
        destruct (run bls_sign _ ops) as [log kc''] eqn:Hrun.
        cbn [fst] in *.
        assert (Hgoal : StronglySorted lex_lt (signed_at alias kind log) /\
                        forall e, kc !! alias = Some e ->
                                  Forall (lex_lt (watermark_of kind e)) (signed_at alias kind log)).
        { split; [done|]. intros e He.
          destruct (decide (a = alias)) as [->|Ha].
          - assert (e = e0) as -> by congruence.
            specialize (IH2 _ (lookup_insert_eq _ _ _)). by rewrite Hwm in IH2.
          - apply IH2. by rewrite lookup_insert_ne. }
        by destruct (kind_at payload) as [[? ?]|].
    + specialize (IH kc).
      destruct (run bls_sign kc ops) as [log kc''] eqn:Hrun.
      by destruct (kind_at payload) as [[? ?]|].
  - (* lock *)
    destruct (IH (alter lock_key a kc)) as [IH1 IH2]. split; [done|].
    intros e He. destruct (decide (a = alias)) as [->|Ha].
    + specialize (IH2 (lock_key e)). rewrite lookup_alter_eq, He in IH2.
      rewrite lock_key_watermark in IH2. by apply IH2.
    + apply IH2. by rewrite lookup_alter_ne.
  - (* unlock *)
    destruct (IH (alter (unlock_key ok) a kc)) as [IH1 IH2]. split; [done|].
    intros e He. destruct (decide (a = alias)) as [->|Ha].
    + specialize (IH2 (unlock_key ok e)). rewrite lookup_alter_eq, He in IH2.
      rewrite unlock_key_watermark in IH2. by apply IH2.
    + apply IH2. by rewrite lookup_alter_ne.
Qed.

(** A sign at or below the stored watermark is refused and changes nothing. *)
Lemma sign_stale (kc : gmap string KeyEntry) (alias : string) (e : KeyEntry)
    (payload : list byte) (kind : SIGN_KIND) (level round : Z) (sb : list byte)
    (store_ok : bool) :
  kc !! alias = Some e ->
  DecodeAndValidateSignPayload payload = Ok (kind, level, round, sb) ->
  lex_le (level, round) (watermark_of kind e) ->
  exists err,
    sign bls_sign kc alias payload store_ok = (Err err, kc) /\
    (lock e = UNLOCKED -> err = ErrStaleWatermark).
Proof.
  intros Hkc Hd Hle. unfold sign, sign_entry. rewrite Hkc, Hd.
  unfold lex_le in Hle. rewrite Hle.
  destruct (lock e); eexists; (split; [by rewrite insert_id|]); done.
Qed.

End KeychainFacts.

(** C1: for every key alias and every operation kind, the [(level, round)]
    pairs of the successful signs, in the order they occur, are strictly
    increasing in lexicographic order, whatever operations (signs, locks,
    unlocks) are issued and from whatever keychain state; and a sign whose
    [(level, round)] is equal to or below the stored watermark of its kind
    produces no signature and leaves the keychain unchanged, failing with
    [ErrStaleWatermark] when the key is unlocked (a key that is not
    unlocked fails the earlier lock check). *)
Theorem watermark_strictly_increasing (bls_sign : Z -> list byte -> list byte) :
  (forall (kc : gmap string Keychain.KeyEntry) (ops : list Keychain.op)
          (alias : string) (kind : Keychain.SIGN_KIND),
      StronglySorted Keychain.lex_lt
        (Keychain.signed_at alias kind (Keychain.run bls_sign kc ops).1)) /\
  (forall (kc : gmap string Keychain.KeyEntry) (alias : string) (e : Keychain.KeyEntry)
          (payload : list byte) (kind : Keychain.SIGN_KIND) (level round : Z)
          (sb : list byte) (store_ok : bool),
      kc !! alias = Some e ->
      Keychain.DecodeAndValidateSignPayload payload = Ok (kind, level, round, sb) ->
      Keychain.lex_le (level, round) (Keychain.watermark_of kind e) ->
      exists err,
        Keychain.sign bls_sign kc alias payload store_ok = (Err err, kc) /\
        (Keychain.lock e = Keychain.UNLOCKED -> err = Keychain.ErrStaleWatermark)).
Proof.
  split.
  - intros kc ops alias kind. apply run_above_watermark.
  - intros. by eapply sign_stale.
Qed.

(** The watermark scenario of the spec: with the block watermark at
    [(100, 2)], signs at [(100, 2)] and [(99, 9)] are stale, signs at
    [(100, 3)] and then [(101, 0)] succeed. *)
Example watermark_scenario :
  let kc : gmap string Keychain.KeyEntry := {[ "k"%string := Keychain.scenario_key ]} in
  let sgn := fun (_ : Z) (m : list byte) => m in
  (Keychain.sign sgn kc "k" (Keychain.buildBlockPayload 100 2) true).1
  = Err Keychain.ErrStaleWatermark /\
  (Keychain.sign sgn kc "k" (Keychain.buildBlockPayload 99 9) true).1
  = Err Keychain.ErrStaleWatermark /\
  Keychain.signed_at "k" Keychain.BLOCK
    (Keychain.run sgn kc
       [Keychain.OpSign "k" (Keychain.buildBlockPayload 100 2) true;
        Keychain.OpSign "k" (Keychain.buildBlockPayload 100 3) true;
        Keychain.OpSign "k" (Keychain.buildBlockPayload 99 9) true;
        Keychain.OpSign "k" (Keychain.buildBlockPayload 101 0) true;
        Keychain.OpSign "k" (Keychain.buildBlockPayload 101 0) true]).1
  = [(100, 3); (101, 0)].
Proof. vm_compute. done. Qed.

(** A block sign at [(100, 2)] against the watermark [(100, 2)]. *)
Lemma watermark_strictly_increasing_witness :
  exists err,
    Keychain.sign (fun _ m => m) {[ "k"%string := Keychain.scenario_key ]} "k"
      (Keychain.buildBlockPayload 100 2) true
    = (Err err, {[ "k"%string := Keychain.scenario_key ]}) /\
    (Keychain.lock Keychain.scenario_key = Keychain.UNLOCKED -> err = Keychain.ErrStaleWatermark).
Proof.
  apply (proj2 (watermark_strictly_increasing (fun _ m => m))
           {[ "k"%string := Keychain.scenario_key ]} "k"%string Keychain.scenario_key
           (Keychain.buildBlockPayload 100 2) Keychain.BLOCK 100 2
           (Keychain.buildBlockPayload 100 2) true).
  - apply lookup_singleton_eq.
  - vm_compute. reflexivity.
  - vm_compute. reflexivity.
Defined.

(** ** SHA-256 and Base58Check *)

(** FIPS 180-4 test vector: SHA-256 of "abc". *)
Example Sum256_abc :
  Some (SHA256.Sum256 (String.list_byte_of_string "abc"))
  = Hex.DecodeString "ba7816bf8f01cfea414140de5dae2223b00361a396177a9cb410ff61f20015ad".
Proof. vm_compute. reflexivity. Qed.

(** The first and last round constants and the first initial hash word. *)
Example K_ends : nth 0 SHA256.K 0 = 0x428a2f98 /\ nth 63 SHA256.K 0 = 0xc67178f2
                 /\ SHA256.ha SHA256.init = 0x6a09e667.
Proof. vm_compute. done. Qed.

Section SignerFacts.
Import Bytes Signer.

Lemma Sum256_length (msg : list byte) : length (SHA256.Sum256 msg) = 32%nat.
Proof. reflexivity. Qed.

Lemma prefix_matches_split (prefix decoded : list byte) :
  prefix_matches decoded prefix = true ->
  decoded = prefix ++ drop (length prefix) decoded.
Proof.
  revert decoded. induction prefix as [|p prefix IH]; intros decoded H.
  - done.
  - destruct decoded as [|d decoded]; [done|]. cbn [prefix_matches] in H.
    apply andb_true_iff in H as [Hd Hrest]. apply eqb_eq in Hd as ->.
    cbn [length drop skipn app]. f_equal. by apply IH.
Qed.

Lemma checksum_matches_eq (check exp : list byte) :
  length check = 4%nat -> length exp = 4%nat ->
  checksum_matches check exp = true -> check = exp.
Proof.
  intros Hc He H.
  do 5 (destruct check as [|? check]; try discriminate Hc).
  do 5 (destruct exp as [|? exp]; try discriminate He).
  unfold checksum_matches, at_ in H. cbn [forallb nth] in H.
  repeat (apply andb_true_iff in H as [?%eqb_eq H]). by subst.
Qed.

(** What a successful [b58CheckDecode] says about the decoded bytes. *)
Lemma b58CheckDecode_Ok (prefix : list byte) (s : string) (payload : list byte) :
  b58CheckDecode prefix s = Ok payload ->
  Base58.Decode s
  = Some (prefix ++ payload ++ take 4 (doubleSHA256 (prefix ++ payload))).
Proof.
  unfold b58CheckDecode. destruct (Base58.Decode s) as [decoded|]; [|done].
  destruct (Z.ltb_spec (len decoded) (len prefix + 4)) as [|Hlen]; [done|].
  destruct (prefix_matches decoded prefix) eqn:Hp; [|done]. cbn [negb].
  destruct (checksum_matches _ _) eqn:Hc; [|done]. cbn [negb].
  intros [= <-]. f_equal.
  apply prefix_matches_split in Hp.
  set (rest := drop (length prefix) decoded) in *.
  assert (Hrest : len decoded = len prefix + len rest).
  { rewrite Hp at 1. apply len_app. }
  unfold slice in *. unfold len in *.
  replace (Z.to_nat (Z.of_nat (length prefix))) with (length prefix) in * by lia.
  fold rest in Hc |- *.
  replace (Z.to_nat (Z.of_nat (length decoded) - 4 - Z.of_nat (length prefix)))
    with (length rest - 4)%nat in * by lia.
  replace (Z.to_nat (Z.of_nat (length decoded) - (Z.of_nat (length decoded) - 4)))
    with 4%nat in Hc by lia.
  replace (Z.to_nat (Z.of_nat (length decoded) - 4))
    with (length prefix + (length rest - 4))%nat in Hc by lia.
  assert (Hr4 : (4 <= length rest)%nat) by lia.
  clearbody rest. subst decoded. clear Hrest Hlen.
  rewrite drop_app_add in Hc.
  apply checksum_matches_eq in Hc.
  - f_equal. rewrite <- Hc.
    rewrite (firstn_all2 (drop _ _)) by (rewrite length_drop; lia).
    by rewrite take_drop.
  - rewrite length_take, length_drop. lia.
  - rewrite length_take. unfold doubleSHA256. rewrite Sum256_length. lia.
Qed.

(** What a successful [ImportBLSecretKey] says about the decoded bytes:
    the prefix, 32 payload bytes that are a valid scalar, and four more
    bytes, on which there is no condition. *)
Lemma ImportBLSecretKey_Ok (s : string) (sk : Z) :
  ImportBLSecretKey s = Ok sk ->
  exists le check,
    Base58.Decode s = Some (pfxBLSecretKey ++ le ++ check) /\
    length le = 32%nat /\ length check = 4%nat /\ FromLEndian le = Some sk.
Proof.
  unfold ImportBLSecretKey. destruct (Base58.Decode s) as [raw|]; [|done].
  destruct (Z.ltb_spec (len raw) (4 + len pfxBLSecretKey)) as [|Hlen]; [done|].
  destruct (prefix_matches raw pfxBLSecretKey) eqn:Hp; [|done]. cbn [negb].
  destruct (Z.eqb_spec (len (slice raw (len pfxBLSecretKey) (len raw - 4))) 32)
    as [H32|]; [|done]. cbn [negb].
  destruct (FromLEndian _) as [x|] eqn:Hsk; [|done]. intros [= <-].
  apply prefix_matches_split in Hp.
  set (rest := drop (length pfxBLSecretKey) raw) in *.
  assert (Hrest : len raw = len pfxBLSecretKey + len rest).
  { rewrite Hp at 1. apply len_app. }
  unfold slice in *. change (len pfxBLSecretKey) with 4 in *.
  change (Z.to_nat 4) with (length pfxBLSecretKey) in *. fold rest in Hsk, H32.
  unfold len in H32, Hrest, Hlen. rewrite length_take in H32.
  exists (take (Z.to_nat (Z.of_nat (length raw) - 4 - 4)) rest),
         (drop (Z.to_nat (Z.of_nat (length raw) - 4 - 4)) rest).
  split; [by rewrite take_drop, <- Hp|].
  split; [rewrite length_take; lia|].
  split; [rewrite length_drop; lia|]. done.
Qed.

End SignerFacts.

(** C5, as the code has it: [b58CheckDecode], and [decodeBlsPubkey] and
    [decodeBlsSig] on top of it, succeed only on a string that decodes to
    the expected prefix, the payload and the first four bytes of the double
    SHA-256 of prefix and payload; [ImportBLSecretKey] succeeds only on a
    string that decodes to the secret-key prefix, 32 bytes of a valid scalar
    and four more bytes, which it does not compare with any checksum. *)
Theorem base58check_decode_enforced (prefix : list byte) (s : string) :
  (forall payload,
      Signer.b58CheckDecode prefix s = Ok payload ->
      Base58.Decode s
      = Some (prefix ++ payload ++ take 4 (Signer.doubleSHA256 (prefix ++ payload)))) /\
  (forall pk,
      Signer.decodeBlsPubkey s = Ok pk ->
      length pk = 48%nat /\
      Base58.Decode s
      = Some (Signer.pfxBLPubkey ++ pk
              ++ take 4 (Signer.doubleSHA256 (Signer.pfxBLPubkey ++ pk)))) /\
  (forall sig,
      Signer.decodeBlsSig s = Ok sig ->
      length sig = 96%nat /\
      Base58.Decode s
      = Some (Signer.pfxBLSignature ++ sig
              ++ take 4 (Signer.doubleSHA256 (Signer.pfxBLSignature ++ sig)))) /\
  (forall sk,
      Signer.ImportBLSecretKey s = Ok sk ->
      exists le check,
        Base58.Decode s = Some (Signer.pfxBLSecretKey ++ le ++ check) /\
        length le = 32%nat /\ length check = 4%nat /\
        Signer.FromLEndian le = Some sk).
Proof.
  split; [|split; [|split]].
  - apply b58CheckDecode_Ok.
  - intros pk. unfold Signer.decodeBlsPubkey.
    destruct (Signer.b58CheckDecode _ s) as [pk'|] eqn:Hd; [|done].
    destruct (Z.eqb_spec (Bytes.len pk') 48) as [H48|]; [|done].
    intros [= <-]. split; [unfold Bytes.len in H48; lia|].
    by apply b58CheckDecode_Ok.
  - intros sig. unfold Signer.decodeBlsSig.
    destruct (Signer.b58CheckDecode _ s) as [sig'|] eqn:Hd; [|done].
    destruct (Z.eqb_spec (Bytes.len sig') 96) as [H96|]; [|done].
    intros [= <-]. split; [unfold Bytes.len in H96; lia|].
    by apply b58CheckDecode_Ok.
  - apply ImportBLSecretKey_Ok.
Qed.

(** The demo public key: prefix, 48 payload bytes and their checksum. *)
Lemma base58check_decode_enforced_witness :
  length (default [] (Hex.DecodeString
    "aad3a478ecee5c5600b33822cf868cdd4f8ea35baa4fd39e5a1a9d16885a39eec322ca53ec5d4169eaa36edf37e4e3a1"))
  = 48%nat /\
  Base58.Decode Signer.demo_BLpk
  = Some (Signer.pfxBLPubkey
          ++ default [] (Hex.DecodeString
    "aad3a478ecee5c5600b33822cf868cdd4f8ea35baa4fd39e5a1a9d16885a39eec322ca53ec5d4169eaa36edf37e4e3a1")
          ++ take 4 (Signer.doubleSHA256
               (Signer.pfxBLPubkey
                ++ default [] (Hex.DecodeString
    "aad3a478ecee5c5600b33822cf868cdd4f8ea35baa4fd39e5a1a9d16885a39eec322ca53ec5d4169eaa36edf37e4e3a1")))).
Proof.
  apply (proj1 (proj2 (base58check_decode_enforced Signer.pfxBLPubkey Signer.demo_BLpk))).
  vm_compute. reflexivity.
Defined.

(** C5, counterexample: the demo secret key with its last character changed
    no longer carries a matching checksum ([b58CheckDecode] rejects it with
    the secret-key prefix), yet [ImportBLSecretKey] returns a secret key for
    it, the same one as for the unchanged string. *)
Lemma import_accepts_bad_checksum :
  Signer.b58CheckDecode Signer.pfxBLSecretKey Signer.tampered_BLsk
  = Err Signer.errBadChecksum /\
  Signer.ImportBLSecretKey Signer.tampered_BLsk
  = Ok 10377530260641617028203596111258795525315262792386489815114507129750658358524 /\
  Signer.ImportBLSecretKey Signer.demo_BLsk
  = Ok 10377530260641617028203596111258795525315262792386489815114507129750658358524 /\
  is_ok (Signer.b58CheckDecode Signer.pfxBLSecretKey Signer.demo_BLsk) = true.
Proof. vm_compute. done. Qed.

(** ** Broker *)

Section BrokerFacts.
Import Bytes Const Wire Broker.

Lemma newMessage_is_ok (t : byte) (id payload : list byte) :
  len payload <= 2 ^ 32 - 1 -> exists frame, newMessage t id payload = Ok frame.
Proof.
  intros Hp. unfold newMessage. pose proof (len_nonneg payload).
  destruct (Z.ltb_spec (len payload) 0); [lia|].
  destruct (Z.gtb_spec (len payload) (2 ^ 32 - 1)); [lia|].
  cbn [orb]. eauto.
Qed.

Lemma newMessage_too_large (t : byte) (id payload : list byte) :
  len payload > 2 ^ 32 - 1 -> newMessage t id payload = Err ErrEncodeHeaderPayloadLarge.
Proof.
  intros Hp. unfold newMessage.
  destruct (Z.gtb_spec (len payload) (2 ^ 32 - 1)); [|lia].
  by rewrite orb_true_r.
Qed.

(** The two ways a [writeFrame] ends: the frame is appended to the write
    channel, or an error is returned and the broker is as before. *)
Lemma writeFrame_cases (pick : write_case) (b : Broker) (cd : bool) (t : byte)
    (id payload : list byte) (r : option broker_error) (b' : Broker) :
  writeFrame pick b cd t id payload = Some (r, b') ->
  (r = None /\ pick = SendFrame /\
   exists frame, newMessage t id payload = Ok frame /\
                 b' = set_writeChan (fun q => q ++ [frame]) b)
  \/ (exists err, r = Some err /\ b' = b).
Proof.
  unfold writeFrame. destruct (newMessage t id payload) as [frame|err].
  - destruct pick.
    + destruct (_ <? _); [|done]. intros [= <- <-]. left. eauto.
    + destruct cd; [|done]. intros [= <- <-]. right. eauto.
    + destruct (ctx_done b); [|done]. intros [= <- <-]. right. eauto.
  - intros [= <- <-]. right. eauto.
Qed.

Lemma writeFrame_send (b : Broker) (cd : bool) (t : byte) (id payload frame : list byte) :
  newMessage t id payload = Ok frame ->
  Z.of_nat (length (writeChan b)) < writeChanCap ->
  writeFrame SendFrame b cd t id payload
  = Some (None, set_writeChan (fun q => q ++ [frame]) b).
Proof.
  intros Hf Hroom. unfold writeFrame. rewrite Hf.
  by destruct (Z.ltb_spec (Z.of_nat (length (writeChan b))) writeChanCap); [|lia].
Qed.

(** *** Retransmission on a retry frame *)

Lemma retransmit_keeps (reqs : list (list byte * list byte)) :
  forall (picks : list write_case) (b b' : Broker),
    retransmit picks b reqs = Some b' ->
    waiters b' = waiters b /\ chans b' = chans b /\ handler b' = handler b /\
    processingRequests b' = processingRequests b /\
    unconfirmedRequests b' = unconfirmedRequests b /\ ctx_done b' = ctx_done b /\
    exists sent, writeChan b' = writeChan b ++ sent.
Proof.
  induction reqs as [|[i p] reqs IH]; intros picks b b' H; cbn [retransmit] in H.
  - revert H. intros [= <-]. repeat split; try done. exists []. by rewrite app_nil_r.
  - destruct picks as [|pick picks]; [done|].
    destruct (writeFrame pick b (ctx_done b) payloadTypeRequest i p) as [[r b1]|] eqn:Hw;
      [|done].
    apply IH in H as (? & ? & ? & ? & ? & ? & sent & Hs).
    apply writeFrame_cases in Hw as [(_ & _ & frame & _ & ->)|(err & _ & ->)].
    + cbn in *. repeat split; try done. exists (frame :: sent).
      by rewrite Hs, <- app_assoc.
    + repeat split; try done. by exists sent.
Qed.

(** When every [select] takes the send case, every unconfirmed request
    whose frame can be encoded is in the write channel afterwards. *)
Lemma retransmit_sends (reqs : list (list byte * list byte)) :
  forall (picks : list write_case) (b b' : Broker),
    Forall (eq SendFrame) picks ->
    retransmit picks b reqs = Some b' ->
    forall i p frame,
      (i, p) ∈ reqs -> newMessage payloadTypeRequest i p = Ok frame ->
      frame ∈ writeChan b'.
Proof.
  induction reqs as [|[i0 p0] reqs IH]; intros picks b b' Hp H i p frame Hin Hf;
    cbn [retransmit] in H.
  - by apply elem_of_nil in Hin.
  - destruct picks as [|pick picks]; [done|].
    apply Forall_cons in Hp as [<- Hp].
    destruct (writeFrame SendFrame b (ctx_done b) payloadTypeRequest i0 p0)
      as [[r b1]|] eqn:Hw; [|done].
    apply elem_of_cons in Hin as [[= -> ->]|Hin].
    + unfold writeFrame in Hw. rewrite Hf in Hw.
      destruct (_ <? _); [|done]. revert Hw. intros [= <- <-].
      apply retransmit_keeps in H as (_ & _ & _ & _ & _ & _ & sent & ->).
      cbn. rewrite <- app_assoc. apply elem_of_app. right. apply elem_of_cons. by left.
    + by eapply IH.
Qed.

(** With room in the write channel for all of them, the retransmission
    with every [select] taking the send case goes through. *)
Lemma retransmit_runs (reqs : list (list byte * list byte)) :
  forall b : Broker,
    Z.of_nat (length (writeChan b)) + Z.of_nat (length reqs) <= writeChanCap ->
    exists b', retransmit (replicate (length reqs) SendFrame) b reqs = Some b'.
Proof.
  induction reqs as [|[i p] reqs IH]; intros b Hroom; cbn [retransmit length replicate].
  - eauto.
  - cbn [length] in Hroom. unfold writeFrame.
    destruct (newMessage payloadTypeRequest i p) as [frame|err].
    + destruct (Z.ltb_spec (Z.of_nat (length (writeChan b))) writeChanCap); [|lia].
      apply IH. cbn. rewrite length_app. cbn. lia.
    + apply IH. lia.
Qed.

Lemma eqb_types :
  Bytes.eqb payloadTypeRequest payloadTypeResponse = false /\
  Bytes.eqb payloadTypeRequest payloadTypeRequest = true /\
  Bytes.eqb payloadTypeRetry payloadTypeResponse = false /\
  Bytes.eqb payloadTypeRetry payloadTypeRequest = false /\
  Bytes.eqb payloadTypeRetry payloadTypeAcceptRequest = false /\
  Bytes.eqb payloadTypeRetry payloadTypeRetry = true /\
  Bytes.eqb payloadTypeResponse payloadTypeResponse = true.
Proof. vm_compute. done. Qed.

Lemma handleWork_retry (picks : list write_case) (b : Broker) (w : work) :
  w_payloadType w = payloadTypeRetry ->
  handleWork picks b w
  = match retransmit picks b (map_to_list (unconfirmedRequests b)) with
    | None => None
    | Some b' => Some (Returned, b')
    end.
Proof.
  intros Ht. unfold handleWork. rewrite Ht.
  destruct eqb_types as (_ & _ & -> & -> & -> & -> & _). done.
Qed.

End BrokerFacts.

Section RequestFacts.
Import Bytes Const Wire Broker.

(** [Request] past its two size checks. *)
Lemma Request_send_unfold (pick : write_case) (b : Broker) (cd : bool)
    (payload id : list byte) (now : Z) :
  len payload <= MAX_MESSAGE_PAYLOAD ->
  Request_send pick b cd payload id now
  = match writeFrame pick (set_unconfirmed (insert id payload) (NewWaiter b id now).2)
            cd payloadTypeRequest id payload with
    | None => None
    | Some (Some err, b') => Some (Failed id err, waiters_Delete b' id)
    | Some (None, b') => Some (Awaiting id (NewWaiter b id now).1, b')
    end.
Proof.
  intros Hp. assert (HM : MAX_MESSAGE_PAYLOAD = 26214400) by reflexivity.
  unfold Request_send.
  destruct (Z.gtb_spec (len payload) (2 ^ 32 - 1)); [lia|].
  destruct (Z.gtb_spec (len payload) MAX_MESSAGE_PAYLOAD); [lia|].
  done.
Qed.

End RequestFacts.

(** C10: when [Request] passes its size checks and [writeFrame] then
    returns an error, [Request] fails with the new id and that error; the
    waiter table has no entry for the id and is otherwise as before, the
    unconfirmed set holds the payload under the id, and write channel,
    processing set, handler and context are as before (the delivery slot
    that was allocated stays behind, unreferenced).  A retry frame handled
    in that state retransmits the request: in every run of [handleWork]
    whose selects take the send case, and there is one when the write
    channel has room, the request frame for the id and payload is in the
    write channel afterwards. *)
Theorem Request_write_failure (pick : Broker.write_case) (b : Broker.Broker)
    (caller_done : bool) (payload id : list byte) (now : Z)
    (id' : list byte) (err : broker_error) (b' : Broker.Broker) :
  Bytes.len payload <= Const.MAX_MESSAGE_PAYLOAD ->
  Broker.Request_send pick b caller_done payload id now = Some (Broker.Failed id' err, b') ->
  id' = id /\
  Broker.waiters b' = delete id (Broker.waiters b) /\
  Broker.unconfirmedRequests b' = <[id := payload]> (Broker.unconfirmedRequests b) /\
  Broker.writeChan b' = Broker.writeChan b /\
  Broker.processingRequests b' = Broker.processingRequests b /\
  Broker.handler b' = Broker.handler b /\
  Broker.ctx_done b' = Broker.ctx_done b /\
  Broker.chans b'
  = <[fresh (dom (Broker.chans b)) := Broker.mkChan None false]> (Broker.chans b) /\
  exists frame,
    Wire.newMessage Const.payloadTypeRequest id payload = Ok frame /\
    forall w, Broker.w_payloadType w = Const.payloadTypeRetry ->
      (forall picks b'',
          Forall (eq Broker.SendFrame) picks ->
          Broker.handleWork picks b' w = Some (Broker.Returned, b'') ->
          frame ∈ Broker.writeChan b'') /\
      (Z.of_nat (length (Broker.writeChan b'))
       + Z.of_nat (size (Broker.unconfirmedRequests b')) <= Broker.writeChanCap ->
       exists b'',
         Broker.handleWork
           (replicate (size (Broker.unconfirmedRequests b')) Broker.SendFrame) b' w
         = Some (Broker.Returned, b'') /\
         frame ∈ Broker.writeChan b'').
Proof.
  intros Hp H.
  assert (HM : Const.MAX_MESSAGE_PAYLOAD = 26214400) by reflexivity.
  rewrite Request_send_unfold in H by done.
  destruct (Broker.writeFrame _ _ _ _ _ _) as [[[e|] b1]|] eqn:Hw; [|done..].
  revert H. intros [= <- <- <-].
  apply writeFrame_cases in Hw as [([=] & _)|(err' & _ & ->)].
  destruct (newMessage_is_ok Const.payloadTypeRequest id payload ltac:(lia))
    as [frame Hframe].
  set (b' := Broker.waiters_Delete _ id).
  split; [done|]. split; [subst b'; cbn; by rewrite delete_insert_eq|].
  do 6 (split; [done|]).
  exists frame. split; [done|]. intros w Hw.
  assert (Hin : (id, payload) ∈ map_to_list (Broker.unconfirmedRequests b')).
  { apply elem_of_map_to_list. cbn. apply lookup_insert_eq. }
  split.
  - intros picks b'' Hpicks Hrun. rewrite handleWork_retry in Hrun by done.
    destruct (Broker.retransmit _ _ _) as [b2|] eqn:Hr; [|done].
    revert Hrun. intros [= <-]. by eapply retransmit_sends.
  - intros Hroom. rewrite handleWork_retry by done.
    destruct (retransmit_runs (map_to_list (Broker.unconfirmedRequests b')) b')
      as [b'' Hr].
    { by rewrite length_map_to_list. }
    rewrite length_map_to_list in Hr. rewrite Hr. exists b''. split; [done|].
    eapply retransmit_sends; [|exact Hr|exact Hin|exact Hframe].
    apply Forall_forall. by intros x [-> _]%elem_of_replicate.
Qed.

(** A [Request] on the idle broker whose caller's context is done and whose
    [select] takes that case. *)
Lemma Request_write_failure_witness :
  Bytes.len Broker.demo_payload <= Const.MAX_MESSAGE_PAYLOAD /\
  Broker.Request_send Broker.CtxDone (Broker.idle_broker Broker.echo) true
    Broker.demo_payload Broker.demo_id 0
  = Some (Broker.Failed Broker.demo_id ErrCtx, Broker.abandoned_broker) /\
  Broker.waiters Broker.abandoned_broker
  = delete Broker.demo_id (Broker.waiters (Broker.idle_broker Broker.echo)) /\
  Broker.unconfirmedRequests Broker.abandoned_broker
  = <[Broker.demo_id := Broker.demo_payload]>
      (Broker.unconfirmedRequests (Broker.idle_broker Broker.echo)).
Proof.
  assert (H1 : Bytes.len Broker.demo_payload <= Const.MAX_MESSAGE_PAYLOAD)
    by (vm_compute; discriminate).
  assert (H2 : Broker.Request_send Broker.CtxDone (Broker.idle_broker Broker.echo) true
                 Broker.demo_payload Broker.demo_id 0
               = Some (Broker.Failed Broker.demo_id ErrCtx, Broker.abandoned_broker))
    by (vm_compute; reflexivity).
  destruct (Request_write_failure _ _ _ _ _ _ _ _ _ H1 H2) as (_ & Hw & Hu & _).
  repeat split; assumption.
Defined.

Lemma len_oversized_payload :
  Bytes.len Broker.oversized_payload = Const.MAX_MESSAGE_PAYLOAD + 1.
Proof.
  unfold Broker.oversized_payload, Bytes.len. rewrite length_replicate.
  apply Z2Nat.id. discriminate.
Qed.

(** C7, as the code has it: [Request] refuses every payload longer than
    MAX_MESSAGE_PAYLOAD (and so every payload longer than 2^32 - 1): it
    returns an error with the zero id and leaves the broker untouched, no
    waiter registered and no frame encoded.  The frame encoder [newMessage]
    refuses exactly the payloads longer than 2^32 - 1, and [writeFrame]
    then returns that error without enqueueing anything. *)
Theorem oversized_payload_refused (payload : list byte) :
  Bytes.len payload > Const.MAX_MESSAGE_PAYLOAD ->
  (forall pick b caller_done id now,
      exists err,
        Broker.Request_send pick b caller_done payload id now
        = Some (Broker.Failed Broker.zero_id err, b)) /\
  (Bytes.len payload > 2 ^ 32 - 1 ->
   forall t id,
     Wire.newMessage t id payload = Err ErrEncodeHeaderPayloadLarge /\
     forall pick b caller_done,
       Broker.writeFrame pick b caller_done t id payload
       = Some (Some ErrEncodeHeaderPayloadLarge, b)) /\
  (Bytes.len payload <= 2 ^ 32 - 1 ->
   forall t id, exists frame, Wire.newMessage t id payload = Ok frame).
Proof.
  intros Hp. split; [|split].
  - intros pick b cd id now. unfold Broker.Request_send.
    destruct (Z.gtb_spec (Bytes.len payload) (2 ^ 32 - 1)); [eauto|].
    destruct (Z.gtb_spec (Bytes.len payload) Const.MAX_MESSAGE_PAYLOAD); [eauto|lia].
  - intros Hbig t id. pose proof (newMessage_too_large t id payload Hbig) as Hn.
    split; [done|]. intros pick b cd. unfold Broker.writeFrame. by rewrite Hn.
  - intros Hsmall t id. by apply newMessage_is_ok.
Qed.

(** A [Request] of MAX_MESSAGE_PAYLOAD + 1 bytes on the idle broker. *)
Lemma oversized_payload_refused_witness :
  Bytes.len Broker.oversized_payload > Const.MAX_MESSAGE_PAYLOAD /\
  exists err,
    Broker.Request_send Broker.SendFrame (Broker.idle_broker Broker.echo) false
      Broker.oversized_payload Broker.demo_id 0
    = Some (Broker.Failed Broker.zero_id err, Broker.idle_broker Broker.echo).
Proof.
  assert (H : Bytes.len Broker.oversized_payload > Const.MAX_MESSAGE_PAYLOAD).
  { rewrite len_oversized_payload. lia. }
  split; [exact H|].
  apply (proj1 (oversized_payload_refused Broker.oversized_payload H)).
Defined.

(** C7, counterexample: the frame encoder encodes a payload of
    MAX_MESSAGE_PAYLOAD + 1 bytes (for any frame type, here a response),
    and [writeFrame] enqueues the frame. *)
Lemma newMessage_accepts_above_max :
  Bytes.len Broker.oversized_payload > Const.MAX_MESSAGE_PAYLOAD /\
  Wire.newMessage Const.payloadTypeResponse Broker.demo_id Broker.oversized_payload
  = Ok (Wire.frameLayout Const.payloadTypeResponse Broker.demo_id Broker.oversized_payload) /\
  Broker.writeFrame Broker.SendFrame (Broker.idle_broker Broker.echo) false
    Const.payloadTypeResponse Broker.demo_id Broker.oversized_payload
  = Some (None,
          Broker.set_writeChan
            (fun q => q ++ [Wire.frameLayout Const.payloadTypeResponse Broker.demo_id
                              Broker.oversized_payload])
            (Broker.idle_broker Broker.echo)).
Proof.
  assert (Hl : Bytes.len Broker.oversized_payload = 26214401)
    by apply len_oversized_payload.
  assert (Hn : Wire.newMessage Const.payloadTypeResponse Broker.demo_id
                 Broker.oversized_payload
               = Ok (Wire.frameLayout Const.payloadTypeResponse Broker.demo_id
                       Broker.oversized_payload)).
  { apply newMessage_layout; [reflexivity|]. rewrite Hl. lia. }
  split; [rewrite Hl; reflexivity|]. split; [exact Hn|].
  apply writeFrame_send; [exact Hn|]. reflexivity.
Qed.

Section WorkerFacts.
Import Bytes Const Wire Broker.

(** A request whose handler panics: the accept frame may have been
    enqueued, the id stays in the processing set, no response frame is
    written, and the panic leaves [handleWork]. *)
Lemma handleWork_panic (picks : list write_case) (b : Broker) (w : work) (h : Handler)
    (e : work_end) (b' : Broker) :
  w_payloadType w = payloadTypeRequest ->
  processingRequests b !! w_id w = None ->
  handler b = Some h ->
  h (w_payload w) = Panics ->
  handleWork picks b w = Some (e, b') ->
  e = Panicked /\
  processingRequests b' = <[w_id w := ()]> (processingRequests b) /\
  (writeChan b' = writeChan b \/
   exists accept,
     newMessage payloadTypeAcceptRequest (w_id w) [] = Ok accept /\
     writeChan b' = writeChan b ++ [accept]) /\
  waiters b' = waiters b /\ chans b' = chans b /\
  unconfirmedRequests b' = unconfirmedRequests b.
Proof.
  intros Ht Hproc Hh Hpanic. unfold handleWork. rewrite Ht.
  destruct eqb_types as (-> & -> & _). rewrite Hproc.
  destruct picks as [|pick1 picks']; [done|].
  destruct (writeFrame pick1 _ _ _ _ _) as [[r b1]|] eqn:Hw; [|done].
  apply writeFrame_cases in Hw as [(_ & _ & frame & Hf & ->)|(err & _ & ->)];
    cbn [handler set_writeChan set_processing]; rewrite Hh, Hpanic;
    intros [= <- <-]; cbn; repeat split; eauto.
Qed.

(** [ReapStale] entry by entry. *)
Lemma ReapStale_fold (m0 : gmap (list byte) waiterEntry) (now ttl : Z)
    (m : gmap (list byte) waiterEntry) :
  forall k,
    (map_fold (fun key entry '(m, reaped) =>
                 if now - createdAt entry >? ttl then (delete key m, reaped + 1)
                 else (m, reaped))
              (m0, 0) m).1 !! k
    = match m !! k with
      | Some e => if now - createdAt e >? ttl then None else m0 !! k
      | None => m0 !! k
      end.
Proof.
  apply (map_fold_weak_ind
           (fun (r : gmap (list byte) waiterEntry * Z) m =>
              forall k, r.1 !! k
                        = match m !! k with
                          | Some e => if now - createdAt e >? ttl then None else m0 !! k
                          | None => m0 !! k
                          end)).
  - intros k. by rewrite lookup_empty.
  - intros i x m' [acc n] Hi IH k. cbn [fst] in *.
    destruct (decide (i = k)) as [->|Hne].
    + rewrite lookup_insert_eq.
      destruct (now - createdAt x >? ttl); cbn [fst].
      * by rewrite lookup_delete_eq.
      * by rewrite IH, Hi.
    + rewrite lookup_insert_ne by done.
      destruct (now - createdAt x >? ttl); cbn [fst].
      * by rewrite lookup_delete_ne, IH.
      * by rewrite IH.
Qed.

Lemma ReapStale_waiters (b : Broker) (now ttl : Z) (id : list byte) :
  waiters (ReapStale b now ttl).2 !! id
  = match waiters b !! id with
    | Some e => if now - createdAt e >? ttl then None else Some e
    | None => None
    end.
Proof.
  unfold ReapStale.
  pose proof (ReapStale_fold (waiters b) now ttl (waiters b) id) as H.
  destruct (map_fold _ _ _) as [m reaped]. cbn in *. rewrite H.
  by destruct (waiters b !! id) as [e|] eqn:He.
Qed.

Lemma ReapStale_keeps (b : Broker) (now ttl : Z) :
  chans (ReapStale b now ttl).2 = chans b /\
  handler (ReapStale b now ttl).2 = handler b /\
  writeChan (ReapStale b now ttl).2 = writeChan b /\
  processingRequests (ReapStale b now ttl).2 = processingRequests b /\
  unconfirmedRequests (ReapStale b now ttl).2 = unconfirmedRequests b /\
  ctx_done (ReapStale b now ttl).2 = ctx_done b.
Proof. unfold ReapStale. by destruct (map_fold _ _ _). Qed.

Lemma ReapStale_count (b : Broker) (now ttl : Z) :
  (ReapStale b now ttl).1
  = Z.of_nat (size (filter (fun kv => now - createdAt kv.2 > ttl) (waiters b))).
Proof.
  unfold ReapStale.
  assert (H : (map_fold (fun key entry '(m, reaped) =>
                 if now - createdAt entry >? ttl then (delete key m, reaped + 1)
                 else (m, reaped))
              (waiters b, 0) (waiters b)).2
              = Z.of_nat (size (filter (fun kv => now - createdAt kv.2 > ttl) (waiters b)))).
  { generalize (waiters b) at 1. intros m0.
    apply (map_fold_weak_ind
             (fun (r : gmap (list byte) waiterEntry * Z) m =>
                r.2 = Z.of_nat (size (filter (fun kv => now - createdAt kv.2 > ttl) m)))).
    - by rewrite map_filter_empty, map_size_empty.
    - intros i x m [acc n] Hi IH. cbn [snd] in *.
      destruct (Z.gtb_spec (now - createdAt x) ttl) as [Hold|Hyoung]; cbn [snd].
      + rewrite map_filter_insert_True by (cbn; lia).
        rewrite map_size_insert_None by (apply map_lookup_filter_None_2; by left).
        lia.
      + rewrite map_filter_insert_not' by (cbn; first [lia | by rewrite Hi]).
        done. }
  by destruct (map_fold _ _ _) as [m reaped].
Qed.

(** The final [select] of [Request] looks at the slot and at the two
    contexts only. *)
Lemma Request_await_ready (pick : await_case) (b1 b2 : Broker) (cd : bool)
    (id : list byte) (c : nat) :
  chans b1 = chans b2 -> ctx_done b1 = ctx_done b2 ->
  (Request_await pick b1 cd id c = None <-> Request_await pick b2 cd id c = None).
Proof.
  intros Hc Hd. unfold Request_await. rewrite Hc, Hd.
  destruct pick; [|by destruct cd|by destruct (ctx_done b2)].
  by destruct (chans b2 !! c) as [[[resp|] []]|].
Qed.

(** A response for an id that has no waiter is dropped. *)
Lemma handleWork_response_dropped (picks : list write_case) (b : Broker) (w : work) :
  w_payloadType w = payloadTypeResponse ->
  waiters b !! w_id w = None ->
  handleWork picks b w = Some (Returned, b).
Proof.
  intros Ht Hw. unfold handleWork, LoadAndDelete. rewrite Ht, Hw.
  by destruct eqb_types as (_ & _ & _ & _ & _ & _ & ->).
Qed.

End WorkerFacts.

(** C6, as the code has it: when the handler panics on a request that is
    not a duplicate, the panic is not recovered: it leaves [handleWork],
    and the worker goroutine, which has no [recover], ends the process.
    Before that the id was marked as processing, where it stays, and the
    accept frame may have been enqueued; no response frame is written, and
    waiters, slots and the unconfirmed set are untouched. *)
Theorem handler_panic_not_recovered (picks : list Broker.write_case) (b : Broker.Broker)
    (w : Broker.work) (h : Broker.Handler) (e : Broker.work_end) (b' : Broker.Broker) :
  Broker.w_payloadType w = Const.payloadTypeRequest ->
  Broker.processingRequests b !! Broker.w_id w = None ->
  Broker.handler b = Some h ->
  h (Broker.w_payload w) = Broker.Panics ->
  Broker.handleWork picks b w = Some (e, b') ->
  e = Broker.Panicked /\
  Broker.worker picks b w = Some Broker.Crashed /\
  Broker.processingRequests b' = <[Broker.w_id w := ()]> (Broker.processingRequests b) /\
  (Broker.writeChan b' = Broker.writeChan b \/
   exists accept,
     Wire.newMessage Const.payloadTypeAcceptRequest (Broker.w_id w) [] = Ok accept /\
     Broker.writeChan b' = Broker.writeChan b ++ [accept]) /\
  Broker.waiters b' = Broker.waiters b /\ Broker.chans b' = Broker.chans b /\
  Broker.unconfirmedRequests b' = Broker.unconfirmedRequests b.
Proof.
  intros Ht Hproc Hh Hpanic Hrun.
  destruct (handleWork_panic _ _ _ _ _ _ Ht Hproc Hh Hpanic Hrun)
    as (-> & Hp & Hw & Hrest).
  split; [done|]. split; [|done].
  unfold Broker.worker. by rewrite Hrun.
Qed.

(** A request frame handled by a broker whose handler panics. *)
Lemma handler_panic_not_recovered_witness :
  Broker.handleWork [Broker.SendFrame] (Broker.idle_broker Broker.panicking)
    Broker.demo_request
  = Some (Broker.Panicked,
          Broker.mkBroker ∅ ∅ (Some Broker.panicking)
            [Wire.frameLayout Const.payloadTypeAcceptRequest Broker.demo_id []]
            {[ Broker.demo_id := () ]} ∅ false) /\
  Broker.worker [Broker.SendFrame] (Broker.idle_broker Broker.panicking)
    Broker.demo_request
  = Some Broker.Crashed.
Proof.
  assert (H : Broker.handleWork [Broker.SendFrame] (Broker.idle_broker Broker.panicking)
                Broker.demo_request
              = Some (Broker.Panicked,
                      Broker.mkBroker ∅ ∅ (Some Broker.panicking)
                        [Wire.frameLayout Const.payloadTypeAcceptRequest Broker.demo_id []]
                        {[ Broker.demo_id := () ]} ∅ false))
    by (vm_compute; reflexivity).
  split; [exact H|].
  apply (handler_panic_not_recovered [Broker.SendFrame]
           (Broker.idle_broker Broker.panicking) Broker.demo_request Broker.panicking
           Broker.Panicked _ eq_refl eq_refl eq_refl eq_refl H).
Defined.

(** C6, counterexample: a broker whose handler panics receives a request
    frame.  Whatever the selects pick, [handleWork] does not return: when
    it ends, it ends by the panic, the worker's process has crashed, and
    the write channel holds at most the accept frame, never a response
    frame for the request. *)
Lemma handler_panic_crashes_worker :
  Broker.worker [Broker.SendFrame] (Broker.idle_broker Broker.panicking)
    Broker.demo_request
  = Some Broker.Crashed /\
  forall picks e b',
    Broker.handleWork picks (Broker.idle_broker Broker.panicking) Broker.demo_request
    = Some (e, b') ->
    e = Broker.Panicked /\
    Broker.worker picks (Broker.idle_broker Broker.panicking) Broker.demo_request
    = Some Broker.Crashed /\
    (Broker.writeChan b' = [] \/
     Broker.writeChan b'
     = [Wire.frameLayout Const.payloadTypeAcceptRequest Broker.demo_id []]).
Proof.
  split; [vm_compute; reflexivity|].
  intros picks e b' Hrun.
  destruct (handleWork_panic picks (Broker.idle_broker Broker.panicking)
              Broker.demo_request Broker.panicking e b'
              eq_refl eq_refl eq_refl eq_refl Hrun)
    as (-> & _ & Hw & _).
  split; [done|]. split; [unfold Broker.worker; by rewrite Hrun|].
  destruct Hw as [Hw|(accept & Ha & Hw)]; [by left|right].
  rewrite Hw. cbn [Broker.writeChan Broker.idle_broker app].
  rewrite newMessage_layout in Ha by (vm_compute; done).
  by injection Ha as <-.
Qed.

(** C9, as the code has it: [ReapStale] removes exactly the entries whose
    age exceeds the TTL and returns their number; it neither closes nor
    fills a delivery slot and touches nothing else.  A case of the final
    [select] of [Request] is ready after the reaping exactly when it was
    ready before, so a caller waiting on a reaped waiter keeps waiting
    until its own context or the broker's is done; and a response that
    arrives for a reaped id is dropped. *)
Theorem ReapStale_removes_old (b : Broker.Broker) (now ttl : Z) :
  (forall id,
      Broker.waiters (Broker.ReapStale b now ttl).2 !! id
      = match Broker.waiters b !! id with
        | Some e => if now - Broker.createdAt e >? ttl then None else Some e
        | None => None
        end) /\
  (Broker.ReapStale b now ttl).1
  = Z.of_nat (size (filter (fun kv => now - Broker.createdAt kv.2 > ttl)
                           (Broker.waiters b))) /\
  Broker.chans (Broker.ReapStale b now ttl).2 = Broker.chans b /\
  Broker.unconfirmedRequests (Broker.ReapStale b now ttl).2 = Broker.unconfirmedRequests b /\
  Broker.writeChan (Broker.ReapStale b now ttl).2 = Broker.writeChan b /\
  (forall pick caller_done id c,
      Broker.Request_await pick (Broker.ReapStale b now ttl).2 caller_done id c = None
      <-> Broker.Request_await pick b caller_done id c = None) /\
  (forall picks w e,
      Broker.waiters b !! Broker.w_id w = Some e ->
      now - Broker.createdAt e > ttl ->
      Broker.w_payloadType w = Const.payloadTypeResponse ->
      Broker.handleWork picks (Broker.ReapStale b now ttl).2 w
      = Some (Broker.Returned, (Broker.ReapStale b now ttl).2)).
Proof.
  destruct (ReapStale_keeps b now ttl) as (Hc & Hh & Hw & Hp & Hu & Hd).
  split; [apply ReapStale_waiters|]. split; [apply ReapStale_count|].
  do 3 (split; [done|]). split.
  - intros. by apply Request_await_ready.
  - intros picks w e He Hold Ht. apply handleWork_response_dropped; [done|].
    rewrite ReapStale_waiters, He.
    by destruct (Z.gtb_spec (now - Broker.createdAt e) ttl); [|lia].
Qed.

(** C9, counterexample: the waiter of [waiting_broker], created at time 0,
    is reaped at time 10 with a TTL of 5.  Afterwards its delivery slot is
    still open and empty, and with neither context done no case of the
    caller's [select] is ready: the caller observes no closed slot and gets
    no error, it keeps blocking. *)
Lemma reaped_waiter_still_blocks :
  (Broker.ReapStale Broker.waiting_broker 10 5).1 = 1 /\
  Broker.waiters (Broker.ReapStale Broker.waiting_broker 10 5).2 !! Broker.demo_id = None /\
  Broker.chans (Broker.ReapStale Broker.waiting_broker 10 5).2 !! 0%nat
  = Some (Broker.mkChan None false) /\
  forall pick,
    Broker.Request_await pick (Broker.ReapStale Broker.waiting_broker 10 5).2 false
      Broker.demo_id 0
    = None.
Proof.
  split; [vm_compute; reflexivity|]. split; [vm_compute; reflexivity|].
  split; [vm_compute; reflexivity|].
  intros pick. destruct pick; vm_compute; reflexivity.
Qed.

(** * Further properties of the code *)

(** ** Header parity *)

Section ParityFacts.
Import Bytes Const Wire.

Lemma to_Z_testbit_high (b : byte) (j : Z) : 8 <= j -> Z.testbit (to_Z b) j = false.
Proof.
  intros Hj. pose proof (to_Z_range b) as Hb.
  rewrite <- (Z.mod_small (to_Z b) 256) by lia. rewrite mod256_testbit.
  by destruct (Z.ltb_spec j 8); [lia|].
Qed.

Lemma to_Z_xor (a b : byte) : to_Z (Bytes.xor a b) = Z.lxor (to_Z a) (to_Z b).
Proof.
  unfold Bytes.xor. rewrite to_Z_of_Z.
  apply Z.bits_inj'. intros j Hj. rewrite mod256_testbit, Z.lxor_spec.
  destruct (Z.ltb_spec j 8); [done|].
  by rewrite !to_Z_testbit_high by lia.
Qed.

Lemma xor_assoc (a b c : byte) :
  Bytes.xor (Bytes.xor a b) c = Bytes.xor a (Bytes.xor b c).
Proof. apply to_Z_inj. rewrite !to_Z_xor. apply Z.lxor_assoc. Qed.

Lemma xor_comm (a b : byte) : Bytes.xor a b = Bytes.xor b a.
Proof. apply to_Z_inj. rewrite !to_Z_xor. apply Z.lxor_comm. Qed.

Lemma xor_zero_l (a : byte) : Bytes.xor x00 a = a.
Proof. apply to_Z_inj. rewrite to_Z_xor. apply Z.lxor_0_l. Qed.

Lemma xor_cancel_l (a b c : byte) : Bytes.xor a b = Bytes.xor a c -> b = c.
Proof.
  intros H. apply to_Z_inj. apply (f_equal to_Z) in H. rewrite !to_Z_xor in H.
  apply (f_equal (Z.lxor (to_Z a))) in H.
  by rewrite <- !Z.lxor_assoc, Z.lxor_nilpotent, !Z.lxor_0_l in H.
Qed.

(** The parity of a list from an accumulator and from zero. *)
Lemma parity_acc (l : list byte) (acc : byte) :
  fold_left Bytes.xor l acc = Bytes.xor acc (fold_left Bytes.xor l x00).
Proof.
  revert acc. induction l as [|b l IH]; intros acc; cbn [fold_left].
  - by rewrite xor_comm, xor_zero_l.
  - rewrite IH, (IH (Bytes.xor x00 b)), xor_zero_l. apply xor_assoc.
Qed.

(** Two byte strings that differ in one place have different parities. *)
Lemma parity_one_byte (l1 l2 : list byte) (b b' : byte) :
  fold_left Bytes.xor (l1 ++ b :: l2) x00 = fold_left Bytes.xor (l1 ++ b' :: l2) x00 ->
  b = b'.
Proof.
  rewrite !fold_left_app. cbn [fold_left].
  rewrite (parity_acc l2 (Bytes.xor _ b)), (parity_acc l2 (Bytes.xor _ b')).
  rewrite !(xor_comm _ (fold_left Bytes.xor l2 x00)).
  intros H%xor_cancel_l. by apply xor_cancel_l in H.
Qed.

Lemma at_lookup (l : list byte) (i : nat) : at_ l i = default x00 (l !! i).
Proof. unfold at_. apply nth_lookup. Qed.

Lemma DecodeHeader_Ok_iff (src : list byte) :
  is_ok (DecodeHeader src) = true <->
  HeaderLen <= len src /\ at_ src 0 = MagicByte /\
  at_ src 22 = fold_left Bytes.xor (take 22 src) x00.
Proof.
  unfold DecodeHeader.
  destruct (Z.ltb_spec (len src) HeaderLen) as [Hs|Hl];
    [cbn; split; [done | intros (? & _); lia]|].
  assert (H22 : length (take 22 src) = 22%nat).
  { rewrite length_take. unfold len, HeaderLen in Hl. lia. }
  rewrite headerParity_22 by done. cbn [fst].
  destruct (Bytes.eqb (at_ src 0) MagicByte) eqn:Em; cbn [negb].
  - apply eqb_eq in Em.
    destruct (Bytes.eqb (at_ src 22) _) eqn:Ep; cbn [negb is_ok].
    + apply eqb_eq in Ep. naive_solver.
    + split; [done|]. intros (_ & _ & Hp). apply eqb_eq in Hp. congruence.
  - cbn. split; [done|]. intros (_ & Hm%eqb_eq & _). congruence.
Qed.

Lemma DecodeHeader_Err (src : list byte) :
  is_ok (DecodeHeader src) = false ->
  DecodeHeader src
  = Err (if len src <? HeaderLen then ErrInvalidHeaderLength else ErrInvalidHeaderBadMagic).
Proof.
  unfold DecodeHeader. destruct (len src <? HeaderLen); [done|].
  destruct (negb (Bytes.eqb (at_ src 0) MagicByte)); [done|].
  by destruct (negb (Bytes.eqb (at_ src 22) _)).
Qed.

(** A header accepted by [DecodeHeader] is rejected, with
    [ErrInvalidHeaderBadMagic], as soon as one of its 23 bytes is changed:
    the XOR parity detects every change of a single byte. *)
Theorem header_corruption_detected (src : list byte) (i : nat) (b' : byte) :
  is_ok (DecodeHeader src) = true ->
  (i < 23)%nat ->
  b' <> at_ src i ->
  DecodeHeader (<[i := b']> src) = Err ErrInvalidHeaderBadMagic.
Proof.
  intros Hok Hi Hb. apply DecodeHeader_Ok_iff in Hok as (Hlen & Hm & Hp).
  unfold len, HeaderLen in Hlen.
  assert (Hbad : is_ok (DecodeHeader (<[i := b']> src)) = false).
  { apply not_true_is_false. intros (_ & Hm' & Hp')%DecodeHeader_Ok_iff.
    rewrite !at_lookup in *.
    destruct (decide (i = 0%nat)) as [->|Hi0].
    { rewrite list_lookup_insert_eq in Hm' by lia. cbn in Hm'. congruence. }
    rewrite list_lookup_insert_ne in Hm' by done.
    destruct (decide (i = 22%nat)) as [->|Hi22].
    { rewrite list_lookup_insert_eq in Hp' by lia. cbn in Hp'.
      rewrite take_insert_ge in Hp' by lia. congruence. }
    rewrite list_lookup_insert_ne in Hp' by done.
    rewrite take_insert_lt in Hp' by lia.
    assert (Hl : (i < length (take 22 src))%nat) by (rewrite length_take; lia).
    destruct (lookup_lt_is_Some_2 _ _ Hl) as [b Hbi].
    rewrite (insert_take_drop (take 22 src)) in Hp' by done.
    rewrite <- (take_drop_middle (take 22 src) i b) in Hp by done.
    rewrite Hp in Hp'. apply parity_one_byte in Hp'.
    rewrite lookup_take_lt in Hbi by lia. rewrite Hbi in Hb. cbn in Hb. congruence. }
  rewrite (DecodeHeader_Err _ Hbad).
  destruct (Z.ltb_spec (len (<[i := b']> src)) HeaderLen) as [Hs|]; [|done].
  unfold len, HeaderLen in Hs. rewrite length_insert in Hs. lia.
Qed.

End ParityFacts.

(** ** Resynchronisation and the stash drainer *)

Section ResyncFacts.
Import Bytes Const Wire Stash Broker Reader.

Lemma IndexByte_range (s : list byte) (c : byte) :
  IndexByte s c = -1 \/ 0 <= IndexByte s c < len s.
Proof.
  induction s as [|b s IH]; cbn [IndexByte]; [by left|].
  unfold len in *. cbn [length].
  destruct (Bytes.eqb b c); [right; lia|].
  destruct (Z.ltb_spec (IndexByte s c) 0); [by left|right; lia].
Qed.

Lemma IndexByte_absent (s : list byte) (c : byte) :
  Forall (fun b => b <> c) s -> IndexByte s c = -1.
Proof.
  induction 1 as [|b s Hb _ IH]; cbn [IndexByte]; [done|].
  destruct (Bytes.eqb b c) eqn:E; [by apply eqb_eq in E|].
  by rewrite IH.
Qed.

Lemma IndexByte_first (noise rest : list byte) (c : byte) :
  Forall (fun b => b <> c) noise -> IndexByte (noise ++ c :: rest) c = len noise.
Proof.
  induction 1 as [|b s Hb _ IH]; cbn [IndexByte app].
  - by rewrite eqb_refl.
  - destruct (Bytes.eqb b c) eqn:E; [by apply eqb_eq in E|].
    rewrite IH. pose proof (len_nonneg s).
    destruct (Z.ltb_spec (len s) 0); [lia|]. unfold len. cbn [length]. lia.
Qed.

(** [ReadPayload] only consumes: what is left in the stash is a suffix of
    what was there, and the capacity stays. *)
Lemma ReadPayload_suffix (s : stash) :
  (exists k, buf (ReadPayload s).2 = drop k (buf s)) /\
  capacity (ReadPayload s).2 = capacity s.
Proof.
  unfold ReadPayload, Next.
  repeat match goal with
         | |- context [if ?c then _ else _] => destruct c
         | |- context [match ?d with Ok _ => _ | Err _ => _ end] => destruct d
         end;
    cbn [fst snd buf capacity]; rewrite ?drop_drop; (split; [|done]);
    first [by eexists | by exists 0%nat].
Qed.

(** Every result of [ReadPayload] other than "nothing found" and
    "incomplete" shortens the stash. *)
Lemma ReadPayload_progress (s : stash) :
  (ReadPayload s).1 = Err ErrNoPayloadFound \/
  (ReadPayload s).1 = Err ErrIncompletePayload \/
  ((length (buf (ReadPayload s).2) < length (buf s))%nat /\
   forall e, (ReadPayload s).1 = Err e ->
             e = ErrInvalidPayloadSize \/ exists c, e = ErrInvalidPayload c /\
               (c = ErrInvalidHeaderLength \/ c = ErrInvalidHeaderBadMagic)).
Proof.
  unfold ReadPayload, Next.
  destruct (IndexByte_range (buf s) MagicByte) as [Hi|Hi].
  { rewrite Hi. by left. }
  destruct (Z.ltb_spec (IndexByte (buf s) MagicByte) 0) as [|_]; [lia|].
  set (idx := IndexByte (buf s) MagicByte) in *. cbn [snd].
  assert (Hlt : (Z.to_nat idx < length (buf s))%nat) by (unfold len in Hi; lia).
  destruct (DecodeHeader (drop (Z.to_nat idx) (buf s))) as [h|err] eqn:Hd.
  - apply DecodeHeader_Ok_inv in Hd as (Hlen & _ & _).
    unfold len, HeaderLen in Hlen. rewrite length_drop in Hlen.
    destruct (Size h >? MAX_MESSAGE_PAYLOAD).
    + right. right. cbn [fst snd buf]. split; [|intros e [= <-]; by left].
      rewrite !length_drop. change (Z.to_nat HeaderLen) with 23%nat. lia.
    + destruct (_ <? _); [by right; left|]. right. right.
      cbn [fst snd buf]. split; [|done]. rewrite !length_drop.
      change (Z.to_nat HeaderLen) with 23%nat. lia.
  - right. right. cbn [fst snd buf]. split.
    + rewrite !length_drop. change (Z.to_nat 1) with 1%nat. lia.
    + intros e [= <-]. right. exists err. split; [done|].
      assert (Hbad : is_ok (DecodeHeader (drop (Z.to_nat idx) (buf s))) = false)
        by (by rewrite Hd).
      rewrite (DecodeHeader_Err _ Hbad) in Hd. injection Hd as <-.
      destruct (_ <? _); eauto.
Qed.

Lemma enqueue_bound (p : bool) (q q' : list work) (d : bool) (w : work) :
  enqueue p q d w = Some q' ->
  (q' = q \/ q' = q ++ [w]) /\
  (Z.of_nat (length q) <= workQueueSize -> Z.of_nat (length q') <= workQueueSize).
Proof.
  unfold enqueue.
  destruct (Z.ltb_spec (Z.of_nat (length q)) workQueueSize).
  - destruct (d && p); [done|]. intros [= <-]. split; [by right|].
    rewrite length_app. cbn. lia.
  - destruct d; [done|]. intros [= <-]. split; [by left|done].
Qed.

(** [processStash] returns once the fuel exceeds the number of buffered
    bytes; it only consumes from the stash, only appends to the work
    channel, and keeps the channel within its capacity. *)
Lemma processStash_returns (fuel : nat) :
  forall (picks : list bool) (s : stash) (q : list work) (d : bool),
    (length (buf s) < fuel)%nat ->
    exists s' new,
      processStash fuel picks s q d = Some (s', q ++ new) /\
      (exists k, buf s' = drop k (buf s)) /\
      capacity s' = capacity s /\
      (Z.of_nat (length q) <= workQueueSize ->
       Z.of_nat (length (q ++ new)) <= workQueueSize).
Proof.
  induction fuel as [|fuel IH]; intros picks s q d Hf; [lia|].
  cbn [processStash].
  destruct (ReadPayload_suffix s) as [[k Hk] Hcap].
  pose proof (ReadPayload_progress s) as Hprog.
  destruct (ReadPayload s) as [r s1]. cbn [fst snd] in *.
  assert (Hstop : exists s' new,
             Some (s1, q) = Some (s', q ++ new) /\
             (exists k, buf s' = drop k (buf s)) /\ capacity s' = capacity s /\
             (Z.of_nat (length q) <= workQueueSize ->
              Z.of_nat (length (q ++ new)) <= workQueueSize)).
  { exists s1, []. rewrite app_nil_r. eauto. }
  assert (Hgo : forall picks' q1,
             (length (buf s1) < length (buf s))%nat ->
             (exists new1, q1 = q ++ new1) ->
             (Z.of_nat (length q) <= workQueueSize ->
              Z.of_nat (length q1) <= workQueueSize) ->
             exists s' new,
               processStash fuel picks' s1 q1 d = Some (s', q ++ new) /\
               (exists k, buf s' = drop k (buf s)) /\ capacity s' = capacity s /\
               (Z.of_nat (length q) <= workQueueSize ->
                Z.of_nat (length (q ++ new)) <= workQueueSize)).
  { intros picks' q1 Hlt [new1 ->] Hb.
    destruct (IH picks' s1 (q ++ new1) d ltac:(lia)) as (s' & new & Hr & [k' Hk'] & Hc & Hb').
    exists s', (new1 ++ new). rewrite app_assoc. split; [done|].
    split; [exists (k + k')%nat; by rewrite Hk', Hk, drop_drop|].
    split; [congruence|]. intros Hq. apply Hb'. by apply Hb. }
  destruct Hprog as [->|[->|[Hlt He]]]; [done..|].
  destruct r as [[[id pt] payload]|e].
  - destruct (enqueue _ q d _) as [q1|] eqn:Hq; [|done].
    apply enqueue_bound in Hq as [Hq Hb].
    apply Hgo; [done| |done].
    destruct Hq as [->| ->]; [exists []; by rewrite app_nil_r|by eexists].
  - destruct (He e eq_refl) as [->|(c & -> & [->| ->])]; cbn;
      apply Hgo; try done; exists []; by rewrite app_nil_r.
Qed.

(** Noise before the first magic byte is dropped together with what
    [ReadPayload] does on the rest. *)
Lemma ReadPayload_skip_noise (noise rest : list byte) (cap : Z) :
  Forall (fun b => b <> MagicByte) noise ->
  ReadPayload (mkStash (noise ++ MagicByte :: rest) cap)
  = ReadPayload (mkStash (MagicByte :: rest) cap).
Proof.
  intros Hn. unfold ReadPayload. cbn [buf capacity].
  rewrite (IndexByte_first noise rest MagicByte Hn).
  cbn [IndexByte]. rewrite eqb_refl.
  pose proof (len_nonneg noise).
  destruct (Z.ltb_spec (len noise) 0); [lia|]. change (0 <? 0) with false.
  cbv iota. unfold Next. cbn [snd]. change (Z.to_nat 0) with 0%nat. rewrite skipn_O.
  replace (Z.to_nat (len noise)) with (length noise) by (unfold len; lia).
  by rewrite drop_app_length.
Qed.

End ResyncFacts.

Section DrainFacts.
Import Bytes Const Wire Stash Broker Reader.

Lemma frameLayout_cons (t : byte) (id payload : list byte) :
  frameLayout t id payload
  = MagicByte :: t :: id ++ LittleEndian_PutUint32 (len payload)
      ++ [fold_left Bytes.xor (header22 t id (len payload)) x00] ++ payload.
Proof. unfold frameLayout, header22. cbn [app]. by rewrite <- !app_assoc. Qed.

Lemma frameLayout_length (t : byte) (id payload : list byte) :
  length id = 16%nat -> length (frameLayout t id payload) = (23 + length payload)%nat.
Proof.
  intros Hid. destruct (frameLayout_split t id payload Hid) as (hdr & Hh & ->).
  rewrite length_app. lia.
Qed.

(** [DecodeHeader] reads the first 23 bytes only. *)
Lemma DecodeHeader_take (src : list byte) (k : nat) :
  (23 <= k)%nat -> DecodeHeader (take k src) = DecodeHeader src.
Proof.
  intros Hk. destruct (decide (length src <= k)%nat) as [Hle|Hgt].
  { by rewrite firstn_all2. }
  unfold DecodeHeader.
  assert (Hl : (len (take k src) <? HeaderLen) = (len src <? HeaderLen)).
  { unfold len, HeaderLen. rewrite length_take.
    destruct (Z.ltb_spec (Z.of_nat (length src)) (1 + 1 + 16 + 4 + 1));
      destruct (Z.ltb_spec (Z.of_nat (Nat.min k (length src))) (1 + 1 + 16 + 4 + 1)); lia. }
  rewrite Hl. rewrite !at_lookup, !lookup_take_lt by lia.
  rewrite take_take. replace (Nat.min 22 k) with 22%nat by lia.
  rewrite !skipn_firstn_comm, !take_take.
  replace (Nat.min 16 (k - 2)) with 16%nat by lia.
  replace (Nat.min 4 (k - 18)) with 4%nat by lia.
  done.
Qed.

Lemma Write_fits (s : stash) (data : list byte) :
  len (buf s) + len data <= capacity s ->
  (Write s data).1 = mkStash (buf s ++ data) (capacity s).
Proof.
  intros H. unfold Write.
  by destruct (Z.gtb_spec (len (buf s) + len data) (capacity s)); [lia|].
Qed.

Lemma ReadPayload_empty (cap : Z) :
  ReadPayload (mkStash [] cap) = (Err ErrNoPayloadFound, mkStash [] cap).
Proof. reflexivity. Qed.

(** A frame of which at least the header has arrived, but not all of the
    payload, stays in the stash. *)
Lemma ReadPayload_partial_frame (t : byte) (id payload : list byte) (k : nat) (cap : Z) :
  length id = 16%nat ->
  len payload <= MAX_MESSAGE_PAYLOAD ->
  (23 <= k < 23 + length payload)%nat ->
  ReadPayload (mkStash (take k (frameLayout t id payload)) cap)
  = (Err ErrIncompletePayload, mkStash (take k (frameLayout t id payload)) cap).
Proof.
  intros Hid Hp Hk.
  assert (HM : MAX_MESSAGE_PAYLOAD = 26214400) by reflexivity.
  pose proof (DecodeHeader_frameLayout t id payload [] Hid ltac:(lia)) as Hdec.
  rewrite app_nil_r in Hdec.
  assert (Hdk : DecodeHeader (take k (frameLayout t id payload))
                = Ok (mkHeader MagicByte t id (len payload))).
  { rewrite DecodeHeader_take by lia. done. }
  pose proof (DecodeHeader_Ok_inv _ _ Hdk) as (_ & Hidx & _).
  unfold ReadPayload. cbn [buf capacity]. rewrite Hidx.
  change (0 <? 0) with false. cbv iota.
  unfold Next. change (Z.to_nat 0) with 0%nat. cbn [snd]. rewrite !skipn_O.
  rewrite Hdk. cbn [Size].
  destruct (Z.gtb_spec (len payload) MAX_MESSAGE_PAYLOAD); [lia|].
  unfold uint32, HeaderLen. pose proof (len_nonneg payload).
  rewrite Z.mod_small by lia.
  match goal with |- context [len ?l <? ?n] =>
    destruct (Z.ltb_spec (len l) n) as [|Hge] end; [done|].
  unfold len in Hge. rewrite length_take, frameLayout_length in Hge by done. lia.
Qed.

(** The drainer on the bytes of a sequence of frames. *)
Lemma processStash_frames (ws : list work) :
  forall (fuel : nat) (picks : list bool) (q : list work) (cap : Z),
    Forall well_formed ws ->
    (length ws < fuel)%nat ->
    Z.of_nat (length q) + Z.of_nat (length ws) <= workQueueSize ->
    processStash fuel picks (mkStash (encode_all ws) cap) q false
    = Some (mkStash [] cap, q ++ ws).
Proof.
  induction ws as [|w ws IH]; intros fuel picks q cap Hwf Hf Hroom.
  - destruct fuel as [|fuel]; [cbn in Hf; lia|].
    cbn [processStash encode_all fmap list_fmap concat].
    rewrite ReadPayload_empty. cbn. by rewrite app_nil_r.
  - destruct fuel as [|fuel]; [cbn in Hf; lia|].
    apply Forall_cons in Hwf as [[Hid Hp] Hwf].
    cbn [length] in Hf, Hroom.
    cbn [processStash]. unfold encode_all. cbn [fmap list_fmap concat].
    fold (encode_all ws).
    rewrite ReadPayload_frame by done.
    unfold enqueue.
    destruct (Z.ltb_spec (Z.of_nat (length q)) workQueueSize); [|lia].
    cbn [andb]. destruct w as [id pt payload]. cbn [w_id w_payloadType w_payload].
    rewrite IH; [by rewrite <- app_assoc|done|lia|].
    rewrite length_app. cbn [length]. lia.
Qed.

End DrainFacts.

Section ResyncSteps.
Import Bytes Const Wire Stash Broker Reader.

(** Without any magic byte the stash keeps its last 22 bytes at most. *)
Lemma ReadPayload_no_magic_eq (s : stash) :
  Forall (fun b => b <> MagicByte) (buf s) ->
  ReadPayload s
  = (Err ErrNoPayloadFound,
     mkStash (drop (length (buf s) - 22) (buf s)) (capacity s)).
Proof.
  intros Hn. unfold ReadPayload, Next. rewrite (IndexByte_absent _ _ Hn).
  change (-1 <? 0) with true. cbv iota. f_equal. f_equal.
  unfold len, HeaderLen.
  destruct (Z.gtb_spec (Z.of_nat (length (buf s)) - (1 + 1 + 16 + 4 + 1 - 1)) 0).
  - cbn [snd]. f_equal. lia.
  - replace (length (buf s) - 22)%nat with 0%nat by lia. by rewrite skipn_O.
Qed.

(** A header error costs the bytes before the magic byte and the magic
    byte itself. *)
Lemma ReadPayload_header_error_eq (noise tail : list byte) (cap : Z) :
  Forall (fun b => b <> MagicByte) noise ->
  is_ok (DecodeHeader (MagicByte :: tail)) = false ->
  ReadPayload (mkStash (noise ++ MagicByte :: tail) cap)
  = (Err (ErrInvalidPayload
            (if Z.of_nat (length tail) <? 22 then ErrInvalidHeaderLength
             else ErrInvalidHeaderBadMagic)),
     mkStash tail cap).
Proof.
  intros Hn Hbad. rewrite ReadPayload_skip_noise by done.
  unfold ReadPayload, Next. cbn [buf capacity IndexByte]. rewrite eqb_refl.
  change (0 <? 0) with false. cbv iota. change (Z.to_nat 0) with 0%nat.
  cbn [snd]. rewrite !skipn_O. rewrite (DecodeHeader_Err _ Hbad).
  change (Z.to_nat 1) with 1%nat. cbn [drop skipn].
  unfold len, HeaderLen. cbn [length].
  destruct (Z.ltb_spec (Z.of_nat (S (length tail))) (1 + 1 + 16 + 4 + 1));
    destruct (Z.ltb_spec (Z.of_nat (length tail)) 22); try lia; done.
Qed.

Lemma DecodeHeader_short (src : list byte) :
  len src < HeaderLen -> DecodeHeader src = Err ErrInvalidHeaderLength.
Proof.
  intros H. unfold DecodeHeader. by destruct (Z.ltb_spec (len src) HeaderLen); [|lia].
Qed.

Lemma errors_Is_header (c : broker_error) :
  c = ErrInvalidHeaderLength \/ c = ErrInvalidHeaderBadMagic ->
  errors_Is (ErrInvalidPayload c) ErrNoPayloadFound = false /\
  errors_Is (ErrInvalidPayload c) ErrIncompletePayload = false.
Proof. by intros [->| ->]. Qed.

End ResyncSteps.

(** The demo request frame with the third byte of its id changed. *)
Lemma header_corruption_detected_witness :
  Wire.DecodeHeader
    (<[4%nat := x2b]>
       (Wire.frameLayout Const.payloadTypeRequest Broker.demo_id Broker.demo_payload))
  = Err ErrInvalidHeaderBadMagic.
Proof.
  apply (header_corruption_detected
           (Wire.frameLayout Const.payloadTypeRequest Broker.demo_id Broker.demo_payload)
           4 x2b).
  - vm_compute. reflexivity.
  - lia.
  - vm_compute. discriminate.
Defined.

(** Resynchronisation: with any bytes free of the magic byte in front of a
    frame and any bytes behind it, [ReadPayload] returns the frame's id,
    type and payload and leaves exactly the bytes behind the frame. *)
Theorem ReadPayload_resync (noise rest : list byte) (t : byte) (id payload : list byte)
    (cap : Z) :
  Forall (fun b => b <> Const.MagicByte) noise ->
  length id = 16%nat ->
  Bytes.len payload <= Const.MAX_MESSAGE_PAYLOAD ->
  Stash.ReadPayload (Stash.mkStash (noise ++ Wire.frameLayout t id payload ++ rest) cap)
  = (Ok (id, t, payload), Stash.mkStash rest cap).
Proof.
  intros Hn Hid Hp. rewrite frameLayout_cons. cbn [app].
  rewrite ReadPayload_skip_noise by done.
  rewrite <- (ReadPayload_frame t id payload rest cap Hid Hp).
  by rewrite frameLayout_cons.
Qed.

(** Three noise bytes, the demo request frame and one byte behind it. *)
Lemma ReadPayload_resync_witness :
  Stash.ReadPayload
    (Stash.mkStash
       ([x00; x01; x02]
        ++ Wire.frameLayout Const.payloadTypeRequest Broker.demo_id Broker.demo_payload
        ++ [x99]) 64)
  = (Ok (Broker.demo_id, Const.payloadTypeRequest, Broker.demo_payload),
     Stash.mkStash [x99] 64).
Proof.
  apply (ReadPayload_resync [x00; x01; x02] [x99] Const.payloadTypeRequest
           Broker.demo_id Broker.demo_payload 64).
  - repeat constructor; discriminate.
  - reflexivity.
  - vm_compute. discriminate.
Defined.

(** When the bytes from the first magic byte on are not an acceptable
    header, [ReadPayload] reports [ErrInvalidPayload] and consumes the
    bytes before the magic byte and the magic byte itself, nothing more:
    with fewer than 23 bytes from the magic byte on the cause is
    [ErrInvalidHeaderLength] (a header that has only partly arrived loses
    its magic byte), otherwise [ErrInvalidHeaderBadMagic]. *)
Theorem ReadPayload_header_error (noise tail : list byte) (cap : Z) :
  Forall (fun b => b <> Const.MagicByte) noise ->
  is_ok (Wire.DecodeHeader (Const.MagicByte :: tail)) = false ->
  Stash.ReadPayload (Stash.mkStash (noise ++ Const.MagicByte :: tail) cap)
  = (Err (ErrInvalidPayload
            (if Z.of_nat (length tail) <? 22 then ErrInvalidHeaderLength
             else ErrInvalidHeaderBadMagic)),
     Stash.mkStash tail cap).
Proof. apply ReadPayload_header_error_eq. Qed.

(** The first ten bytes of the demo request frame after one noise byte. *)
Lemma ReadPayload_header_error_witness :
  Stash.ReadPayload
    (Stash.mkStash ([x00] ++ Const.MagicByte :: [x01] ++ replicate 8 x2a) 64)
  = (Err (ErrInvalidPayload ErrInvalidHeaderLength),
     Stash.mkStash ([x01] ++ replicate 8 x2a) 64).
Proof.
  apply (ReadPayload_header_error [x00] ([x01] ++ replicate 8 x2a) 64).
  - repeat constructor; discriminate.
  - vm_compute. reflexivity.
Defined.

(** A stash without any magic byte yields [ErrNoPayloadFound] and keeps
    its last 22 bytes (all of them when there are no more). *)
Theorem ReadPayload_no_magic (s : Stash.stash) :
  Forall (fun b => b <> Const.MagicByte) (Stash.buf s) ->
  Stash.ReadPayload s
  = (Err ErrNoPayloadFound,
     Stash.mkStash (drop (length (Stash.buf s) - 22) (Stash.buf s)) (Stash.capacity s)).
Proof. apply ReadPayload_no_magic_eq. Qed.

(** Thirty zero bytes: the last 22 stay. *)
Lemma ReadPayload_no_magic_witness :
  Stash.ReadPayload (Stash.mkStash (replicate 30 x00) 64)
  = (Err ErrNoPayloadFound, Stash.mkStash (replicate 22 x00) 64).
Proof.
  apply (ReadPayload_no_magic (Stash.mkStash (replicate 30 x00) 64)).
  repeat constructor; discriminate.
Defined.

(** [processStash] always returns, within one iteration more than there are
    bytes in the stash.  It only consumes bytes (the stash afterwards is a
    suffix of the stash before, with the same capacity), it only appends to
    the work channel, and a work channel within its capacity of 64 stays
    within it. *)
Theorem processStash_terminates (picks : list bool) (s : Stash.stash)
    (workChan : list Broker.work) (ctx_done : bool) :
  exists s' new,
    Reader.processStash (S (length (Stash.buf s))) picks s workChan ctx_done
    = Some (s', workChan ++ new) /\
    (exists k, Stash.buf s' = drop k (Stash.buf s)) /\
    Stash.capacity s' = Stash.capacity s /\
    (Z.of_nat (length workChan) <= Reader.workQueueSize ->
     Z.of_nat (length (workChan ++ new)) <= Reader.workQueueSize).
Proof. apply processStash_returns. lia. Qed.

(** Stream decoding: on the bytes of any sequence of well-formed frames,
    with room for them in the work channel and the broker's context alive,
    [processStash] queues exactly these frames, in order, and empties the
    stash. *)
Theorem processStash_decodes_stream (ws : list Broker.work) (picks : list bool)
    (workChan : list Broker.work) (cap : Z) :
  Forall well_formed ws ->
  Z.of_nat (length workChan) + Z.of_nat (length ws) <= Reader.workQueueSize ->
  Reader.processStash (S (length (encode_all ws))) picks
    (Stash.mkStash (encode_all ws) cap) workChan false
  = Some (Stash.mkStash [] cap, workChan ++ ws).
Proof.
  intros Hwf Hroom. apply processStash_frames; [done| |done].
  clear Hroom. induction Hwf as [|w ws [Hid _] _ IH]; [cbn; lia|].
  unfold encode_all in *. cbn [fmap list_fmap concat length] in *.
  rewrite length_app, frameLayout_length by done. lia.
Qed.

(** A request frame followed by a response frame. *)
Lemma processStash_decodes_stream_witness :
  Reader.processStash
    (S (length (encode_all
                  [Broker.demo_request;
                   Broker.mkWork Broker.demo_id Const.payloadTypeResponse []])))
    []
    (Stash.mkStash
       (encode_all [Broker.demo_request;
                    Broker.mkWork Broker.demo_id Const.payloadTypeResponse []]) 64)
    [] false
  = Some (Stash.mkStash [] 64,
          [] ++ [Broker.demo_request;
                 Broker.mkWork Broker.demo_id Const.payloadTypeResponse []]).
Proof.
  apply (processStash_decodes_stream
           [Broker.demo_request;
            Broker.mkWork Broker.demo_id Const.payloadTypeResponse []] [] [] 64).
  - repeat constructor; vm_compute; discriminate.
  - vm_compute. discriminate.
Defined.

(** A frame that arrives in two reads, cut anywhere after its header: the
    first [processStash] queues nothing and leaves the bytes in the stash,
    the second one, after the rest was written, queues the frame and
    empties the stash. *)
Theorem split_frame_delivered (t : byte) (id payload : list byte) (k fuel : nat)
    (picks1 picks2 : list bool) (workChan : list Broker.work) (cap : Z) :
  length id = 16%nat ->
  Bytes.len payload <= Const.MAX_MESSAGE_PAYLOAD ->
  (23 <= k < 23 + length payload)%nat ->
  23 + Bytes.len payload <= cap ->
  Z.of_nat (length workChan) < Reader.workQueueSize ->
  (2 <= fuel)%nat ->
  Reader.on_read fuel picks1 (Stash.newStash cap)
    (take k (Wire.frameLayout t id payload)) workChan false
  = Some (Stash.mkStash (take k (Wire.frameLayout t id payload)) cap, workChan) /\
  Reader.on_read fuel picks2
    (Stash.mkStash (take k (Wire.frameLayout t id payload)) cap)
    (drop k (Wire.frameLayout t id payload)) workChan false
  = Some (Stash.mkStash [] cap, workChan ++ [Broker.mkWork id t payload]).
Proof.
  intros Hid Hp Hk Hcap Hroom Hfuel.
  pose proof (frameLayout_length t id payload Hid) as Hlen.
  destruct fuel as [|fuel]; [lia|]. unfold Reader.on_read. split.
  - rewrite Write_fits.
    + cbn [Stash.buf Stash.capacity Stash.newStash app Reader.processStash].
      by rewrite ReadPayload_partial_frame.
    + cbn [Stash.buf Stash.capacity Stash.newStash]. unfold Bytes.len in *.
      rewrite length_take, Hlen. cbn [length]. lia.
  - rewrite Write_fits.
    + cbn [Stash.buf Stash.capacity]. rewrite take_drop.
      pose proof (processStash_frames [Broker.mkWork id t payload] (S fuel) picks2
                    workChan cap) as H.
      unfold encode_all in H.
      cbn [fmap list_fmap concat Broker.w_id Broker.w_payloadType Broker.w_payload] in H.
      rewrite app_nil_r in H. apply H.
      * repeat constructor; done.
      * cbn [length]. lia.
      * cbn [length]. lia.
    + cbn [Stash.buf Stash.capacity]. rewrite <- len_app, take_drop.
      unfold Bytes.len in *. rewrite Hlen. lia.
Qed.

(** The demo request frame cut after 25 of its 27 bytes. *)
Lemma split_frame_delivered_witness :
  Reader.on_read 2 [] (Stash.newStash 64)
    (take 25 (Wire.frameLayout Const.payloadTypeRequest Broker.demo_id Broker.demo_payload))
    [] false
  = Some (Stash.mkStash
            (take 25 (Wire.frameLayout Const.payloadTypeRequest Broker.demo_id
                        Broker.demo_payload)) 64, []) /\
  Reader.on_read 2 []
    (Stash.mkStash
       (take 25 (Wire.frameLayout Const.payloadTypeRequest Broker.demo_id
                   Broker.demo_payload)) 64)
    (drop 25 (Wire.frameLayout Const.payloadTypeRequest Broker.demo_id Broker.demo_payload))
    [] false
  = Some (Stash.mkStash [] 64,
          [] ++ [Broker.mkWork Broker.demo_id Const.payloadTypeRequest Broker.demo_payload]).
Proof.
  apply (split_frame_delivered Const.payloadTypeRequest Broker.demo_id Broker.demo_payload
           25 2 [] [] [] 64).
  - reflexivity.
  - vm_compute. discriminate.
  - cbn. lia.
  - vm_compute. discriminate.
  - vm_compute. reflexivity.
  - lia.
Defined.

(** A frame that arrives in two reads, cut inside its header, is lost when
    no other byte of it equals the magic byte: the first [processStash]
    discards the magic byte of the partial header, and after the rest was
    written the second one finds no magic byte, queues nothing and keeps
    only the last 22 bytes. *)
Theorem split_header_loses_frame (t : byte) (id payload : list byte) (k fuel : nat)
    (picks1 picks2 : list bool) (workChan : list Broker.work) (cap : Z)
    (ctx_done : bool) :
  length id = 16%nat ->
  (1 <= k < 23)%nat ->
  Forall (fun b => b <> Const.MagicByte) (drop 1 (Wire.frameLayout t id payload)) ->
  23 + Bytes.len payload <= cap ->
  (2 <= fuel)%nat ->
  Reader.on_read fuel picks1 (Stash.newStash cap)
    (take k (Wire.frameLayout t id payload)) workChan ctx_done
  = Some (Stash.mkStash (drop 1 (take k (Wire.frameLayout t id payload))) cap, workChan) /\
  Reader.on_read fuel picks2
    (Stash.mkStash (drop 1 (take k (Wire.frameLayout t id payload))) cap)
    (drop k (Wire.frameLayout t id payload)) workChan ctx_done
  = Some (Stash.mkStash
            (drop (length payload) (drop 1 (Wire.frameLayout t id payload))) cap,
          workChan).
Proof.
  intros Hid Hk Hn Hcap Hfuel.
  pose proof (frameLayout_length t id payload Hid) as Hlen.
  set (f := Wire.frameLayout t id payload) in *.
  assert (Hf : f = Const.MagicByte :: drop 1 f).
  { subst f. by rewrite frameLayout_cons. }
  set (f1 := drop 1 f) in *.
  assert (Hl1 : length f1 = (22 + length payload)%nat).
  { subst f1. rewrite length_drop. lia. }
  destruct fuel as [|[|fuel]]; [lia..|]. unfold Reader.on_read.
  assert (Htk : take k f = Const.MagicByte :: take (k - 1) f1).
  { rewrite Hf at 1. destruct k as [|k]; [lia|]. cbn [take firstn].
    by replace (S k - 1)%nat with k by lia. }
  assert (Hdk : drop k f = drop (k - 1) f1).
  { rewrite Hf at 1. destruct k as [|k]; [lia|]. cbn [drop skipn].
    by replace (S k - 1)%nat with k by lia. }
  rewrite Htk, Hdk. cbn [drop skipn]. rewrite ?skipn_O.
  assert (HR1 : Stash.ReadPayload (Stash.mkStash (Const.MagicByte :: take (k - 1) f1) cap)
                = (Err (ErrInvalidPayload ErrInvalidHeaderLength),
                   Stash.mkStash (take (k - 1) f1) cap)).
  { pose proof (ReadPayload_header_error_eq [] (take (k - 1) f1) cap) as H.
    cbn [app] in H. rewrite H.
    - rewrite length_take.
      by destruct (Z.ltb_spec (Z.of_nat (Nat.min (k - 1) (length f1))) 22); [|lia].
    - constructor.
    - rewrite DecodeHeader_short; [done|].
      unfold Bytes.len, Const.HeaderLen. cbn [length]. rewrite length_take. lia. }
  assert (HR2 : Stash.ReadPayload (Stash.mkStash (take (k - 1) f1) cap)
                = (Err ErrNoPayloadFound, Stash.mkStash (take (k - 1) f1) cap)).
  { rewrite ReadPayload_no_magic_eq by (cbn [Stash.buf]; by apply Forall_take).
    cbn [Stash.buf Stash.capacity]. rewrite length_take.
    replace (Nat.min (k - 1) (length f1) - 22)%nat with 0%nat by lia. done. }
  assert (HR3 : Stash.ReadPayload (Stash.mkStash f1 cap)
                = (Err ErrNoPayloadFound, Stash.mkStash (drop (length payload) f1) cap)).
  { rewrite ReadPayload_no_magic_eq by done. cbn [Stash.buf Stash.capacity].
    by replace (length f1 - 22)%nat with (length payload) by lia. }
  destruct (errors_Is_header ErrInvalidHeaderLength ltac:(by left)) as [E1 E2].
  split.
  - rewrite Write_fits.
    + cbn [Stash.buf Stash.capacity Stash.newStash app].
      cbn [Reader.processStash]. rewrite HR1, E1, E2.
      destruct (Reader.errors_Is _ _); by rewrite HR2.
    + cbn [Stash.buf Stash.capacity Stash.newStash]. unfold Bytes.len in *.
      cbn [length]. rewrite length_take. lia.
  - rewrite Write_fits.
    + cbn [Stash.buf Stash.capacity]. rewrite take_drop.
      cbn [Reader.processStash]. by rewrite HR3.
    + cbn [Stash.buf Stash.capacity]. rewrite <- len_app, take_drop.
      unfold Bytes.len in *. lia.
Qed.

(** The demo request frame cut after 10 bytes. *)
Lemma split_header_loses_frame_witness :
  Reader.on_read 2 [] (Stash.newStash 64)
    (take 10 (Wire.frameLayout Const.payloadTypeRequest Broker.demo_id Broker.demo_payload))
    [] false
  = Some (Stash.mkStash
            (drop 1 (take 10 (Wire.frameLayout Const.payloadTypeRequest Broker.demo_id
                                Broker.demo_payload))) 64, []) /\
  Reader.on_read 2 []
    (Stash.mkStash
       (drop 1 (take 10 (Wire.frameLayout Const.payloadTypeRequest Broker.demo_id
                           Broker.demo_payload))) 64)
    (drop 10 (Wire.frameLayout Const.payloadTypeRequest Broker.demo_id Broker.demo_payload))
    [] false
  = Some (Stash.mkStash
            (drop (length Broker.demo_payload)
               (drop 1 (Wire.frameLayout Const.payloadTypeRequest Broker.demo_id
                          Broker.demo_payload))) 64, []).
Proof.
  apply (split_header_loses_frame Const.payloadTypeRequest Broker.demo_id
           Broker.demo_payload 10 2 [] [] [] 64 false).
  - reflexivity.
  - lia.
  - vm_compute. repeat constructor; discriminate.
  - vm_compute. discriminate.
  - lia.
Defined.

(** ** Payload validator and payload builders *)

Section PayloadFacts.
Import Bytes Keychain Benchmark.

Lemma BigEndian_range (b : list byte) : 0 <= BigEndian_Uint32 b < 2 ^ 32.
Proof.
  assert (E : BigEndian_Uint32 b mod 2 ^ 32 = BigEndian_Uint32 b).
  { apply Z.bits_inj'. intros i Hi.
    destruct (Z.ltb_spec i 32) as [Hlt|Hge].
    - apply Z.mod_pow2_bits_low. lia.
    - rewrite Z.mod_pow2_bits_high by lia.
      unfold BigEndian_Uint32.
      rewrite !Z.lor_spec, !Z.shiftl_spec by lia.
      by rewrite !to_Z_testbit_high by lia. }
  rewrite <- E. apply Z.mod_pos_bound. lia.
Qed.

Lemma BigEndian_roundtrip (n : Z) (rest : list byte) :
  0 <= n < 2 ^ 32 ->
  BigEndian_Uint32 (BigEndian_PutUint32 n ++ rest) = n.
Proof.
  intros Hn. apply Z.bits_inj'. intros i Hi.
  unfold BigEndian_Uint32, BigEndian_PutUint32, at_. simpl nth.
  rewrite !Z.lor_spec, !Z.shiftl_spec by lia.
  rewrite !to_Z_of_Z, !mod256_testbit, !shiftr_testbit.
  assert (Hhi : 32 <= i -> Z.testbit n i = false).
  { intros. rewrite <- (Z.mod_small n (2 ^ 32)) by lia.
    apply Z.mod_pow2_bits_high. lia. }
  replace (i - 8 + 8) with i by lia.
  replace (i - 16 + 16) with i by lia.
  replace (i - 24 + 24) with i by lia.
  destruct (Z.ltb_spec i 8), (Z.ltb_spec (i - 8) 8), (Z.ltb_spec (i - 16) 8),
    (Z.ltb_spec (i - 24) 8), (Z.leb_spec 0 (i - 8)), (Z.leb_spec 0 (i - 16)),
    (Z.leb_spec 0 (i - 24)); try lia; simpl;
    rewrite ?orb_false_r; try done.
  symmetry. apply Hhi. lia.
Qed.

Lemma int32_small (z : Z) : 0 <= z < 2 ^ 32 -> int32 z = if z <? 2 ^ 31 then z else z - 2 ^ 32.
Proof. intros H. unfold int32. by rewrite Z.mod_small. Qed.

(** The block branch of the validator. *)
Lemma Decode_block_eq (raw : list byte) :
  at_ raw 0 = x11 -> 1 <= len raw ->
  DecodeAndValidateSignPayload raw
  = if len raw <? fitness_off + 4 then Err errOutOfBounds
    else if int32 (BigEndian_Uint32 (from raw 5)) <? 0 then Err errNegativeLevel
    else if int32 (BigEndian_Uint32 (from raw fitness_off)) <? 0
    then Err errNegativeFitnessLen
    else if fitness_off + int32 (BigEndian_Uint32 (from raw fitness_off)) + 4 >? len raw
    then Err errOutOfBounds
    else if int32 (BigEndian_Uint32
                     (from raw (fitness_off
                                + int32 (BigEndian_Uint32 (from raw fitness_off))))) <? 0
    then Err errNegativeRound
    else Ok (BLOCK, int32 (BigEndian_Uint32 (from raw 5)),
             int32 (BigEndian_Uint32
                      (from raw (fitness_off
                                 + int32 (BigEndian_Uint32 (from raw fitness_off))))),
             raw).
Proof.
  intros Hat Hlen. unfold DecodeAndValidateSignPayload.
  destruct (Z.ltb_spec (len raw) 1); [lia|]. by rewrite Hat.
Qed.

(** The branch of the validator for preattestations and attestations. *)
Lemma Decode_attestation_eq (raw : list byte) :
  at_ raw 0 = x12 \/ at_ raw 0 = x13 ->
  DecodeAndValidateSignPayload raw
  = if len raw <? 46 then Err errOutOfBounds
    else if int32 (BigEndian_Uint32 (from raw 38)) <? 0 then Err errNegativeLevel
    else if int32 (BigEndian_Uint32 (from raw 42)) <? 0 then Err errNegativeRound
    else Ok (if Bytes.eqb (at_ raw 0) x12 then PREATTESTATION else ATTESTATION,
             int32 (BigEndian_Uint32 (from raw 38)),
             int32 (BigEndian_Uint32 (from raw 42)), raw).
Proof.
  intros Hat. unfold DecodeAndValidateSignPayload.
  destruct (Z.ltb_spec (len raw) 1) as [Hlt|Hge].
  - destruct raw; [|unfold len in Hlt; cbn in Hlt; lia].
    destruct Hat as [Hat|Hat]; discriminate Hat.
  - destruct Hat as [Hat|Hat]; rewrite Hat; cbv zeta;
      change (1 + 4 + 32 + 1 + 4 + 4) with 46; change (1 + 4 + 32 + 1 + 4) with 42;
      change (1 + 4 + 32 + 1) with 38;
      repeat (destruct (_ <? _); [done|]); done.
Qed.

End PayloadFacts.


(** Builder and validator agree: on the payload [buildTenderbakePayload]
    builds for a block, a preattestation or an attestation, the validator
    returns the kind of the tag, the level reduced to 32 bits, the round
    and the payload itself, provided both are below 2^31; a level whose
    low 32 bits reach 2^31 is refused as negative, and so is such a
    round. *)
Theorem tenderbake_payload_roundtrip (kind : byte) (level round : Z) (msg : list byte) :
  kind = x11 \/ kind = x12 \/ kind = x13 ->
  0 <= round < 2 ^ 32 ->
  Keychain.DecodeAndValidateSignPayload
    (Benchmark.buildTenderbakePayload kind level round msg)
  = if 2 ^ 31 <=? Bytes.uint32 level then Err Keychain.errNegativeLevel
    else if 2 ^ 31 <=? round then Err Keychain.errNegativeRound
    else Ok (if Bytes.eqb kind x11 then Keychain.BLOCK
             else if Bytes.eqb kind x12 then Keychain.PREATTESTATION
             else Keychain.ATTESTATION,
             Bytes.uint32 level, round,
             Benchmark.buildTenderbakePayload kind level round msg).
Proof.
  intros Hk Hr.
  assert (Hl : 0 <= Bytes.uint32 level < 2 ^ 32).
  { unfold Bytes.uint32. apply Z.mod_pos_bound. lia. }
  assert (H4 : Bytes.int32 (Bytes.BigEndian_Uint32
                 (Bytes.BigEndian_PutUint32 4 ++ Bytes.BigEndian_PutUint32 round)) = 4).
  { by rewrite BigEndian_roundtrip. }
  destruct Hk as [-> | [-> | ->]]; cbn [Benchmark.buildTenderbakePayload].
  - rewrite Decode_block_eq by done.
    set (raw := Keychain.buildBlockPayload level round).
    change (Bytes.len raw) with 91.
    change (Keychain.from raw Keychain.fitness_off)
      with (Bytes.BigEndian_PutUint32 4 ++ Bytes.BigEndian_PutUint32 round).
    rewrite H4.
    change (Keychain.from raw (Keychain.fitness_off + 4))
      with (Bytes.BigEndian_PutUint32 round ++ []).
    change (Keychain.from raw 5)
      with (Bytes.BigEndian_PutUint32 (Bytes.uint32 level)
            ++ drop 9 raw).
    rewrite !BigEndian_roundtrip, !int32_small by done.
    change (91 <? Keychain.fitness_off + 4) with false.
    change (Keychain.fitness_off + 4 + 4 >? 91) with false. cbv iota.
    destruct (Z.leb_spec (2 ^ 31) (Bytes.uint32 level)),
      (Z.ltb_spec (Bytes.uint32 level) (2 ^ 31)); try lia;
      destruct (Z.leb_spec (2 ^ 31) round), (Z.ltb_spec round (2 ^ 31)); try lia;
      repeat match goal with |- context [?a <? 0] =>
               destruct (Z.ltb_spec a 0); try lia end; done.
  - rewrite Decode_attestation_eq by (by left).
    set (raw := Benchmark.buildPreattestationPayload level round).
    change (Bytes.len raw) with 46.
    change (Keychain.from raw 42) with (Bytes.BigEndian_PutUint32 round ++ []).
    change (Keychain.from raw 38)
      with (Bytes.BigEndian_PutUint32 (Bytes.uint32 level) ++ drop 42 raw).
    rewrite !BigEndian_roundtrip, !int32_small by done.
    change (46 <? 46) with false. cbv iota.
    change (Bytes.at_ raw 0) with x12.
    destruct (Z.leb_spec (2 ^ 31) (Bytes.uint32 level)),
      (Z.ltb_spec (Bytes.uint32 level) (2 ^ 31)); try lia;
      destruct (Z.leb_spec (2 ^ 31) round), (Z.ltb_spec round (2 ^ 31)); try lia;
      repeat match goal with |- context [?a <? 0] =>
               destruct (Z.ltb_spec a 0); try lia end; done.
  - rewrite Decode_attestation_eq by (by right).
    set (raw := Benchmark.buildAttestationPayload level round).
    change (Bytes.len raw) with 46.
    change (Keychain.from raw 42) with (Bytes.BigEndian_PutUint32 round ++ []).
    change (Keychain.from raw 38)
      with (Bytes.BigEndian_PutUint32 (Bytes.uint32 level) ++ drop 42 raw).
    rewrite !BigEndian_roundtrip, !int32_small by done.
    change (46 <? 46) with false. cbv iota.
    change (Bytes.at_ raw 0) with x13.
    destruct (Z.leb_spec (2 ^ 31) (Bytes.uint32 level)),
      (Z.ltb_spec (Bytes.uint32 level) (2 ^ 31)); try lia;
      destruct (Z.leb_spec (2 ^ 31) round), (Z.ltb_spec round (2 ^ 31)); try lia;
      repeat match goal with |- context [?a <? 0] =>
               destruct (Z.ltb_spec a 0); try lia end; done.
Qed.

(** A preattestation for level 2^32 + 7 and round 3: the level is cut to
    its low 32 bits. *)
Lemma tenderbake_payload_roundtrip_witness :
  Keychain.DecodeAndValidateSignPayload
    (Benchmark.buildTenderbakePayload x12 (2 ^ 32 + 7) 3 [])
  = Ok (Keychain.PREATTESTATION, 7, 3,
        Benchmark.buildTenderbakePayload x12 (2 ^ 32 + 7) 3 []).
Proof.
  apply (tenderbake_payload_roundtrip x12 (2 ^ 32 + 7) 3 []).
  - right. by left.
  - lia.
Defined.

(** The validator accepts a payload tagged 0x12 or 0x13 exactly when it has
    at least 46 bytes and the big-endian words at offsets 38 and 42 are
    below 2^31; it then returns the kind of the tag, these two words as
    level and round, and the payload unchanged as the bytes to sign. *)
Theorem attestation_accepted_iff (raw : list byte) (kind : Keychain.SIGN_KIND)
    (level round : Z) (sb : list byte) :
  Bytes.at_ raw 0 = x12 \/ Bytes.at_ raw 0 = x13 ->
  Keychain.DecodeAndValidateSignPayload raw = Ok (kind, level, round, sb) <->
  46 <= Bytes.len raw /\
  kind = (if Bytes.eqb (Bytes.at_ raw 0) x12
          then Keychain.PREATTESTATION else Keychain.ATTESTATION) /\
  level = Bytes.BigEndian_Uint32 (Keychain.from raw 38) /\ level < 2 ^ 31 /\
  round = Bytes.BigEndian_Uint32 (Keychain.from raw 42) /\ round < 2 ^ 31 /\
  sb = raw.
Proof.
  intros Hat. rewrite Decode_attestation_eq by done.
  pose proof (BigEndian_range (Keychain.from raw 38)) as Hl.
  pose proof (BigEndian_range (Keychain.from raw 42)) as Hr.
  rewrite !int32_small by done.
  destruct (Z.ltb_spec (Bytes.len raw) 46).
  { split; [done | lia]. }
  destruct (Z.ltb_spec (Bytes.BigEndian_Uint32 (Keychain.from raw 38)) (2 ^ 31)).
  2:{ destruct (Z.ltb_spec (Bytes.BigEndian_Uint32 (Keychain.from raw 38) - 2 ^ 32) 0);
        [|lia]. split; [done | lia]. }
  destruct (Z.ltb_spec (Bytes.BigEndian_Uint32 (Keychain.from raw 38)) 0); [lia|].
  destruct (Z.ltb_spec (Bytes.BigEndian_Uint32 (Keychain.from raw 42)) (2 ^ 31)).
  2:{ destruct (Z.ltb_spec (Bytes.BigEndian_Uint32 (Keychain.from raw 42) - 2 ^ 32) 0);
        [|lia]. split; [done | lia]. }
  destruct (Z.ltb_spec (Bytes.BigEndian_Uint32 (Keychain.from raw 42)) 0); [lia|].
  split.
  - intros [= <- <- <- <-]. repeat split; done.
  - intros (_ & -> & -> & _ & -> & _ & ->). done.
Qed.

(** The attestation built for level 5 and round 1. *)
Lemma attestation_accepted_iff_witness :
  Keychain.DecodeAndValidateSignPayload (Benchmark.buildAttestationPayload 5 1)
  = Ok (Keychain.ATTESTATION, 5, 1, Benchmark.buildAttestationPayload 5 1).
Proof.
  apply (attestation_accepted_iff (Benchmark.buildAttestationPayload 5 1)
           Keychain.ATTESTATION 5 1 (Benchmark.buildAttestationPayload 5 1)).
  - by right.
  - repeat split; vm_compute; congruence.
Defined.

Section TrailingFacts.
Import Bytes Keychain.

Lemma at_app (a b : list byte) (i : nat) :
  (i < length a)%nat -> at_ (a ++ b) i = at_ a i.
Proof. intros H. unfold at_. by rewrite app_nth1. Qed.

Lemma BigEndian_from_app (raw extra : list byte) (off : Z) :
  0 <= off -> off + 4 <= len raw ->
  BigEndian_Uint32 (from (raw ++ extra) off) = BigEndian_Uint32 (from raw off).
Proof.
  intros H0 H4. unfold from. unfold len in H4.
  rewrite drop_app_le by lia.
  unfold BigEndian_Uint32.
  rewrite !at_app by (rewrite length_drop; lia). done.
Qed.

End TrailingFacts.

(** Bytes behind the fields the validator reads have no influence on what
    it returns as kind, level and round: a payload it accepts is accepted
    with the same three values whatever is appended to it, and the
    appended bytes are part of the bytes to sign. *)
Theorem validator_ignores_trailing_bytes (raw extra : list byte)
    (kind : Keychain.SIGN_KIND) (level round : Z) (sb : list byte) :
  Keychain.DecodeAndValidateSignPayload raw = Ok (kind, level, round, sb) ->
  Keychain.DecodeAndValidateSignPayload (raw ++ extra)
  = Ok (kind, level, round, raw ++ extra).
Proof.
  intros H. apply Decode_Ok_inv in H as (-> & Hl & Hr & Hk).
  pose proof (len_nonneg extra) as Hex.
  destruct kind; [done| | |].
  - destruct Hk as (Hat & -> & Hf & Hmin & Hro & ->).
    unfold Keychain.fitness_off in *.
    assert (Hne : (0 < length raw)%nat) by (unfold Bytes.len in Hmin; lia).
    rewrite Decode_block_eq; unfold Keychain.fitness_off.
    + rewrite len_app.
      rewrite !(BigEndian_from_app raw extra) by lia.
      rewrite Z.gtb_ltb.
      repeat match goal with |- context [?a <? ?b] =>
               destruct (Z.ltb_spec a b); [lia|] end.
      done.
    + by rewrite at_app.
    + rewrite len_app. unfold Bytes.len in *. lia.
  - destruct Hk as (Hat & Hmin & -> & ->).
    assert (Hne : (0 < length raw)%nat) by (unfold Bytes.len in Hmin; lia).
    rewrite Decode_attestation_eq by (left; by rewrite at_app).
    rewrite len_app, at_app, Hat by done.
    rewrite !(BigEndian_from_app raw extra) by lia.
    repeat match goal with |- context [?a <? ?b] =>
             destruct (Z.ltb_spec a b); [lia|] end.
    done.
  - destruct Hk as (Hat & Hmin & -> & ->).
    assert (Hne : (0 < length raw)%nat) by (unfold Bytes.len in Hmin; lia).
    rewrite Decode_attestation_eq by (right; by rewrite at_app).
    rewrite len_app, at_app, Hat by done.
    rewrite !(BigEndian_from_app raw extra) by lia.
    repeat match goal with |- context [?a <? ?b] =>
             destruct (Z.ltb_spec a b); [lia|] end.
    done.
Qed.

(** The block payload of the verification program with two bytes appended. *)
Lemma validator_ignores_trailing_bytes_witness :
  Keychain.DecodeAndValidateSignPayload (Keychain.buildBlockPayload 100 2 ++ [xde; xad])
  = Ok (Keychain.BLOCK, 100, 2, Keychain.buildBlockPayload 100 2 ++ [xde; xad]).
Proof.
  apply (validator_ignores_trailing_bytes (Keychain.buildBlockPayload 100 2) [xde; xad]
           Keychain.BLOCK 100 2 (Keychain.buildBlockPayload 100 2)).
  vm_compute. reflexivity.
Defined.

(** ** Request and response between two brokers *)

Section ExchangeFacts.
Import Bytes Const Wire Stash Broker Reader.

Lemma eqb_accept :
  Bytes.eqb payloadTypeAcceptRequest payloadTypeResponse = false /\
  Bytes.eqb payloadTypeAcceptRequest payloadTypeRequest = false /\
  Bytes.eqb payloadTypeAcceptRequest payloadTypeAcceptRequest = true /\
  Bytes.eqb payloadTypeResponse payloadTypeRequest = false.
Proof. by vm_compute. Qed.

(** A request that is not being processed, with a handler that returns and
    room for two frames in the write channel: accept frame, handler,
    response frame; the processing set is as before. *)
Lemma handleWork_request (b : Broker) (w : work) (h : Handler) (resp : list byte) :
  w_payloadType w = payloadTypeRequest ->
  length (w_id w) = 16%nat ->
  processingRequests b !! w_id w = None ->
  handler b = Some h ->
  h (w_payload w) = Returns resp ->
  len resp <= 2 ^ 32 - 1 ->
  Z.of_nat (length (writeChan b)) + 2 <= writeChanCap ->
  handleWork [SendFrame; SendFrame] b w
  = Some (Returned,
          mkBroker (waiters b) (chans b) (handler b)
            (writeChan b ++ [frameLayout payloadTypeAcceptRequest (w_id w) [];
                             frameLayout payloadTypeResponse (w_id w) resp])
            (processingRequests b) (unconfirmedRequests b) (ctx_done b)).
Proof.
  intros Ht Hid Hproc Hh Hret Hresp Hroom.
  destruct eqb_types as (E1 & E2 & _).
  unfold handleWork. rewrite Ht, E1, E2, Hproc.
  rewrite (writeFrame_send _ _ _ _ _ (frameLayout payloadTypeAcceptRequest (w_id w) []));
    [|by apply newMessage_layout|cbn; lia].
  cbn [handler set_writeChan set_processing]. rewrite Hh, Hret.
  rewrite (writeFrame_send _ _ _ _ _ (frameLayout payloadTypeResponse (w_id w) resp));
    [|by apply newMessage_layout|cbn; rewrite length_app; cbn; lia].
  unfold set_writeChan, set_processing.
  cbn [waiters chans handler writeChan processingRequests unconfirmedRequests ctx_done].
  by rewrite ?Hh, delete_insert_id, <- app_assoc.
Qed.

Lemma handleWork_accept (picks : list write_case) (b : Broker) (w : work) :
  w_payloadType w = payloadTypeAcceptRequest ->
  handleWork picks b w = Some (Returned, set_unconfirmed (delete (w_id w)) b).
Proof.
  intros Ht. destruct eqb_accept as (E1 & E2 & E3 & _).
  unfold handleWork. by rewrite Ht, E1, E2, E3.
Qed.

(** A response for a waiter whose slot is empty and open fills the slot
    and removes the waiter. *)
Lemma handleWork_response (picks : list write_case) (b : Broker) (w : work)
    (e : waiterEntry) :
  w_payloadType w = payloadTypeResponse ->
  waiters b !! w_id w = Some e ->
  chans b !! ch e = Some (mkChan None false) ->
  handleWork picks b w
  = Some (Returned,
          set_chans (insert (ch e) (mkChan (Some (w_payload w)) false))
            (set_waiters (delete (w_id w)) b)).
Proof.
  intros Ht Hw Hc. destruct eqb_types as (_ & _ & _ & _ & _ & _ & E).
  unfold handleWork, LoadAndDelete. rewrite Ht, E, Hw.
  cbn [chans set_waiters]. by rewrite Hc.
Qed.

(** After a response was handled, no waiter is left under its id. *)
Lemma handleWork_response_waiter (picks : list write_case) (b : Broker) (w : work)
    (e : work_end) (b' : Broker) :
  w_payloadType w = payloadTypeResponse ->
  handleWork picks b w = Some (e, b') ->
  waiters b' !! w_id w = None.
Proof.
  intros Ht. destruct eqb_types as (_ & _ & _ & _ & _ & _ & E).
  unfold handleWork, LoadAndDelete. rewrite Ht, E.
  destruct (waiters b !! w_id w) as [en|] eqn:Hw.
  - cbn [chans set_waiters].
    destruct (chans b !! ch en) as [[[v|] [|]]|]; intros [= <- <-]; cbn;
      apply lookup_delete_eq.
  - by intros [= <- <-].
Qed.

Lemma retransmit_only (reqs : list (list byte * list byte)) :
  forall (picks : list write_case) (b b' : Broker),
    retransmit picks b reqs = Some b' ->
    exists sent,
      writeChan b' = writeChan b ++ sent /\
      Forall (fun frame => exists i p,
                  (i, p) ∈ reqs /\ newMessage payloadTypeRequest i p = Ok frame) sent.
Proof.
  induction reqs as [|[i p] reqs IH]; intros picks b b' H.
  - injection H as <-. exists []. by rewrite app_nil_r.
  - cbn [retransmit] in H. destruct picks as [|pick picks]; [done|].
    destruct (writeFrame pick b (ctx_done b) payloadTypeRequest i p) as [[r b1]|] eqn:Hw;
      [|done].
    apply IH in H as (sent & Hs & Hall).
    assert (Hall' : Forall (fun frame => exists i0 p0,
                      (i0, p0) ∈ (i, p) :: reqs /\
                      newMessage payloadTypeRequest i0 p0 = Ok frame) sent).
    { eapply Forall_impl; [exact Hall|]. intros f (i0 & p0 & Hin & Hf).
      exists i0, p0. split; [by right|done]. }
    apply writeFrame_cases in Hw as [(-> & _ & frame & Hf & ->)|(err & -> & ->)].
    + exists (frame :: sent). cbn [writeChan set_writeChan] in Hs.
      rewrite Hs, <- app_assoc. split; [done|].
      constructor; [|done]. exists i, p. split; [by left|done].
    + by exists sent.
Qed.

End ExchangeFacts.


(** A request and its response between two brokers, each step as its
    goroutine takes it: [Request] on the client registers a waiter and
    queues the request frame; the server's read loop turns the frame into
    a work item; a server worker queues the accept frame, runs the handler
    and queues the response frame, leaving its processing set as it was;
    the client's read loop turns both frames into work items; the client's
    workers clear the unconfirmed entry and fill the caller's slot (in
    either order, with the same result); and [Request] returns the
    handler's response, after which neither a waiter nor an unconfirmed
    entry is left for the id. *)
Theorem request_response_exchange (client server : Broker.Broker) (h : Broker.Handler)
    (payload resp id : list byte) (now : Z) :
  length id = 16%nat ->
  Bytes.len payload <= Const.MAX_MESSAGE_PAYLOAD ->
  Bytes.len resp <= Const.MAX_MESSAGE_PAYLOAD ->
  Broker.handler server = Some h ->
  h payload = Broker.Returns resp ->
  Broker.processingRequests server !! id = None ->
  Z.of_nat (length (Broker.writeChan client)) < Broker.writeChanCap ->
  Z.of_nat (length (Broker.writeChan server)) + 2 <= Broker.writeChanCap ->
  let req := Wire.frameLayout Const.payloadTypeRequest id payload in
  let acc := Wire.frameLayout Const.payloadTypeAcceptRequest id [] in
  let rsp := Wire.frameLayout Const.payloadTypeResponse id resp in
  let w_req := Broker.mkWork id Const.payloadTypeRequest payload in
  let w_acc := Broker.mkWork id Const.payloadTypeAcceptRequest [] in
  let w_rsp := Broker.mkWork id Const.payloadTypeResponse resp in
  let empty := Stash.newStash Const.DEFAULT_BROKER_CAPACITY in
  exists c c1 s1 c2 c2' c3 c4,
    Broker.Request_send Broker.SendFrame client false payload id now
    = Some (Broker.Awaiting id c, c1) /\
    Broker.writeChan c1 = Broker.writeChan client ++ [req] /\
    Reader.on_read 2 [] empty req [] false = Some (empty, [w_req]) /\
    Broker.handleWork [Broker.SendFrame; Broker.SendFrame] server w_req
    = Some (Broker.Returned, s1) /\
    Broker.writeChan s1 = Broker.writeChan server ++ [acc; rsp] /\
    Broker.processingRequests s1 = Broker.processingRequests server /\
    Reader.on_read 3 [] empty (acc ++ rsp) [] false = Some (empty, [w_acc; w_rsp]) /\
    Broker.handleWork [] c1 w_acc = Some (Broker.Returned, c2) /\
    Broker.handleWork [] c2 w_rsp = Some (Broker.Returned, c3) /\
    Broker.handleWork [] c1 w_rsp = Some (Broker.Returned, c2') /\
    Broker.handleWork [] c2' w_acc = Some (Broker.Returned, c3) /\
    Broker.Request_await Broker.RecvResponse c3 false id c = Some (Ok resp, c4) /\
    Broker.waiters c4 !! id = None /\
    Broker.unconfirmedRequests c4 !! id = None.
Proof.
  intros Hid Hp Hr Hh Hret Hproc Hroomc Hrooms req acc rsp w_req w_acc w_rsp empty.
  assert (HM : Const.MAX_MESSAGE_PAYLOAD = 26214400) by reflexivity.
  assert (HD : Const.DEFAULT_BROKER_CAPACITY = 52428800) by reflexivity.
  pose proof (len_nonneg payload) as Hp0. pose proof (len_nonneg resp) as Hr0.
  set (c := (Broker.NewWaiter client id now).1).
  set (c1 := Broker.set_writeChan (fun q => q ++ [req])
               (Broker.set_unconfirmed (insert id payload)
                  (Broker.NewWaiter client id now).2)).
  set (c2 := Broker.set_unconfirmed (delete id) c1).
  set (c2' := Broker.set_chans (insert c (Broker.mkChan (Some resp) false))
                (Broker.set_waiters (delete id) c1)).
  set (c3 := Broker.set_chans (insert c (Broker.mkChan (Some resp) false))
               (Broker.set_waiters (delete id) c2)).
  assert (Hwc1 : Broker.waiters c1 !! id = Some (Broker.mkWaiter c now)).
  { cbn. apply lookup_insert_eq. }
  assert (Hcc1 : Broker.chans c1 !! c = Some (Broker.mkChan None false)).
  { cbn. apply lookup_insert_eq. }
  exists c, c1. eexists. exists c2, c2', c3. eexists.
  split; [|split; [|split; [|split; [|split; [|split; [|split; [|split;
    [|split; [|split; [|split; [|split; [|split]]]]]]]]]]]].
  - rewrite Request_send_unfold by done.
    rewrite (writeFrame_send _ _ _ _ _ req); [done| |done].
    apply newMessage_layout; [done|lia].
  - done.
  - unfold Reader.on_read. rewrite Write_fits.
    + pose proof (processStash_frames [w_req] 2 [] [] Const.DEFAULT_BROKER_CAPACITY) as H.
      unfold encode_all in H. cbn [fmap list_fmap concat] in H.
      rewrite app_nil_r in H. apply H.
      * repeat constructor; done.
      * cbn. lia.
      * by vm_compute.
    + cbn [Stash.buf Stash.capacity empty Stash.newStash]. rewrite HD.
      unfold Bytes.len in *. cbn [length]. subst req.
      rewrite frameLayout_length by done. lia.
  - apply (handleWork_request server w_req h resp); try done; lia.
  - done.
  - done.
  - unfold Reader.on_read. rewrite Write_fits.
    + pose proof (processStash_frames [w_acc; w_rsp] 3 [] []
                    Const.DEFAULT_BROKER_CAPACITY) as H.
      unfold encode_all in H. cbn [fmap list_fmap concat] in H.
      rewrite app_nil_r in H. apply H.
      * repeat constructor; try done; by vm_compute.
      * cbn. lia.
      * by vm_compute.
    + cbn [Stash.buf Stash.capacity empty Stash.newStash]. rewrite HD.
      unfold Bytes.len in *. cbn [length]. subst acc rsp.
      rewrite length_app, !frameLayout_length by done. cbn [length]. lia.
  - by apply handleWork_accept.
  - by apply (handleWork_response [] c2 w_rsp (Broker.mkWaiter c now)).
  - by apply (handleWork_response [] c1 w_rsp (Broker.mkWaiter c now)).
  - by rewrite handleWork_accept.
  - unfold Broker.Request_await.
    assert (Hc3 : Broker.chans c3 !! c = Some (Broker.mkChan (Some resp) false)).
    { cbn. apply lookup_insert_eq. }
    by rewrite Hc3.
  - cbn. apply lookup_delete_eq.
  - cbn. apply lookup_delete_eq.
Qed.

(** Two idle brokers with the echo handler and the demo request: the
    caller receives its own payload. *)
Lemma request_response_exchange_witness :
  exists c c3 c4,
    Broker.Request_await Broker.RecvResponse c3 false Broker.demo_id c
    = Some (Ok Broker.demo_payload, c4) /\
    Broker.waiters c4 !! Broker.demo_id = None /\
    Broker.unconfirmedRequests c4 !! Broker.demo_id = None.
Proof.
  destruct (request_response_exchange (Broker.idle_broker Broker.echo)
              (Broker.idle_broker Broker.echo) Broker.echo Broker.demo_payload
              Broker.demo_payload Broker.demo_id 0)
    as (c & c1 & s1 & c2 & c2' & c3 & c4 & H); try done.
  exists c, c3, c4. tauto.
Defined.


Section RetryFacts.
Import Bytes Const Wire Stash Broker Reader.

(** A retry sends request frames of unconfirmed requests only. *)
Lemma retry_sends_unconfirmed (picks : list write_case) (b b' : Broker) (w : work)
    (e : work_end) :
  w_payloadType w = payloadTypeRetry ->
  handleWork picks b w = Some (e, b') ->
  e = Returned /\
  unconfirmedRequests b' = unconfirmedRequests b /\
  waiters b' = waiters b /\ chans b' = chans b /\
  exists sent,
    writeChan b' = writeChan b ++ sent /\
    Forall (fun frame => exists i p,
                unconfirmedRequests b !! i = Some p /\
                newMessage payloadTypeRequest i p = Ok frame) sent.
Proof.
  intros Ht H. rewrite handleWork_retry in H by done.
  destruct (retransmit picks b (map_to_list (unconfirmedRequests b))) as [b1|] eqn:Hr;
    [|done].
  injection H as <- <-.
  destruct (retransmit_keeps _ _ _ _ Hr) as (Hw & Hc & _ & _ & Hu & _ & _).
  destruct (retransmit_only _ _ _ _ Hr) as (sent & Hs & Hall).
  repeat split; try done. exists sent. split; [done|].
  eapply Forall_impl; [exact Hall|]. intros f (i & p & Hin & Hf).
  exists i, p. split; [by apply elem_of_map_to_list|done].
Qed.

End RetryFacts.

(** A response is delivered at most once: after a response frame for an id
    was handled, whatever came of it, a further response frame for the
    same id changes nothing. *)
Theorem response_delivered_at_most_once (picks1 picks2 : list Broker.write_case)
    (b b1 : Broker.Broker) (w1 w2 : Broker.work) (e : Broker.work_end) :
  Broker.w_payloadType w1 = Const.payloadTypeResponse ->
  Broker.w_payloadType w2 = Const.payloadTypeResponse ->
  Broker.w_id w2 = Broker.w_id w1 ->
  Broker.handleWork picks1 b w1 = Some (e, b1) ->
  Broker.handleWork picks2 b1 w2 = Some (Broker.Returned, b1).
Proof.
  intros Ht1 Ht2 Hid H. apply handleWork_response_dropped; [done|].
  rewrite Hid. by apply (handleWork_response_waiter picks1 b w1 e b1).
Qed.

(** The waiting broker receives the response twice, the second time with
    another payload: the slot keeps the first. *)
Lemma response_delivered_at_most_once_witness :
  Broker.handleWork []
    (Broker.mkBroker ∅ {[ 0%nat := Broker.mkChan (Some [x01]) false ]}
       (Some Broker.echo) [] ∅ {[ Broker.demo_id := Broker.demo_payload ]} false)
    (Broker.mkWork Broker.demo_id Const.payloadTypeResponse [x02])
  = Some (Broker.Returned,
          Broker.mkBroker ∅ {[ 0%nat := Broker.mkChan (Some [x01]) false ]}
            (Some Broker.echo) [] ∅ {[ Broker.demo_id := Broker.demo_payload ]} false).
Proof.
  apply (response_delivered_at_most_once [] [] Broker.waiting_broker _
           (Broker.mkWork Broker.demo_id Const.payloadTypeResponse [x01])
           (Broker.mkWork Broker.demo_id Const.payloadTypeResponse [x02])
           Broker.Returned).
  - reflexivity.
  - reflexivity.
  - reflexivity.
  - by vm_compute.
Defined.

(** When [Request] gives up waiting because a context is done, it removes
    the waiter and the unconfirmed entry of its id and touches nothing
    else; a response that arrives later is dropped, and a retry frame
    retransmits only requests that are still unconfirmed, so none with
    that id. *)
Theorem cancelled_request_forgotten (pick : Broker.await_case) (b b' : Broker.Broker)
    (caller_done : bool) (id : list byte) (c : nat) (err : broker_error) :
  Broker.Request_await pick b caller_done id c = Some (Err err, b') ->
  Broker.waiters b' = delete id (Broker.waiters b) /\
  Broker.unconfirmedRequests b' = delete id (Broker.unconfirmedRequests b) /\
  Broker.chans b' = Broker.chans b /\
  Broker.writeChan b' = Broker.writeChan b /\
  Broker.processingRequests b' = Broker.processingRequests b /\
  (forall picks w,
      Broker.w_payloadType w = Const.payloadTypeResponse ->
      Broker.w_id w = id ->
      Broker.handleWork picks b' w = Some (Broker.Returned, b')) /\
  (forall picks w e b'',
      Broker.w_payloadType w = Const.payloadTypeRetry ->
      Broker.handleWork picks b' w = Some (e, b'') ->
      exists sent,
        Broker.writeChan b'' = Broker.writeChan b' ++ sent /\
        Forall (fun frame => exists i p,
                    i <> id /\ Broker.unconfirmedRequests b !! i = Some p /\
                    Wire.newMessage Const.payloadTypeRequest i p = Ok frame) sent).
Proof.
  intros H.
  assert (Hb : b' = Broker.waiters_Delete (Broker.set_unconfirmed (delete id) b) id).
  { unfold Broker.Request_await in H. destruct pick.
    - destruct (Broker.chans b !! c) as [[[v|] [|]]|]; done.
    - destruct caller_done; [|done]. by injection H as _ <-.
    - destruct (Broker.ctx_done b); [|done]. by injection H as _ <-. }
  subst b'. repeat split; try done.
  - intros picks w Ht Hid. apply handleWork_response_dropped; [done|].
    rewrite Hid. cbn. apply lookup_delete_eq.
  - intros picks w e b'' Ht Hrun.
    destruct (retry_sends_unconfirmed _ _ _ _ _ Ht Hrun)
      as (_ & _ & _ & _ & sent & Hs & Hall).
    exists sent. split; [done|].
    eapply Forall_impl; [exact Hall|]. intros f (i & p & Hin & Hf).
    cbn in Hin. apply lookup_delete_Some in Hin as [Hne Hin].
    exists i, p. done.
Qed.

(** The caller of the waiting broker cancels. *)
Lemma cancelled_request_forgotten_witness :
  Broker.waiters (Broker.idle_broker Broker.echo)
  = delete Broker.demo_id (Broker.waiters Broker.waiting_broker) /\
  Broker.unconfirmedRequests (Broker.idle_broker Broker.echo)
  = delete Broker.demo_id (Broker.unconfirmedRequests Broker.waiting_broker).
Proof.
  destruct (cancelled_request_forgotten Broker.AwaitCtxDone Broker.waiting_broker
              (Broker.waiters_Delete
                 (Broker.set_unconfirmed (delete Broker.demo_id) Broker.waiting_broker)
                 Broker.demo_id)
              true Broker.demo_id 0 ErrCtx eq_refl) as (Hw & Hu & _).
  split; [exact Hw | exact Hu].
Defined.

(** An accept frame ends retransmission: handling it removes the id from
    the unconfirmed requests and changes nothing else, and a retry frame
    handled afterwards sends request frames of the remaining unconfirmed
    requests only. *)
Theorem accepted_request_not_retransmitted (picks : list Broker.write_case)
    (b : Broker.Broker) (w : Broker.work) :
  Broker.w_payloadType w = Const.payloadTypeAcceptRequest ->
  exists b1,
    Broker.handleWork picks b w = Some (Broker.Returned, b1) /\
    Broker.unconfirmedRequests b1 = delete (Broker.w_id w) (Broker.unconfirmedRequests b) /\
    Broker.waiters b1 = Broker.waiters b /\ Broker.chans b1 = Broker.chans b /\
    Broker.writeChan b1 = Broker.writeChan b /\
    Broker.processingRequests b1 = Broker.processingRequests b /\
    forall picks' w' e b2,
      Broker.w_payloadType w' = Const.payloadTypeRetry ->
      Broker.handleWork picks' b1 w' = Some (e, b2) ->
      exists sent,
        Broker.writeChan b2 = Broker.writeChan b1 ++ sent /\
        Forall (fun frame => exists i p,
                    i <> Broker.w_id w /\ Broker.unconfirmedRequests b !! i = Some p /\
                    Wire.newMessage Const.payloadTypeRequest i p = Ok frame) sent.
Proof.
  intros Ht. exists (Broker.set_unconfirmed (delete (Broker.w_id w)) b).
  split; [by apply handleWork_accept|]. repeat split; try done.
  intros picks' w' e b2 Ht' Hrun.
  destruct (retry_sends_unconfirmed _ _ _ _ _ Ht' Hrun)
    as (_ & _ & _ & _ & sent & Hs & Hall).
  exists sent. split; [done|].
  eapply Forall_impl; [exact Hall|]. intros f (i & p & Hin & Hf).
  cbn in Hin. apply lookup_delete_Some in Hin as [Hne Hin].
  exists i, p. done.
Qed.

(** The waiting broker receives the accept frame of its request. *)
Lemma accepted_request_not_retransmitted_witness :
  exists b1,
    Broker.handleWork [] Broker.waiting_broker
      (Broker.mkWork Broker.demo_id Const.payloadTypeAcceptRequest [])
    = Some (Broker.Returned, b1) /\
    Broker.unconfirmedRequests b1
    = delete Broker.demo_id (Broker.unconfirmedRequests Broker.waiting_broker).
Proof.
  destruct (accepted_request_not_retransmitted [] Broker.waiting_broker
              (Broker.mkWork Broker.demo_id Const.payloadTypeAcceptRequest []) eq_refl)
    as (b1 & Hrun & Hu & _).
  exists b1. split; [exact Hrun | exact Hu].
Defined.

(** ** Read loop and writer loop *)

Section LoopFacts.
Import Bytes Const Wire Stash Broker Reader Loops.

Lemma readLoop_cons (st : reader) (ev : read_event) (evs : list read_event) :
  readLoop st (ev :: evs)
  = match readLoop_iter st ev with
    | Next st' slept =>
        match readLoop st' evs with
        | Next st'' slept' => Next st'' (slept ++ slept')
        | r => r
        end
    | r => r
    end.
Proof. reflexivity. Qed.

(** One turn on a failed read without data. *)
Lemma readLoop_iter_failed (st : reader) (ev : read_event) (e : io_error) :
  ctx_done (rd_broker st) = false ->
  ev_data ev = [] ->
  ev_err ev = Some e ->
  readLoop_iter st ev
  = let n := rd_consecutiveErrors st + 1 in
    let st2 := mkReader (rd_broker st) (rd_stash st) (rd_workChan st) (rd_backoff st) n in
    if n >=? maxConsecutiveErrors then Exit st2
    else if negb (isRetryable (Some e)) then Exit st2
    else
      match writeFrame (ev_write ev) (rd_broker st) false payloadTypeRetry zero_id [] with
      | None => Block st2
      | Some (_, b') =>
          if ev_stop ev
          then Exit (mkReader (cancel b') (rd_stash st) (rd_workChan st) (rd_backoff st) n)
          else Next (mkReader b' (rd_stash st) (rd_workChan st)
                       (Z.min (rd_backoff st * 2) maxBackoff) n)
                    [rd_backoff st]
      end.
Proof.
  intros Hc Hd He. unfold readLoop_iter. rewrite Hc, Hd, He.
  change (len [] >? 0) with false. cbv iota. cbv zeta.
  destruct (_ >=? _); [done|].
  unfold isRetryable, isFatal.
  destruct (as_Errno e) as [[| |]|], (is_Canceled e), (is_DeadlineExceeded e);
    cbn [orb negb]; try done;
    destruct (writeFrame _ _ _ _ _ _) as [[r b']|]; try done;
    destruct (ev_stop ev); try done;
    unfold backoffFactor;
    destruct (Z.gtb_spec (rd_backoff st * 2) maxBackoff);
    do 2 f_equal; lia.
Qed.

Lemma writeFrame_retry (b : Broker) (cd : bool) :
  Z.of_nat (length (writeChan b)) < writeChanCap ->
  writeFrame SendFrame b cd payloadTypeRetry zero_id []
  = Some (None, set_writeChan (fun q => q ++ [retry_frame]) b).
Proof. intros H. by apply writeFrame_send. Qed.

(** While the reads fail without data the error count goes up by one per
    turn and stays below the limit as long as the loop goes on. *)
Lemma readLoop_counts (evs : list read_event) :
  forall (st st' : reader) (slept : list Z),
    Forall (fun ev => ev_data ev = [] /\ ev_err ev <> None) evs ->
    readLoop st evs = Next st' slept ->
    rd_consecutiveErrors st' = rd_consecutiveErrors st + Z.of_nat (length evs) /\
    (evs <> [] -> rd_consecutiveErrors st' < maxConsecutiveErrors).
Proof.
  induction evs as [|ev evs IH]; intros st st' slept Hall H.
  - injection H as <- _. cbn. split; [lia|done].
  - apply Forall_cons in Hall as [[Hd He] Hall].
    destruct (ev_err ev) as [e|] eqn:Hev; [|done].
    rewrite readLoop_cons in H.
    destruct (ctx_done (rd_broker st)) eqn:Hc.
    { unfold readLoop_iter in H. by rewrite Hc in H. }
    rewrite (readLoop_iter_failed st ev e) in H by done. cbv zeta in H.
    destruct (Z.geb_spec (rd_consecutiveErrors st + 1) maxConsecutiveErrors); [done|].
    destruct (negb _); [done|].
    destruct (writeFrame _ _ _ _ _ _) as [[r b']|]; [|done].
    destruct (ev_stop ev); [done|].
    destruct (readLoop _ evs) as [| st'' slept'' |] eqn:Hrun; try done.
    injection H as <- _.
    apply IH in Hrun as [Hn Hlt]; [|done]. cbn [rd_consecutiveErrors] in *.
    cbn [length]. split; [lia|]. intros _.
    destruct evs; [cbn in *; lia|]. by apply Hlt.
Qed.

(** With the send case taken and room in the write channel the loop does
    not wait in [writeFrame]. *)
Lemma readLoop_no_block (evs : list read_event) :
  forall st : reader,
    Forall (fun ev => ev_data ev = [] /\ ev_err ev <> None /\ ev_write ev = SendFrame) evs ->
    0 <= rd_consecutiveErrors st ->
    Z.of_nat (length (writeChan (rd_broker st))) + (9 - rd_consecutiveErrors st)
    <= writeChanCap ->
    forall st', readLoop st evs <> Block st'.
Proof.
  induction evs as [|ev evs IH]; intros st Hall H0 Hroom st'; [done|].
  apply Forall_cons in Hall as [(Hd & He & Hw) Hall].
  destruct (ev_err ev) as [e|] eqn:Hev; [|done].
  rewrite readLoop_cons.
  destruct (ctx_done (rd_broker st)) eqn:Hc.
  { unfold readLoop_iter. by rewrite Hc. }
  rewrite (readLoop_iter_failed st ev e) by done. cbv zeta.
  unfold maxConsecutiveErrors in *.
  destruct (Z.geb_spec (rd_consecutiveErrors st + 1) 10); [done|].
  destruct (negb _); [done|].
  rewrite Hw, writeFrame_retry by lia.
  destruct (ev_stop ev); [done|].
  match goal with |- context [readLoop ?s evs] =>
    pose proof (IH s Hall) as IH'; destruct (readLoop s evs) eqn:Hrun end; try done.
  cbn [rd_consecutiveErrors rd_broker writeChan set_writeChan] in IH'.
  rewrite length_app in IH'. cbn [length] in IH'.
  intros [= <-]. by eapply IH'; [lia|lia|].
Qed.

(** The backoff after [j] doublings. *)
Lemma backoff_double (j : Z) :
  0 <= j ->
  Z.min (Z.min (initialBackoff * 2 ^ j) maxBackoff * 2) maxBackoff
  = Z.min (initialBackoff * 2 ^ (j + 1)) maxBackoff.
Proof.
  intros Hj. rewrite Z.pow_add_r by lia. change (2 ^ 1) with 2.
  assert (0 < 2 ^ j) by (apply Z.pow_pos_nonneg; lia).
  unfold initialBackoff, maxBackoff, Second, Millisecond. lia.
Qed.

Lemma readLoop_schedule (evs : list read_event) :
  forall (st : reader) (j : Z),
    ctx_done (rd_broker st) = false ->
    Forall (fun ev => ev_data ev = [] /\ isRetryable (ev_err ev) = true /\
                      ev_write ev = SendFrame /\ ev_stop ev = false) evs ->
    0 <= j ->
    rd_backoff st = Z.min (initialBackoff * 2 ^ j) maxBackoff ->
    rd_consecutiveErrors st + Z.of_nat (length evs) < maxConsecutiveErrors ->
    Z.of_nat (length (writeChan (rd_broker st))) + Z.of_nat (length evs) <= writeChanCap ->
    readLoop st evs
    = Next (mkReader
              (set_writeChan (fun q => q ++ replicate (length evs) retry_frame)
                 (rd_broker st))
              (rd_stash st) (rd_workChan st)
              (Z.min (initialBackoff * 2 ^ (j + Z.of_nat (length evs))) maxBackoff)
              (rd_consecutiveErrors st + Z.of_nat (length evs)))
           ((fun i => Z.min (initialBackoff * 2 ^ (j + Z.of_nat i)) maxBackoff)
              <$> seq 0 (length evs)).
Proof.
  induction evs as [|ev evs IH]; intros st j Hc Hall Hj Hb Hn Hroom.
  - destruct st as [[w c h wc p u d] s q bo n].
    unfold set_writeChan. cbn in Hb |- *. by rewrite !Z.add_0_r, app_nil_r, Hb.
  - apply Forall_cons in Hall as [(Hd & Hr & Hw & Hs) Hall].
    destruct (ev_err ev) as [e|] eqn:Hev; [|done].
    cbn [length] in Hn, Hroom.
    rewrite readLoop_cons, (readLoop_iter_failed st ev e) by done. cbv zeta.
    destruct (Z.geb_spec (rd_consecutiveErrors st + 1) maxConsecutiveErrors); [lia|].
    rewrite Hr, Hw, writeFrame_retry, Hs by lia. cbn [negb].
    rewrite (IH _ (j + 1)); cbn [rd_broker rd_stash rd_workChan rd_backoff
                                   rd_consecutiveErrors ctx_done set_writeChan writeChan].
    + cbn [length seq fmap list_fmap app].
      replace (j + 1 + Z.of_nat (length evs)) with (j + Z.of_nat (S (length evs))) by lia.
      replace (rd_consecutiveErrors st + 1 + Z.of_nat (length evs))
        with (rd_consecutiveErrors st + Z.of_nat (S (length evs))) by lia.
      f_equal.
      * f_equal. unfold set_writeChan. cbn. f_equal. by rewrite <- app_assoc.
      * rewrite Z.add_0_r, Hb. f_equal.
        rewrite <- seq_shift, <- list_fmap_compose. apply list_fmap_ext.
        intros _ i _. cbn [compose]. by replace (j + 1 + Z.of_nat i) with (j + Z.of_nat (S i)) by lia.
    + done.
    + done.
    + lia.
    + rewrite Hb. by apply backoff_double.
    + lia.
    + rewrite length_app. cbn [length]. lia.
Qed.

End LoopFacts.


Section WriterFacts.
Import Bytes Const Wire Stash Broker Reader Loops.

Lemma writerLoop_cons (st : writer) (ev : write_event) (evs : list write_event) :
  writerLoop st (ev :: evs)
  = match writerLoop_iter st ev with
    | Next st' slept =>
        match writerLoop st' evs with
        | Next st'' slept' => Next st'' (slept ++ slept')
        | r => r
        end
    | r => r
    end.
Proof. reflexivity. Qed.

(** One turn keeps the frames and only adds to what was written. *)
Lemma writerLoop_iter_frames (st : writer) (ev : write_event) :
  frames (final (writerLoop_iter st ev)) = frames st /\
  wr_written st `prefix_of` wr_written (final (writerLoop_iter st ev)).
Proof.
  unfold writerLoop_iter.
  destruct st as [b [data|] bo n written];
    cbn [wr_data wr_broker wr_backoff wr_consecutiveErrors wr_written].
  2: destruct (writeChan b) as [|data rest] eqn:Hq.
  all: destruct (ctx_done b) eqn:Hc; cbn [andb];
    try destruct (wev_prefer_done ev);
    cbn [set_writeChan ctx_done]; rewrite ?Hc;
    try destruct (wev_err ev) as [e|];
    try destruct (_ >=? _); try destruct (isFatal _); try destruct (_ || _);
    try destruct (wev_stop ev);
    unfold frames; cbn; rewrite ?Hq, <- ?app_assoc;
    (split; [done | first [done | by apply prefix_app_r]]).
Qed.

Lemma final_writerLoop_cons (st : writer) (ev : write_event) (evs : list write_event) :
  final (writerLoop st (ev :: evs))
  = match writerLoop_iter st ev with
    | Next st' _ => final (writerLoop st' evs)
    | r => final r
    end.
Proof.
  rewrite writerLoop_cons. destruct (writerLoop_iter st ev); [done| |done].
  by destruct (writerLoop _ evs).
Qed.

(** One call of [WriteContext] that fails, with a frame in hand or in the
    queue and the context alive. *)
Lemma writerLoop_iter_failed (b : Broker) (data : list byte) (bo n : Z)
    (written : list (list byte)) (ev : write_event) (e : io_error) :
  ctx_done b = false ->
  wev_err ev = Some e ->
  writerLoop_iter (mkWriter b (Some data) bo n written) ev
  = if n + 1 >=? maxConsecutiveErrors then Exit (mkWriter b (Some data) bo (n + 1) written)
    else if negb (isRetryable (Some e))
    then Exit (mkWriter b (Some data) bo (n + 1) written)
    else if wev_stop ev
    then Exit (mkWriter (cancel b) (Some data) bo (n + 1) written)
    else Next (mkWriter b (Some data) (Z.min (bo * 2) maxBackoff) (n + 1) written) [bo].
Proof.
  intros Hc He. unfold writerLoop_iter.
  cbn [wr_data wr_broker wr_backoff wr_consecutiveErrors wr_written].
  rewrite Hc, He. destruct (_ >=? _); [done|].
  unfold isRetryable, isFatal.
  destruct (as_Errno e) as [[| |]|], (is_Canceled e), (is_DeadlineExceeded e);
    cbn [orb negb]; try done;
    destruct (wev_stop ev); try done;
    unfold backoffFactor; destruct (Z.gtb_spec (bo * 2) maxBackoff);
    do 2 f_equal; lia.
Qed.

(** Taking the next frame from the queue. *)
Lemma writerLoop_iter_take (b : Broker) (data : list byte) (rest : list (list byte))
    (bo n : Z) (written : list (list byte)) (ev : write_event) :
  ctx_done b = false ->
  writeChan b = data :: rest ->
  writerLoop_iter (mkWriter b None bo n written) ev
  = writerLoop_iter (mkWriter (set_writeChan (fun _ => rest) b) (Some data) bo n written) ev.
Proof.
  intros Hc Hq. unfold writerLoop_iter.
  cbn [wr_data wr_broker wr_backoff wr_consecutiveErrors wr_written].
  by rewrite Hq, Hc.
Qed.

Lemma writerLoop_retries (evs : list write_event) :
  forall (b : Broker) (data : list byte) (bo n j : Z) (written : list (list byte)),
    ctx_done b = false ->
    Forall (fun ev => isRetryable (wev_err ev) = true /\ wev_stop ev = false) evs ->
    0 <= j ->
    bo = Z.min (initialBackoff * 2 ^ j) maxBackoff ->
    n + Z.of_nat (length evs) < maxConsecutiveErrors ->
    writerLoop (mkWriter b (Some data) bo n written) evs
    = Next (mkWriter b (Some data)
              (Z.min (initialBackoff * 2 ^ (j + Z.of_nat (length evs))) maxBackoff)
              (n + Z.of_nat (length evs)) written)
           ((fun i => Z.min (initialBackoff * 2 ^ (j + Z.of_nat i)) maxBackoff)
              <$> seq 0 (length evs)).
Proof.
  induction evs as [|ev evs IH]; intros b data bo n j written Hc Hall Hj Hb Hn.
  - cbn. by rewrite !Z.add_0_r, Hb.
  - apply Forall_cons in Hall as [(Hr & Hs) Hall].
    destruct (wev_err ev) as [e|] eqn:Hev; [|done].
    cbn [length] in Hn.
    rewrite writerLoop_cons, (writerLoop_iter_failed _ _ _ _ _ _ e) by done.
    destruct (Z.geb_spec (n + 1) maxConsecutiveErrors); [lia|].
    rewrite Hr, Hs. cbn [negb].
    rewrite (IH _ _ _ _ (j + 1)); try done; try lia.
    + cbn [length seq fmap list_fmap app].
      replace (j + 1 + Z.of_nat (length evs)) with (j + Z.of_nat (S (length evs))) by lia.
      replace (n + 1 + Z.of_nat (length evs)) with (n + Z.of_nat (S (length evs))) by lia.
      f_equal. rewrite Z.add_0_r, Hb. f_equal.
      rewrite <- seq_shift, <- list_fmap_compose. apply list_fmap_ext.
      intros _ i _. cbn [compose].
      by replace (j + 1 + Z.of_nat i) with (j + Z.of_nat (S i)) by lia.
    + rewrite Hb. by apply backoff_double.
Qed.

(** A run that goes on, followed by one more turn. *)
Lemma writerLoop_snoc (evs : list write_event) :
  forall (st st1 : writer) (slept1 : list Z) (ev : write_event),
    writerLoop st evs = Next st1 slept1 ->
    writerLoop st (evs ++ [ev])
    = match writerLoop_iter st1 ev with
      | Next st2 slept2 => Next st2 (slept1 ++ slept2)
      | r => r
      end.
Proof.
  induction evs as [|ev1 evs IH]; intros st st1 slept1 ev H1.
  - injection H1 as <- <-. cbn [app]. rewrite writerLoop_cons.
    destruct (writerLoop_iter st ev); try done.
    cbn [writerLoop app]. by rewrite app_nil_r.
  - cbn [app]. rewrite writerLoop_cons in H1 |- *.
    destruct (writerLoop_iter st ev1) as [|st' slept'|]; try done.
    destruct (writerLoop st' evs) as [|st'' slept''|] eqn:H2; try done.
    injection H1 as <- <-. rewrite (IH _ _ _ ev H2).
    destruct (writerLoop_iter st'' ev); try done. by rewrite app_assoc.
Qed.

End WriterFacts.


(** The read loop gives up on a dead endpoint: over ten consecutive reads
    that fail without delivering data it does not go on, whatever the
    errors are and whatever it did before; and when the retry frames find
    room in the write channel it has returned by the tenth. *)
Theorem readLoop_gives_up (st : Loops.reader) (evs : list Loops.read_event) :
  0 <= Loops.rd_consecutiveErrors st ->
  length evs = 10%nat ->
  Forall (fun ev => Loops.ev_data ev = [] /\ Loops.ev_err ev <> None) evs ->
  (forall st' slept, Loops.readLoop st evs <> Loops.Next st' slept) /\
  (Forall (fun ev => Loops.ev_write ev = Broker.SendFrame) evs ->
   Z.of_nat (length (Broker.writeChan (Loops.rd_broker st))) + 9 <= Broker.writeChanCap ->
   exists st', Loops.readLoop st evs = Loops.Exit st').
Proof.
  intros H0 Hlen Hall.
  assert (Hnext : forall st' slept, Loops.readLoop st evs <> Loops.Next st' slept).
  { intros st' slept Hrun.
    destruct (readLoop_counts evs st st' slept Hall Hrun) as [Hn Hlt].
    rewrite Hlen in Hn. unfold Loops.maxConsecutiveErrors in Hlt.
    assert (evs <> []) as Hne by (by destruct evs).
    specialize (Hlt Hne). lia. }
  split; [done|]. intros Hsend Hroom.
  assert (Hall' : Forall (fun ev => Loops.ev_data ev = [] /\ Loops.ev_err ev <> None /\
                                    Loops.ev_write ev = Broker.SendFrame) evs).
  { rewrite Forall_forall in *. intros ev Hin.
    destruct (Hall ev Hin). by specialize (Hsend ev Hin). }
  pose proof (readLoop_no_block evs st Hall' H0 ltac:(lia)) as Hblock.
  destruct (Loops.readLoop st evs) as [st'|st' slept|st'] eqn:Hrun.
  - by exists st'.
  - by destruct (Hnext st' slept).
  - by destruct (Hblock st').
Qed.

(** Ten reads that fail with a plain error, from the start of the loop. *)
Lemma readLoop_gives_up_witness :
  exists st',
    Loops.readLoop
      (Loops.newReader (Broker.idle_broker Broker.echo) (Stash.newStash 64) [])
      (replicate 10 (Loops.failed_read (Loops.mkError None false false)))
    = Loops.Exit st'.
Proof.
  destruct (readLoop_gives_up
              (Loops.newReader (Broker.idle_broker Broker.echo) (Stash.newStash 64) [])
              (replicate 10 (Loops.failed_read (Loops.mkError None false false))))
    as [_ H].
  - done.
  - reflexivity.
  - repeat constructor; done.
  - apply H.
    + repeat constructor.
    + by vm_compute.
Defined.

(** The backoff of the read loop: from its start, [k] consecutive reads
    ([k] at most 9) that fail without data with an error [isRetryable]
    accepts make the loop queue [k] retry frames and sleep 10 ms, 20 ms,
    40 ms, ..., doubling up to the cap of one second; the stash and the
    work channel are untouched. *)
Theorem readLoop_backoff_schedule (b : Broker.Broker) (s : Stash.stash)
    (workChan : list Broker.work) (evs : list Loops.read_event) :
  Broker.ctx_done b = false ->
  Forall (fun ev => Loops.ev_data ev = [] /\ Loops.isRetryable (Loops.ev_err ev) = true /\
                    Loops.ev_write ev = Broker.SendFrame /\ Loops.ev_stop ev = false) evs ->
  (length evs <= 9)%nat ->
  Z.of_nat (length (Broker.writeChan b)) + Z.of_nat (length evs) <= Broker.writeChanCap ->
  Loops.readLoop (Loops.newReader b s workChan) evs
  = Loops.Next
      (Loops.mkReader
         (Broker.set_writeChan (fun q => q ++ replicate (length evs) Loops.retry_frame) b)
         s workChan
         (Z.min (Loops.initialBackoff * 2 ^ Z.of_nat (length evs)) Loops.maxBackoff)
         (Z.of_nat (length evs)))
      ((fun i => Z.min (Loops.initialBackoff * 2 ^ Z.of_nat i) Loops.maxBackoff)
         <$> seq 0 (length evs)).
Proof.
  intros Hc Hall Hk Hroom.
  rewrite (readLoop_schedule evs (Loops.newReader b s workChan) 0); try done.
  - unfold Loops.maxConsecutiveErrors. cbn. lia.
Qed.

(** Nine failed reads: the sleeps, in nanoseconds. *)
Lemma readLoop_backoff_schedule_witness :
  Loops.readLoop
    (Loops.newReader (Broker.idle_broker Broker.echo) (Stash.newStash 64) [])
    (replicate 9 (Loops.failed_read (Loops.mkError (Some Loops.EOTHER) false false)))
  = Loops.Next
      (Loops.mkReader
         (Broker.set_writeChan (fun q => q ++ replicate 9 Loops.retry_frame)
            (Broker.idle_broker Broker.echo))
         (Stash.newStash 64) [] 1000000000 9)
      [10000000; 20000000; 40000000; 80000000; 160000000; 320000000; 640000000;
       1000000000; 1000000000].
Proof.
  apply (readLoop_backoff_schedule (Broker.idle_broker Broker.echo) (Stash.newStash 64) []
           (replicate 9 (Loops.failed_read (Loops.mkError (Some Loops.EOTHER) false false)))).
  - reflexivity.
  - repeat constructor.
  - cbn. lia.
  - by vm_compute.
Defined.

(** A read that delivers data resets the error count and the backoff
    before its own error is counted: after it the count is 0, or 1 when
    the read also reported an error, and the loop does not stop on the
    error limit, however many errors came before. *)
Theorem read_with_data_resets (st : Loops.reader) (ev : Loops.read_event) :
  Broker.ctx_done (Loops.rd_broker st) = false ->
  Loops.ev_data ev <> [] ->
  Loops.rd_consecutiveErrors (Loops.final (Loops.readLoop_iter st ev))
  = match Loops.ev_err ev with Some _ => 1 | None => 0 end /\
  (forall st' slept,
      Loops.readLoop_iter st ev = Loops.Next st' slept ->
      (Loops.ev_err ev = None /\ slept = [] /\
       Loops.rd_backoff st' = Loops.initialBackoff) \/
      (slept = [Loops.initialBackoff] /\
       Loops.rd_backoff st' = 2 * Loops.initialBackoff)) /\
  (Loops.isRetryable (Loops.ev_err ev) = true -> Loops.ev_stop ev = false ->
   forall st', Loops.readLoop_iter st ev <> Loops.Exit st').
Proof.
  intros Hc Hd. unfold Loops.readLoop_iter. rewrite Hc.
  assert (Hlen : (Bytes.len (Loops.ev_data ev) >? 0) = true).
  { destruct (Loops.ev_data ev); [done|]. by cbn. }
  rewrite Hlen.
  set (s1 := (Stash.Write (Loops.rd_stash st) (Loops.ev_data ev)).1).
  destruct (processStash_returns (S (length (Stash.buf s1))) (Loops.ev_picks ev) s1
              (Loops.rd_workChan st) false ltac:(lia)) as (s' & new & -> & _).
  cbv zeta. cbn [Loops.rd_consecutiveErrors Loops.rd_backoff Loops.rd_stash
                   Loops.rd_workChan].
  destruct (Loops.ev_err ev) as [e|]; [|cbn; split; [done|split; [|done]]].
  2:{ intros st' slept [= <- <-]. by left. }
  change (0 + 1 >=? Loops.maxConsecutiveErrors) with false. cbv iota.
  unfold Loops.isRetryable.
  destruct (Loops.isFatal (Some e)).
  { cbn. split; [done|]. split; [done|]. by destruct (_ || _). }
  destruct (Loops.is_Canceled e || Loops.is_DeadlineExceeded e).
  { cbn. done. }
  destruct (Broker.writeFrame _ _ _ _ _ _) as [[r b']|].
  2:{ cbn. done. }
  destruct (Loops.ev_stop ev).
  { cbn. done. }
  cbn. split; [done|]. split; [|done].
  intros st' slept [= <- <-]. right. by vm_compute.
Qed.

(** A read of one byte that also reports an error, after nine errors. *)
Lemma read_with_data_resets_witness :
  Loops.rd_consecutiveErrors
    (Loops.final
       (Loops.readLoop_iter
          (Loops.mkReader (Broker.idle_broker Broker.echo) (Stash.newStash 64) []
             Loops.maxBackoff 9)
          (Loops.mkReadEvent [x00] (Some (Loops.mkError None false false)) []
             Broker.SendFrame false)))
  = 1.
Proof.
  destruct (read_with_data_resets
              (Loops.mkReader (Broker.idle_broker Broker.echo) (Stash.newStash 64) []
                 Loops.maxBackoff 9)
              (Loops.mkReadEvent [x00] (Some (Loops.mkError None false false)) []
                 Broker.SendFrame false)) as [H _].
  - reflexivity.
  - discriminate.
  - exact H.
Defined.

(** The writer loop neither loses, reorders nor repeats a frame: over any
    run, however it ends, the frames written, the frame in hand and the
    frames still queued are together the same sequence as before, and
    what was written before stays written. *)
Theorem writerLoop_keeps_frames (st : Loops.writer) (evs : list Loops.write_event) :
  Loops.frames (Loops.final (Loops.writerLoop st evs)) = Loops.frames st /\
  Loops.wr_written st `prefix_of` Loops.wr_written (Loops.final (Loops.writerLoop st evs)).
Proof.
  revert st. induction evs as [|ev evs IH]; intros st; [done|].
  rewrite final_writerLoop_cons.
  destruct (writerLoop_iter_frames st ev) as [Hf Hp].
  destruct (Loops.writerLoop_iter st ev) as [st'|st' slept|st']; [done| |done].
  cbn [Loops.final] in Hf, Hp. destruct (IH st') as [Hf' Hp'].
  split; [congruence|]. by etrans.
Qed.

(** A frame whose write fails and then succeeds is written once: with the
    context alive, [k] failures ([k] at most 9) that [isRetryable]
    accepts followed by a success leave the head of the queue written
    behind what was written before, the rest of the queue in place and
    the counters reset, after sleeps of 10 ms, 20 ms, 40 ms, ... up to
    the cap of one second. *)
Theorem writerLoop_retries_frame (b : Broker.Broker) (data : list byte)
    (rest : list (list byte)) (evs : list Loops.write_event) (ok : Loops.write_event) :
  Broker.ctx_done b = false ->
  Broker.writeChan b = data :: rest ->
  Forall (fun ev => Loops.isRetryable (Loops.wev_err ev) = true /\
                    Loops.wev_stop ev = false) evs ->
  (length evs <= 9)%nat ->
  Loops.wev_err ok = None ->
  Loops.writerLoop (Loops.newWriter b) (evs ++ [ok])
  = Loops.Next
      (Loops.mkWriter (Broker.set_writeChan (fun _ => rest) b) None
         Loops.initialBackoff 0 [data])
      ((fun i => Z.min (Loops.initialBackoff * 2 ^ Z.of_nat i) Loops.maxBackoff)
         <$> seq 0 (length evs)).
Proof.
  intros Hc Hq Hall Hk Hok.
  set (b1 := Broker.set_writeChan (fun _ => rest) b).
  assert (Hc1 : Broker.ctx_done b1 = false) by done.
  assert (Hlast : forall bo n,
             Loops.writerLoop_iter (Loops.mkWriter b1 (Some data) bo n []) ok
             = Loops.Next (Loops.mkWriter b1 None Loops.initialBackoff 0 [data]) []).
  { intros bo n. unfold Loops.writerLoop_iter.
    cbn [Loops.wr_data Loops.wr_broker Loops.wr_backoff Loops.wr_consecutiveErrors
           Loops.wr_written].
    by rewrite Hc1, Hok. }
  destruct evs as [|ev evs].
  - cbn [app length seq fmap list_fmap]. rewrite writerLoop_cons.
    unfold Loops.newWriter. rewrite (writerLoop_iter_take b data rest) by done.
    fold b1. by rewrite Hlast.
  - cbn [app]. rewrite writerLoop_cons. unfold Loops.newWriter.
    rewrite (writerLoop_iter_take b data rest) by done. fold b1.
    apply Forall_cons in Hall as [(Hr & Hs) Hall].
    destruct (Loops.wev_err ev) as [e|] eqn:Hev; [|done].
    rewrite (writerLoop_iter_failed _ _ _ _ _ _ e) by done.
    change (0 + 1 >=? Loops.maxConsecutiveErrors) with false. cbv iota.
    rewrite Hr, Hs. cbn [negb]. cbn [length] in Hk.
    pose proof (writerLoop_retries evs b1 data
                  (Z.min (Loops.initialBackoff * 2) Loops.maxBackoff) (0 + 1) 1 []
                  Hc1 Hall ltac:(lia) eq_refl) as Hrun.
    unfold Loops.maxConsecutiveErrors in Hrun. specialize (Hrun ltac:(lia)).
    rewrite (writerLoop_snoc _ _ _ _ _ Hrun), Hlast. cbv beta iota. rewrite app_nil_r.
    cbn [length seq fmap list_fmap app]. f_equal. f_equal.
    rewrite <- seq_shift, <- list_fmap_compose. apply list_fmap_ext.
    intros _ i _. cbn [compose].
    by replace (1 + Z.of_nat i) with (Z.of_nat (S i)) by lia.
Qed.

(** Two failed writes, then a success. *)
Lemma writerLoop_retries_frame_witness :
  Loops.writerLoop
    (Loops.newWriter
       (Broker.mkBroker ∅ ∅ (Some Broker.echo) [Loops.retry_frame; [x01]] ∅ ∅ false))
    (replicate 2 (Loops.mkWriteEvent (Some (Loops.mkError None false false)) false false)
     ++ [Loops.mkWriteEvent None false false])
  = Loops.Next
      (Loops.mkWriter
         (Broker.set_writeChan (fun _ => [[x01]])
            (Broker.mkBroker ∅ ∅ (Some Broker.echo) [Loops.retry_frame; [x01]] ∅ ∅ false))
         None Loops.initialBackoff 0 [Loops.retry_frame])
      [10000000; 20000000].
Proof.
  apply (writerLoop_retries_frame
           (Broker.mkBroker ∅ ∅ (Some Broker.echo) [Loops.retry_frame; [x01]] ∅ ∅ false)
           Loops.retry_frame [[x01]]
           (replicate 2 (Loops.mkWriteEvent (Some (Loops.mkError None false false))
                           false false))
           (Loops.mkWriteEvent None false false)).
  - reflexivity.
  - reflexivity.
  - repeat constructor.
  - cbn. lia.
  - reflexivity.
Defined.

(** ** Base58 and Base58Check: encoding and decoding *)

Section Base58Facts.
Import Bytes Base58 Base58Enc.

Lemma digits_value_snoc (ds : list Z) (d : Z) : digits_value (ds ++ [d]) = digits_value ds * 58 + d.
Proof. unfold digits_value. by rewrite fold_left_app. Qed.

Lemma digits_value_bound (ds : list Z) :
  Forall (fun d => 0 <= d < 58) ds -> 0 <= digits_value ds < 58 ^ Z.of_nat (length ds).
Proof.
  induction ds as [|d ds IH] using rev_ind; intros H; [cbn; lia|].
  apply Forall_app in H as [Hds Hd]. apply Forall_inv in Hd.
  rewrite digits_value_snoc, length_app, Nat2Z.inj_add, Z.pow_add_r by lia.
  specialize (IH Hds). cbn [length]. change (58 ^ Z.of_nat 1) with 58.
  generalize dependent (58 ^ Z.of_nat (length ds)). intros X IH. lia.
Qed.

Lemma to_digits_spec (fuel : nat) :
  forall (n : Z) (acc : list Z),
    0 <= n < 58 ^ Z.of_nat fuel ->
    exists ds,
      to_digits fuel n acc = ds ++ acc /\
      Forall (fun d => 0 <= d < 58) ds /\
      digits_value ds = n /\
      (ds = [] \/ exists d ds', ds = d :: ds' /\ d <> 0).
Proof.
  induction fuel as [|fuel IH]; intros n acc Hn.
  - exists []. change (58 ^ Z.of_nat 0) with 1 in Hn.
    repeat split; [done|cbn; lia|by left].
  - cbn [to_digits]. destruct (Z.leb_spec n 0) as [H0|Hpos].
    { exists []. repeat split; [done|cbn; lia|by left]. }
    rewrite Nat2Z.inj_succ, Z.pow_succ_r in Hn by lia.
    destruct (IH (n / 58) (n mod 58 :: acc)) as (ds & Hds & Hall & Hval & Hhd).
    { split; [apply Z.div_pos; lia | apply Z.div_lt_upper_bound; lia]. }
    exists (ds ++ [n mod 58]). split; [by rewrite Hds, <- app_assoc|].
    split.
    { apply Forall_app. split; [done|]. apply Forall_singleton.
      apply Z.mod_pos_bound. lia. }
    split.
    { rewrite digits_value_snoc, Hval. pose proof (Z.div_mod n 58 ltac:(lia)). lia. }
    right. destruct Hhd as [-> | (d & ds' & -> & Hd)].
    + exists (n mod 58), []. split; [done|].
      cbn in Hval. pose proof (Z.div_mod n 58 ltac:(lia)). lia.
    + by exists d, (ds' ++ [n mod 58]).
Qed.

Lemma be_value_snoc (b : list byte) (x : byte) :
  be_value (b ++ [x]) = be_value b * 256 + to_Z x.
Proof. unfold be_value. by rewrite fold_left_app. Qed.

Lemma be_value_upper (b : list byte) : 0 <= be_value b < 256 ^ Z.of_nat (length b).
Proof.
  induction b as [|x b IH] using rev_ind; [cbn; lia|].
  rewrite be_value_snoc, length_app, Nat2Z.inj_add, Z.pow_add_r by lia.
  pose proof (to_Z_range x). cbn [length]. change (256 ^ Z.of_nat 1) with 256.
  generalize dependent (256 ^ Z.of_nat (length b)). intros X IH. lia.
Qed.

Lemma to_Z_zero (x : byte) : to_Z x = 0 -> x = x00.
Proof. intros H. by apply to_Z_inj. Qed.

Lemma be_value_lower (b : list byte) :
  canonical b -> b <> [] -> 256 ^ (Z.of_nat (length b) - 1) <= be_value b.
Proof.
  induction b as [|x b IH] using rev_ind; intros Hc Hne; [done|].
  rewrite be_value_snoc, length_app. cbn [length]. pose proof (to_Z_range x).
  destruct b as [|y b].
  - cbn. destruct Hc as [?|(x' & b' & [= <- <-] & Hx)]; [done|].
    assert (to_Z x <> 0) by (intros ?; by apply Hx, to_Z_zero). lia.
  - assert (Hc' : canonical (y :: b)).
    { right. destruct Hc as [?|(x' & b' & [= <- <-] & Hx)]; [done|]. by exists y, b. }
    specialize (IH Hc' ltac:(done)). cbn [length] in *.
    replace (Z.of_nat (S (length b) + 1) - 1) with (Z.of_nat (S (length b)) - 1 + 1) by lia.
    rewrite Z.pow_add_r by lia. change (256 ^ 1) with 256. lia.
Qed.

Lemma be_bytes_zero (fuel : nat) (acc : list byte) : be_bytes fuel 0 acc = acc.
Proof. by destruct fuel. Qed.

Lemma be_bytes_spec (b : list byte) :
  forall (fuel : nat) (acc : list byte),
    (length b <= fuel)%nat -> canonical b ->
    be_bytes fuel (be_value b) acc = b ++ acc.
Proof.
  induction b as [|x b IH] using rev_ind; intros fuel acc Hf Hc.
  - apply be_bytes_zero.
  - rewrite length_app in Hf. cbn [length] in Hf.
    destruct fuel as [|fuel]; [lia|]. cbn [be_bytes].
    pose proof (be_value_lower (b ++ [x]) Hc ltac:(by destruct b)) as Hlow.
    assert (0 < 256 ^ (Z.of_nat (length (b ++ [x])) - 1)).
    { apply Z.pow_pos_nonneg; [lia|]. rewrite length_app. cbn. lia. }
    destruct (Z.leb_spec (be_value (b ++ [x])) 0); [lia|].
    rewrite be_value_snoc. pose proof (to_Z_range x).
    replace ((be_value b * 256 + to_Z x) / 256) with (be_value b)
      by (apply Z.div_unique with (to_Z x); lia).
    replace (of_Z (be_value b * 256 + to_Z x)) with x.
    2:{ apply to_Z_inj. rewrite to_Z_of_Z.
        apply Z.mod_unique with (be_value b); lia. }
    rewrite IH; [by rewrite <- app_assoc|lia|].
    destruct b as [|y b]; [by left|]. right.
    destruct Hc as [?|(x' & b' & [= <- <-] & Hx)]; [done|]. by exists y, b.
Qed.

Lemma be_value_zeros (z : nat) (b : list byte) :
  be_value (replicate z x00 ++ b) = be_value b.
Proof. induction z as [|z IH]; [done|]. exact IH. Qed.

Lemma leading_zero_split (b : list byte) :
  exists b', b = replicate (leading_zero_bytes b) x00 ++ b' /\ canonical b'.
Proof.
  induction b as [|x b (b' & Hb & Hc)]; [exists []; split; [done|by left]|].
  cbn [leading_zero_bytes]. destruct (Bytes.eqb x x00) eqn:E.
  - apply eqb_eq in E as ->. exists b'. split; [|done]. cbn. by f_equal.
  - exists (x :: b). split; [done|]. right. exists x, b. split; [done|].
    intros ->. by rewrite eqb_refl in E.
Qed.

(** Every digit's character decodes to the digit. *)
Lemma digit_alphabet (d : Z) :
  0 <= d < 58 ->
  digit (at_ (String.list_byte_of_string alphabet) (Z.to_nat d)) = Some d.
Proof.
  intros Hd.
  assert (H : Forall (fun k => digit (at_ (String.list_byte_of_string alphabet) k)
                               = Some (Z.of_nat k)) (seq 0 58)).
  { repeat constructor. }
  rewrite Forall_forall in H. rewrite (H (Z.to_nat d)).
  - f_equal. lia.
  - apply elem_of_seq. lia.
Qed.

Lemma digits_alphabet (ds : list Z) :
  Forall (fun d => 0 <= d < 58) ds ->
  digits ((fun d => at_ (String.list_byte_of_string alphabet) (Z.to_nat d)) <$> ds)
  = Some ds.
Proof.
  induction 1 as [|d ds Hd _ IH]; [done|].
  cbn [fmap list_fmap digits]. cbn [fmap] in IH. by rewrite digit_alphabet, IH.
Qed.

Lemma digits_ones (z : nat) (s : list byte) (ds : list Z) :
  digits s = Some ds ->
  digits (replicate z x31 ++ s) = Some (replicate z 0 ++ ds).
Proof.
  intros H. induction z as [|z IH]; [done|].
  cbn [replicate app digits]. rewrite IH. done.
Qed.

Lemma leading_zeros_replicate (z : nat) (ds : list Z) :
  (ds = [] \/ exists d ds', ds = d :: ds' /\ d <> 0) ->
  leading_zeros (replicate z 0 ++ ds) = z.
Proof.
  intros H. induction z as [|z IH]; [|cbn; by rewrite IH].
  destruct H as [-> | (d & ds' & -> & Hd)]; [done|].
  cbn. by destruct (Z.eqb_spec d 0).
Qed.

Lemma digits_value_zeros (z : nat) (ds : list Z) : digits_value (replicate z 0 ++ ds) = digits_value ds.
Proof. induction z as [|z IH]; [done|]. exact IH. Qed.

(** Decoding inverts encoding, on every non-empty byte string. *)
Lemma Decode_Encode (bin : list byte) :
  bin <> [] -> Decode (Encode bin) = Some bin.
Proof.
  intros Hne. unfold Decode, Encode.
  rewrite String.list_byte_of_string_of_list_byte.
  destruct (leading_zero_split bin) as (b' & Hb & Hc).
  set (z := leading_zero_bytes bin) in *.
  assert (Hv : be_value bin = be_value b').
  { rewrite Hb at 1. apply be_value_zeros. }
  pose proof (be_value_upper b') as Hup.
  destruct (to_digits_spec (2 * length bin) (be_value bin) []) as (ds & Hds & Hall & Hval & Hhd).
  { rewrite Hv. split; [lia|].
    eapply Z.lt_le_trans; [apply Hup|].
    replace (Z.of_nat (2 * length bin)) with (2 * Z.of_nat (length bin)) by lia.
    rewrite Z.pow_mul_r by lia. change (58 ^ 2) with 3364.
    transitivity (256 ^ Z.of_nat (length bin)).
    - apply Z.pow_le_mono_r; [lia|]. rewrite Hb, length_app. lia.
    - apply Z.pow_le_mono_l. lia. }
  rewrite Hds, app_nil_r.
  set (str := replicate z x31 ++ _).
  assert (Hdig : digits str = Some (replicate z 0 ++ ds)).
  { subst str. apply digits_ones. by apply digits_alphabet. }
  assert (Hlen : length str = (z + length ds)%nat).
  { subst str. by rewrite length_app, length_replicate, length_fmap. }
  assert (Hfuel : (length b' <= length str)%nat).
  { destruct Hc as [-> | Hc']; [cbn; lia|].
    assert (Hb'ne : b' <> []) by (by destruct Hc' as (? & ? & -> & _)).
    pose proof (be_value_lower b' (or_intror Hc') Hb'ne) as Hlow.
    pose proof (digits_value_bound ds Hall) as Hdb. cbv beta in Hdb, Hval.
    rewrite Hval, Hv in Hdb.
    destruct (decide (length b' <= length ds)%nat) as [|Hgt]; [lia|].
    exfalso.
    assert (58 ^ Z.of_nat (length ds) <= 256 ^ (Z.of_nat (length b') - 1)); [|lia].
    transitivity (256 ^ Z.of_nat (length ds)).
    - apply Z.pow_le_mono_l. lia.
    - apply Z.pow_le_mono_r; lia. }
  assert (Hstr : str <> []).
  { intros Hs. rewrite Hs in Hlen. cbn in Hlen.
    assert (z = 0%nat) as Hz by lia. assert (length ds = 0%nat) as Hd0 by lia.
    apply length_zero_iff_nil in Hd0. subst ds. cbn in Hval.
    rewrite Hz in Hb. cbn in Hb. subst b'.
    destruct Hc as [->|Hc']; [done|].
    pose proof (be_value_lower bin (or_intror Hc') Hne) as Hlow.
    assert (0 < 256 ^ (Z.of_nat (length bin) - 1)).
    { apply Z.pow_pos_nonneg; [lia|]. destruct bin; [done|cbn; lia]. }
    lia. }
  destruct str as [|c str'] eqn:Estr; [done|]. rewrite <- Estr in *.
  rewrite Hdig, leading_zeros_replicate by done.
  change (fold_left (fun acc d => acc * 58 + d) (replicate z 0 ++ ds) 0)
    with (digits_value (replicate z 0 ++ ds)).
  rewrite digits_value_zeros. cbv beta in Hval. rewrite Hval, Hv.
  rewrite be_bytes_spec by done. by rewrite app_nil_r, <- Hb.
Qed.

End Base58Facts.


Section EncoderFacts.
Import Bytes Signer Encoder.

(** The buffer [b58CheckEncode] builds. *)
Lemma b58CheckEncode_buf (prefix payload : list byte) :
  b58CheckEncode prefix payload
  = Base58Enc.Encode (prefix ++ payload ++ take 4 (doubleSHA256 (prefix ++ payload))).
Proof.
  unfold b58CheckEncode, doubleSHA256, make, copy. cbv zeta.
  set (n := (length prefix + length payload)%nat).
  replace (Z.to_nat (Z.of_nat n + 4)) with (n + 4)%nat by lia.
  rewrite length_replicate, take_0, Nat.sub_0_r. cbn [app].
  replace (Nat.min (n + 4) (length prefix)) with (length prefix) by lia.
  rewrite firstn_all, Nat.add_0_l, drop_replicate.
  set (buf1 := prefix ++ replicate (n + 4 - length prefix) x00).
  assert (Hl1 : length buf1 = (n + 4)%nat).
  { subst buf1. rewrite length_app, length_replicate. lia. }
  rewrite Hl1.
  replace (Nat.min (n + 4 - length prefix) (length payload)) with (length payload) by lia.
  rewrite firstn_all.
  assert (Ht1 : take (length prefix) buf1 = prefix).
  { subst buf1. by rewrite take_app_length. }
  assert (Hd1 : drop (length prefix + length payload) buf1 = replicate 4 x00).
  { subst buf1. rewrite drop_app_ge, drop_replicate by lia. f_equal. lia. }
  rewrite Ht1, Hd1.
  set (buf2 := prefix ++ payload ++ replicate 4 x00).
  assert (Hl2 : length buf2 = (n + 4)%nat).
  { subst buf2. rewrite !length_app, length_replicate. lia. }
  assert (Ht2 : take n buf2 = prefix ++ payload).
  { subst buf2 n. rewrite app_assoc, take_app_length'; [done|]. by rewrite length_app. }
  rewrite Hl2, Ht2.
  set (chk := take 4 (SHA256.Sum256 (SHA256.Sum256 (prefix ++ payload)))).
  assert (Hlc : length chk = 4%nat).
  { subst chk. rewrite length_take, Sum256_length. lia. }
  replace (Nat.min (n + 4 - n) (length chk)) with (length chk) by lia.
  rewrite firstn_all, Hlc, drop_ge, app_nil_r by lia.
  by rewrite <- app_assoc.
Qed.

Lemma prefix_matches_app (prefix rest : list byte) :
  prefix_matches (prefix ++ rest) prefix = true.
Proof. induction prefix as [|p prefix IH]; [done|]. cbn. by rewrite eqb_refl. Qed.

Lemma checksum_matches_refl (check : list byte) : checksum_matches check check = true.
Proof. unfold checksum_matches. cbn. by rewrite !eqb_refl. Qed.

Lemma checksum_length (b : list byte) : length (take 4 (doubleSHA256 b)) = 4%nat.
Proof. unfold doubleSHA256. rewrite length_take, Sum256_length. lia. Qed.

(** What the decoders get back from the base-58 layer. *)
Lemma Decode_b58CheckEncode (prefix payload : list byte) :
  Base58.Decode (b58CheckEncode prefix payload)
  = Some (prefix ++ payload ++ take 4 (doubleSHA256 (prefix ++ payload))).
Proof.
  rewrite b58CheckEncode_buf. apply Decode_Encode.
  pose proof (checksum_length (prefix ++ payload)) as H.
  intros E. apply (f_equal length) in E. rewrite !length_app, H in E. cbn in E. lia.
Qed.

Lemma slice_payload (prefix payload check : list byte) :
  slice (prefix ++ payload ++ check) (len prefix)
    (len (prefix ++ payload ++ check) - len check) = payload.
Proof.
  unfold slice, len. rewrite !length_app.
  replace (Z.to_nat (Z.of_nat (length prefix))) with (length prefix) by lia.
  rewrite drop_app_length.
  replace (Z.to_nat (Z.of_nat (length prefix + (length payload + length check))
                     - Z.of_nat (length check) - Z.of_nat (length prefix)))
    with (length payload) by lia.
  by rewrite take_app_length.
Qed.

Lemma slice_check (prefix payload check : list byte) :
  slice (prefix ++ payload ++ check) (len (prefix ++ payload ++ check) - len check)
    (len (prefix ++ payload ++ check)) = check.
Proof.
  unfold slice, len. rewrite !length_app.
  replace (Z.to_nat (Z.of_nat (length prefix + (length payload + length check))
                     - Z.of_nat (length check)))
    with (length (prefix ++ payload)) by (rewrite length_app; lia).
  rewrite app_assoc, drop_app_length.
  rewrite firstn_all2; [done|lia].
Qed.

Lemma b58CheckDecode_encoded (prefix payload : list byte) :
  b58CheckDecode prefix (b58CheckEncode prefix payload) = Ok payload.
Proof.
  unfold b58CheckDecode. rewrite Decode_b58CheckEncode. cbv zeta.
  set (chk := take 4 (doubleSHA256 (prefix ++ payload))).
  assert (Hc : len chk = 4).
  { unfold len. subst chk. by rewrite checksum_length. }
  destruct (Z.ltb_spec (len (prefix ++ payload ++ chk)) (len prefix + 4)) as [Hlt|_].
  { rewrite !len_app, Hc in Hlt. pose proof (len_nonneg payload). lia. }
  rewrite prefix_matches_app. cbn [negb].
  replace (len (prefix ++ payload ++ chk) - 4)
    with (len (prefix ++ payload ++ chk) - len chk) by lia.
  rewrite slice_payload, slice_check.
  fold chk. by rewrite checksum_matches_refl.
Qed.

Lemma le_value_le_bytes (n : nat) :
  forall x : Z, le_value (le_bytes n x) = x mod 256 ^ Z.of_nat n.
Proof.
  induction n as [|n IH]; intros x.
  - cbn. by rewrite Z.mod_1_r.
  - cbn [le_bytes]. unfold le_value in *. cbn [fold_right].
    rewrite IH, to_Z_of_Z, Nat2Z.inj_succ, Z.pow_succ_r by lia.
    rewrite Z.rem_mul_r by lia. lia.
Qed.

Lemma length_le_bytes (n : nat) (x : Z) : length (le_bytes n x) = n.
Proof. revert x. induction n as [|n IH]; intros x; [done|]. cbn. by rewrite IH. Qed.

End EncoderFacts.

(** Base58Check round trip: for every prefix and payload,
    [b58CheckDecode] under the prefix returns the payload from the string
    [b58CheckEncode] builds for them. *)
Theorem b58Check_roundtrip (prefix payload : list byte) :
  Signer.b58CheckDecode prefix (Encoder.b58CheckEncode prefix payload) = Ok payload.
Proof. apply b58CheckDecode_encoded. Qed.

(** Public keys and signatures: the string [EncodeBLPubkey] builds for 48
    bytes decodes to them under [decodeBlsPubkey] and is refused as a
    signature, and the string [EncodeBLSignature] builds for 96 bytes
    decodes to them under [decodeBlsSig] and is refused as a public key,
    both for the prefix. *)
Theorem BL_encode_decode (pk sig : list byte) :
  length pk = 48%nat ->
  length sig = 96%nat ->
  (exists s, Encoder.EncodeBLPubkey pk = Ok s /\
             Signer.decodeBlsPubkey s = Ok pk /\
             Signer.decodeBlsSig s = Err Signer.errPrefixMismatch) /\
  (exists s, Encoder.EncodeBLSignature sig = Ok s /\
             Signer.decodeBlsSig s = Ok sig /\
             Signer.decodeBlsPubkey s = Err Signer.errPrefixMismatch).
Proof.
  intros Hpk Hsig.
  assert (Hcross : forall p1 p2 payload,
             length p1 = 4%nat -> length p2 = 4%nat ->
             Signer.prefix_matches (p1 ++ payload
                                    ++ take 4 (Signer.doubleSHA256 (p1 ++ payload))) p2
             = false ->
             Signer.b58CheckDecode p2 (Encoder.b58CheckEncode p1 payload)
             = Err Signer.errPrefixMismatch).
  { intros p1 p2 payload H1 H2 Hm. unfold Signer.b58CheckDecode.
    rewrite Decode_b58CheckEncode. cbv zeta.
    pose proof (checksum_length (p1 ++ payload)) as Hc.
    match goal with |- context [?a <? ?b] =>
      destruct (Z.ltb_spec a b) as [Hlt|_] end.
    { unfold Bytes.len in Hlt. rewrite !length_app, Hc in Hlt. lia. }
    by rewrite Hm. }
  split.
  - exists (Encoder.b58CheckEncode Signer.pfxBLPubkey pk).
    unfold Encoder.EncodeBLPubkey, Signer.decodeBlsPubkey, Signer.decodeBlsSig, Bytes.len.
    rewrite Hpk, b58CheckDecode_encoded, Hpk. cbn [Z.eqb negb].
    split; [done|]. split; [done|].
    by rewrite (Hcross Signer.pfxBLPubkey Signer.pfxBLSignature pk).
  - exists (Encoder.b58CheckEncode Signer.pfxBLSignature sig).
    unfold Encoder.EncodeBLSignature, Signer.decodeBlsPubkey, Signer.decodeBlsSig, Bytes.len.
    rewrite Hsig, b58CheckDecode_encoded, Hsig. cbn [Z.eqb negb].
    split; [done|]. split; [done|].
    by rewrite (Hcross Signer.pfxBLSignature Signer.pfxBLPubkey sig).
Qed.

(** Secret keys: [ImportBLSecretKey] returns the scalar from the string
    [EncodeBLSecretKey] builds for it, for every valid scalar (above zero
    and below the group order). *)
Theorem BLSecretKey_roundtrip (secretKey : Z) :
  0 < secretKey < Signer.curve_order ->
  Signer.ImportBLSecretKey (Encoder.EncodeBLSecretKey secretKey) = Ok secretKey.
Proof.
  intros Hsk. unfold Signer.ImportBLSecretKey, Encoder.EncodeBLSecretKey.
  rewrite Decode_b58CheckEncode. cbv zeta.
  set (le := Encoder.ToLEndian secretKey).
  set (chk := take 4 (Signer.doubleSHA256 (Signer.pfxBLSecretKey ++ le))).
  assert (Hle : length le = 32%nat) by apply length_le_bytes.
  assert (Hc : Bytes.len chk = 4).
  { unfold Bytes.len. subst chk. by rewrite checksum_length. }
  assert (Hlen : Bytes.len (Signer.pfxBLSecretKey ++ le ++ chk) = 40).
  { rewrite !len_app, Hc. unfold Bytes.len. rewrite Hle. done. }
  destruct (Z.ltb_spec (Bytes.len (Signer.pfxBLSecretKey ++ le ++ chk))
              (4 + Bytes.len Signer.pfxBLSecretKey)) as [Hlt|_].
  { rewrite Hlen in Hlt. change (4 + Bytes.len Signer.pfxBLSecretKey) with 8 in Hlt. lia. }
  rewrite prefix_matches_app. cbn [negb].
  replace (Bytes.len (Signer.pfxBLSecretKey ++ le ++ chk) - 4)
    with (Bytes.len (Signer.pfxBLSecretKey ++ le ++ chk) - Bytes.len chk) by lia.
  rewrite slice_payload.
  unfold Bytes.len at 1. rewrite Hle. cbn [Z.eqb negb Z.of_nat Pos.of_succ_nat Pos.succ Pos.eqb].
  unfold Signer.FromLEndian, Bytes.len. rewrite Hle.
  cbn [Z.eqb negb Z.of_nat Pos.of_succ_nat Pos.succ Pos.eqb].
  subst le. unfold Encoder.ToLEndian. rewrite le_value_le_bytes.
  assert (Hord : Signer.curve_order < 256 ^ Z.of_nat 32) by (by vm_compute).
  rewrite Z.mod_small by lia.
  destruct (Z.ltb_spec 0 secretKey); [|lia].
  by destruct (Z.ltb_spec secretKey Signer.curve_order); [|lia].
Qed.


(** The public key of the repository's demo program. *)
Lemma BL_encode_decode_witness :
  (exists s,
      Encoder.EncodeBLPubkey
        (default [] (Hex.DecodeString
           "aad3a478ecee5c5600b33822cf868cdd4f8ea35baa4fd39e5a1a9d16885a39eec322ca53ec5d4169eaa36edf37e4e3a1"))
      = Ok s /\
      Signer.decodeBlsPubkey s
      = Ok (default [] (Hex.DecodeString
           "aad3a478ecee5c5600b33822cf868cdd4f8ea35baa4fd39e5a1a9d16885a39eec322ca53ec5d4169eaa36edf37e4e3a1")) /\
      Signer.decodeBlsSig s = Err Signer.errPrefixMismatch) /\
  (exists s,
      Encoder.EncodeBLSignature (replicate 96 x2a) = Ok s /\
      Signer.decodeBlsSig s = Ok (replicate 96 x2a) /\
      Signer.decodeBlsPubkey s = Err Signer.errPrefixMismatch).
Proof.
  apply (BL_encode_decode
           (default [] (Hex.DecodeString
              "aad3a478ecee5c5600b33822cf868cdd4f8ea35baa4fd39e5a1a9d16885a39eec322ca53ec5d4169eaa36edf37e4e3a1"))
           (replicate 96 x2a)).
  - by vm_compute.
  - reflexivity.
Defined.

(** The secret key of the repository's demo program. *)
Lemma BLSecretKey_roundtrip_witness :
  Signer.ImportBLSecretKey
    (Encoder.EncodeBLSecretKey
       10377530260641617028203596111258795525315262792386489815114507129750658358524)
  = Ok 10377530260641617028203596111258795525315262792386489815114507129750658358524.
Proof.
  apply (BLSecretKey_roundtrip
           10377530260641617028203596111258795525315262792386489815114507129750658358524).
  by vm_compute.
Defined.

(** The encoders on the keys of the repository's demo programs give the
    strings these programs use. *)
Example Encode_demo :
  Encoder.EncodeBLPubkey
    (default [] (Hex.DecodeString
       "aad3a478ecee5c5600b33822cf868cdd4f8ea35baa4fd39e5a1a9d16885a39eec322ca53ec5d4169eaa36edf37e4e3a1"))
  = Ok Signer.demo_BLpk /\
  Encoder.EncodeBLSecretKey
    10377530260641617028203596111258795525315262792386489815114507129750658358524
  = Signer.demo_BLsk.
Proof. by vm_compute. Qed.

(** ** The stash over sequences of writes and reads *)

(** On overflow [Write] keeps the newest bytes: after a write of at most
    [capacity] bytes into a stash within its capacity, the stash holds the
    last [capacity] bytes of what it held followed by what was written
    (all of them when they fit), and [Write] reports the length of the
    data. *)
Theorem Write_keeps_newest (s : Stash.stash) (data : list byte) :
  Bytes.len (Stash.buf s) <= Stash.capacity s ->
  Bytes.len data <= Stash.capacity s ->
  Stash.Write s data
  = (Stash.mkStash
       (drop (Z.to_nat (Bytes.len (Stash.buf s ++ data) - Stash.capacity s))
          (Stash.buf s ++ data))
       (Stash.capacity s),
     Bytes.len data) /\
  Bytes.len (Stash.buf (Stash.Write s data).1)
  = Z.min (Bytes.len (Stash.buf s) + Bytes.len data) (Stash.capacity s).
Proof.
  intros Hs Hd. unfold Stash.Write, Stash.Next. cbn [fst snd Stash.buf].
  pose proof (len_nonneg data). pose proof (len_nonneg (Stash.buf s)).
  rewrite len_app.
  destruct (Z.gtb_spec (Bytes.len (Stash.buf s) + Bytes.len data) (Stash.capacity s)).
  - rewrite drop_app_le by (unfold Bytes.len in *; lia). split; [done|].
    rewrite len_app. unfold Bytes.len in *. rewrite length_drop. lia.
  - replace (Z.to_nat (Bytes.len (Stash.buf s) + Bytes.len data - Stash.capacity s))
      with 0%nat by lia.
    rewrite skipn_O. split; [done|]. rewrite len_app. lia.
Qed.

(** Three bytes in a stash of four, two more written: the oldest goes. *)
Lemma Write_keeps_newest_witness :
  Stash.Write (Stash.mkStash [x01; x02; x03] 4) [x04; x05]
  = (Stash.mkStash [x02; x03; x04; x05] 4, 2) /\
  Bytes.len (Stash.buf (Stash.Write (Stash.mkStash [x01; x02; x03] 4) [x04; x05]).1) = 4.
Proof.
  apply (Write_keeps_newest (Stash.mkStash [x01; x02; x03] 4) [x04; x05]).
  - by vm_compute.
  - by vm_compute.
Defined.

(** The bound of the stash, where it holds: along every sequence of
    [Write] and [ReadPayload] calls in which no single write is longer
    than the capacity, a stash that starts within its capacity stays
    within it, and its capacity never changes. *)
Theorem stash_within_capacity (ops : list stash_op) (s : Stash.stash) :
  Bytes.len (Stash.buf s) <= Stash.capacity s ->
  Forall (fun op => match op with
                    | OpWrite data => Bytes.len data <= Stash.capacity s
                    | OpReadPayload => True
                    end) ops ->
  Bytes.len (Stash.buf (fold_left stash_apply ops s)) <= Stash.capacity s /\
  Stash.capacity (fold_left stash_apply ops s) = Stash.capacity s.
Proof.
  revert s. induction ops as [|op ops IH]; intros s Hs Hall; [done|].
  apply Forall_cons in Hall as [Hop Hall]. cbn [fold_left].
  assert (Hstep : Bytes.len (Stash.buf (stash_apply s op)) <= Stash.capacity s /\
                  Stash.capacity (stash_apply s op) = Stash.capacity s).
  { destruct op as [data|]; cbn [stash_apply].
    - split; [by apply Write_within_capacity | done].
    - destruct (ReadPayload_suffix s) as [[k Hk] Hcap]. split; [|done].
      rewrite Hk. unfold Bytes.len in *. rewrite length_drop. lia. }
  destruct Hstep as [Hlen Hcap].
  destruct (IH (stash_apply s op)) as [H1 H2].
  - by rewrite Hcap.
  - by rewrite Hcap.
  - rewrite Hcap in H1, H2. done.
Qed.

(** Writes and reads on a stash of four bytes. *)
Lemma stash_within_capacity_witness :
  Bytes.len (Stash.buf
               (fold_left stash_apply
                  [OpWrite [x01; x02; x03]; OpReadPayload; OpWrite [x56; x05; x06];
                   OpReadPayload; OpWrite [x07]]
                  (Stash.newStash 4))) <= 4 /\
  Stash.capacity
    (fold_left stash_apply
       [OpWrite [x01; x02; x03]; OpReadPayload; OpWrite [x56; x05; x06];
        OpReadPayload; OpWrite [x07]]
       (Stash.newStash 4)) = 4.
Proof.
  apply (stash_within_capacity
           [OpWrite [x01; x02; x03]; OpReadPayload; OpWrite [x56; x05; x06];
            OpReadPayload; OpWrite [x07]]
           (Stash.newStash 4)).
  - by vm_compute.
  - repeat constructor; by vm_compute.
Defined.

Section OverflowFacts.
Import Bytes Const Wire Stash Broker Reader.

Lemma processStash_frame (fuel : nat) (picks : list bool) (w : work) (rest : list byte)
    (q : list work) (cap : Z) (d : bool) :
  well_formed w ->
  processStash (S fuel) picks
    (mkStash (frameLayout (w_payloadType w) (w_id w) (w_payload w) ++ rest) cap) q d
  = match enqueue (hd false picks) q d w with
    | None => Some (mkStash rest cap, q)
    | Some q' => processStash fuel (tl picks) (mkStash rest cap) q' d
    end.
Proof.
  intros [Hid Hp]. cbn [processStash]. rewrite ReadPayload_frame by done.
  by destruct w.
Qed.

End OverflowFacts.

(** The work queue never blocks the reader: from the bytes of a sequence
    of well-formed frames, with the broker's context alive,
    [processStash] queues the frames for which the work channel has room
    (64 less what is queued already), in order, drops the others, and
    empties the stash. *)
Theorem work_queue_overflow_drops (ws : list Broker.work) (picks : list bool)
    (workChan : list Broker.work) (cap : Z) :
  Forall well_formed ws ->
  Reader.processStash (S (length ws)) picks (Stash.mkStash (encode_all ws) cap)
    workChan false
  = Some (Stash.mkStash [] cap,
          workChan
          ++ take (Z.to_nat (Reader.workQueueSize - Z.of_nat (length workChan))) ws).
Proof.
  revert picks workChan. induction ws as [|w ws IH]; intros picks q Hwf.
  - cbn [Reader.processStash encode_all fmap list_fmap concat length].
    rewrite ReadPayload_empty. cbn. by rewrite take_nil, app_nil_r.
  - apply Forall_cons in Hwf as [Hw Hwf].
    cbn [length]. unfold encode_all. cbn [fmap list_fmap concat].
    fold (encode_all ws). rewrite processStash_frame by done.
    unfold Reader.enqueue.
    destruct (Z.ltb_spec (Z.of_nat (length q)) Reader.workQueueSize) as [Hlt|Hge];
      cbn [andb].
    + rewrite IH by done. rewrite length_app. cbn [length].
      replace (Z.to_nat (Reader.workQueueSize - Z.of_nat (length q)))
        with (S (Z.to_nat (Reader.workQueueSize - Z.of_nat (length q + 1)))) by lia.
      cbn [take firstn]. by rewrite <- app_assoc.
    + rewrite IH by done.
      replace (Z.to_nat (Reader.workQueueSize - Z.of_nat (length q))) with 0%nat by lia.
      done.
Qed.

(** Two frames arriving when 63 work items are queued: the first is
    queued, the second dropped. *)
Lemma work_queue_overflow_drops_witness :
  Reader.processStash 3 []
    (Stash.mkStash
       (encode_all [Broker.demo_request;
                    Broker.mkWork Broker.demo_id Const.payloadTypeResponse []]) 64)
    (replicate 63 Broker.demo_request) false
  = Some (Stash.mkStash [] 64,
          replicate 63 Broker.demo_request
          ++ take (Z.to_nat (Reader.workQueueSize
                             - Z.of_nat (length (replicate 63 Broker.demo_request))))
               [Broker.demo_request;
                Broker.mkWork Broker.demo_id Const.payloadTypeResponse []]).
Proof.
  apply (work_queue_overflow_drops
           [Broker.demo_request; Broker.mkWork Broker.demo_id Const.payloadTypeResponse []]
           [] (replicate 63 Broker.demo_request) 64).
  repeat constructor; by vm_compute.
Defined.


(** The error policy of the read loop and [isRetryable] agree: on a failed
    read without data, below the error limit and with the context alive,
    the loop returns at once exactly when [isRetryable] rejects the error;
    for an error it accepts, the loop returns only if the broker is
    cancelled during the backoff, waits when [writeFrame] finds no case
    ready, and otherwise goes on with the error counted after sleeping the
    current backoff. *)
Theorem readLoop_error_policy (st : Loops.reader) (ev : Loops.read_event)
    (e : Loops.io_error) :
  Broker.ctx_done (Loops.rd_broker st) = false ->
  Loops.ev_data ev = [] ->
  Loops.ev_err ev = Some e ->
  Loops.rd_consecutiveErrors st + 1 < Loops.maxConsecutiveErrors ->
  (Loops.isRetryable (Some e) = false ->
   Loops.readLoop_iter st ev
   = Loops.Exit (Loops.mkReader (Loops.rd_broker st) (Loops.rd_stash st)
                   (Loops.rd_workChan st) (Loops.rd_backoff st)
                   (Loops.rd_consecutiveErrors st + 1))) /\
  (Loops.isRetryable (Some e) = true ->
   match Loops.readLoop_iter st ev with
   | Loops.Exit st' =>
       Loops.ev_stop ev = true /\ Broker.ctx_done (Loops.rd_broker st') = true
   | Loops.Next st' slept =>
       Loops.ev_stop ev = false /\ slept = [Loops.rd_backoff st] /\
       Loops.rd_consecutiveErrors st' = Loops.rd_consecutiveErrors st + 1
   | Loops.Block st' =>
       Broker.writeFrame (Loops.ev_write ev) (Loops.rd_broker st) false
         Const.payloadTypeRetry Broker.zero_id [] = None
   end).
Proof.
  intros Hc Hd He Hn. rewrite (readLoop_iter_failed st ev e) by done. cbv zeta.
  destruct (Z.geb_spec (Loops.rd_consecutiveErrors st + 1) Loops.maxConsecutiveErrors);
    [lia|].
  split; intros Hr; rewrite Hr; cbn [negb]; [done|].
  destruct (Broker.writeFrame _ _ _ _ _ _) as [[r b']|]; [|done].
  destruct (Loops.ev_stop ev); done.
Qed.

(** A read that fails with EBADF at the start of the loop. *)
Lemma readLoop_error_policy_witness :
  Loops.readLoop_iter
    (Loops.newReader (Broker.idle_broker Broker.echo) (Stash.newStash 64) [])
    (Loops.failed_read (Loops.mkError (Some Loops.EBADF) false false))
  = Loops.Exit
      (Loops.mkReader (Broker.idle_broker Broker.echo) (Stash.newStash 64) []
         Loops.initialBackoff (0 + 1)).
Proof.
  destruct (readLoop_error_policy
              (Loops.newReader (Broker.idle_broker Broker.echo) (Stash.newStash 64) [])
              (Loops.failed_read (Loops.mkError (Some Loops.EBADF) false false))
              (Loops.mkError (Some Loops.EBADF) false false)) as [H _].
  - reflexivity.
  - reflexivity.
  - reflexivity.
  - by vm_compute.
  - apply H. reflexivity.
Defined.

(** ** Key derivation *)

(** HMAC-SHA-256 and HKDF on the test vectors of RFC 4231 (case 2) and
    RFC 5869 (case 1). *)
Example hmac_sha256_rfc4231 :
  Some (HD.hmac_sha256 (String.list_byte_of_string "Jefe")
          (String.list_byte_of_string "what do ya want for nothing?"))
  = Hex.DecodeString "5bdcc146bf60754e6a042426089575c75a003f089d2739839dec58b964ec3843".
Proof. by vm_compute. Qed.

Example hkdf_rfc5869 :
  let prk := HD.hkdfExtract (default [] (Hex.DecodeString "000102030405060708090a0b0c"))
               (replicate 22 x0b) in
  Some prk
  = Hex.DecodeString "077709362c2e32df0ddc3f0dc47bba6390b6c73bb50f9c3122ec844ad7c2b3e5" /\
  Some (HD.hkdfExpand prk (default [] (Hex.DecodeString "f0f1f2f3f4f5f6f7f8f9")) 42)
  = Hex.DecodeString
      "3cb25f25faacd57a90434f64d0362f2a2d2d0a90cf1a5a4c5db02d56ecc4c5bf34007208d5b887185865".
Proof. by vm_compute. Qed.


Section DerivationFacts.
Import Bytes Signer Encoder HD.

Lemma beToLE32_rev (l : list byte) : length l = 32%nat -> beToLE32 l = rev l.
Proof.
  intros Hl. unfold beToLE32.
  apply (nth_ext _ _ ((fun i => at_ l (31 - i)) 0%nat) x00).
  - by rewrite length_fmap, length_seq, length_rev.
  - rewrite length_fmap, length_seq. intros n Hn.
    change (fmap (M := list)) with (@map nat byte).
    rewrite (map_nth (fun i => at_ l (31 - i)) (seq 0 32) 0%nat), seq_nth by done.
    rewrite rev_nth by lia. unfold at_. f_equal. lia.
Qed.

Lemma be_value_rev (l : list byte) : Base58Enc.be_value (rev l) = le_value l.
Proof.
  induction l as [|x l IH]; [done|].
  cbn [rev]. rewrite be_value_snoc, IH. unfold le_value. cbn [fold_right]. lia.
Qed.

Lemma FromLEndian_le_bytes (k : Z) :
  0 < k < curve_order -> FromLEndian (le_bytes 32 k) = Some k.
Proof.
  intros Hk. unfold FromLEndian, len. rewrite length_le_bytes.
  cbn [Z.eqb negb Z.of_nat Pos.of_succ_nat Pos.succ Pos.eqb].
  rewrite le_value_le_bytes.
  assert (Hord : curve_order < 256 ^ Z.of_nat 32) by (by vm_compute).
  rewrite Z.mod_small by lia.
  destruct (Z.ltb_spec 0 k); [|lia].
  by destruct (Z.ltb_spec k curve_order); [|lia].
Qed.

(** One turn of the loop of [hkdfModR], by its candidate. *)
Lemma hkdfModR_loop_S (fuel : nat) (ikm salt : list byte) (k : Z) :
  candidate ikm salt bls12381_r = k ->
  hkdfModR_loop (S fuel) ikm salt bls12381_r
  = if negb (k =? 0) then
      if k >=? 2 ^ 256 then Some (Err panicFillBytes)
      else
        match FromLEndian (beToLE32 (FillBytes32 k)) with
        | None => Some (Err errLoadScalarFailed)
        | Some sk => Some (Ok sk)
        end
    else hkdfModR_loop fuel ikm (SHA256.Sum256 salt) bls12381_r.
Proof. intros <-. reflexivity. Qed.

Lemma candidate_range (ikm salt : list byte) :
  0 <= candidate ikm salt bls12381_r < bls12381_r.
Proof. unfold candidate. apply Z.mod_pos_bound. reflexivity. Qed.

Lemma hkdfModR_loop_first (ikm : list byte) (n : nat) :
  forall salt : list byte,
    (forall i, (i < n)%nat ->
               candidate ikm (Nat.iter i SHA256.Sum256 salt) bls12381_r = 0) ->
    candidate ikm (Nat.iter n SHA256.Sum256 salt) bls12381_r <> 0 ->
    hkdfModR_loop (S n) ikm salt bls12381_r
    = Some (Ok (candidate ikm (Nat.iter n SHA256.Sum256 salt) bls12381_r)) /\
    0 < candidate ikm (Nat.iter n SHA256.Sum256 salt) bls12381_r < bls12381_r.
Proof.
  assert (Hr : bls12381_r = curve_order) by reflexivity.
  assert (H256 : curve_order < 2 ^ 256) by reflexivity.
  induction n as [|n IH]; intros salt Hzero Hnz.
  - change (Nat.iter 0 SHA256.Sum256 salt) with salt in Hnz |- *.
    pose proof (candidate_range ikm salt) as Hk.
    remember (candidate ikm salt bls12381_r) as k eqn:Ek.
    split; [|lia]. rewrite (hkdfModR_loop_S 0 ikm salt k) by (by symmetry).
    destruct (Z.eqb_spec k 0) as [E0|_]; [lia|]. cbn [negb].
    destruct (Z.geb_spec k (2 ^ 256)) as [Hge|_]; [lia|].
    unfold FillBytes32. rewrite beToLE32_rev by (by rewrite length_rev, length_le_bytes).
    rewrite rev_involutive, FromLEndian_le_bytes by lia. reflexivity.
  - rewrite Nat.iter_succ_r in Hnz |- *.
    pose proof (Hzero 0%nat ltac:(lia)) as H0.
    change (Nat.iter 0 SHA256.Sum256 salt) with salt in H0.
    rewrite (hkdfModR_loop_S (S n) ikm salt 0 H0). cbn [Z.eqb negb].
    apply IH; [|exact Hnz]. intros i Hi.
    rewrite <- Nat.iter_succ_r. apply Hzero. lia.
Qed.

End DerivationFacts.

(** HKDF_mod_r: with the parameters [TezSignHDParams] builds and at least
    32 bytes of key material, [hkdfModR] returns the first non-zero
    candidate OS2IP(HKDF-Expand(HKDF-Extract(salt, ikm), 48)) mod r along
    the salts salt, SHA256(salt), SHA256(SHA256(salt)), ...; the key is
    above zero and below r, and its passage through 32 big-endian bytes
    and their reversal to little-endian hands blst exactly this number, so
    that the scalar is never refused. *)
Theorem hkdfModR_first_nonzero (masterSalt ikm : list byte) (n : nat) :
  32 <= Bytes.len ikm ->
  (forall i, (i < n)%nat ->
     HD.candidate ikm (Nat.iter i SHA256.Sum256 (HD.Salt (HD.TezSignHDParams masterSalt)))
       HD.bls12381_r = 0) ->
  HD.candidate ikm (Nat.iter n SHA256.Sum256 (HD.Salt (HD.TezSignHDParams masterSalt)))
    HD.bls12381_r <> 0 ->
  HD.hkdfModR (S n) ikm (HD.TezSignHDParams masterSalt)
  = Some (Ok (HD.candidate ikm
                (Nat.iter n SHA256.Sum256 (HD.Salt (HD.TezSignHDParams masterSalt)))
                HD.bls12381_r)) /\
  0 < HD.candidate ikm
        (Nat.iter n SHA256.Sum256 (HD.Salt (HD.TezSignHDParams masterSalt)))
        HD.bls12381_r < HD.bls12381_r.
Proof.
  intros Hikm Hzero Hnz. unfold HD.hkdfModR.
  cbn [HD.R HD.TezSignHDParams].
  change (HD.bls12381_r <=? 0) with false. cbv iota.
  destruct (Z.ltb_spec (Bytes.len ikm) 32); [lia|].
  apply hkdfModR_loop_first; assumption.
Qed.

(** Thirty-two zero bytes as key material and an empty master salt: the
    first candidate is not zero. *)
Lemma hkdfModR_first_nonzero_witness :
  HD.hkdfModR 1 (replicate 32 x00) (HD.TezSignHDParams [])
  = Some (Ok (HD.candidate (replicate 32 x00)
                (Nat.iter 0 SHA256.Sum256 (HD.Salt (HD.TezSignHDParams [])))
                HD.bls12381_r)) /\
  0 < HD.candidate (replicate 32 x00)
        (Nat.iter 0 SHA256.Sum256 (HD.Salt (HD.TezSignHDParams [])))
        HD.bls12381_r < HD.bls12381_r.
Proof.
  apply (hkdfModR_first_nonzero [] (replicate 32 x00) 0).
  - by vm_compute.
  - intros i Hi. lia.
  - by vm_compute.
Defined.

(** Child derivation feeds HKDF_mod_r with the parent scalar as 32
    big-endian bytes followed by the index as 4 big-endian bytes: for a
    parent below 2^256 and a 32-bit index, [deriveChildSK] is [hkdfModR]
    on these 36 bytes, whose first 32 spell the parent and whose last 4
    spell the index; short key material is therefore never reported. *)
Theorem deriveChildSK_key_material (fuel : nat) (parent index : Z) (params : HD.hdParams) :
  0 <= parent < 2 ^ 256 ->
  0 <= index < 2 ^ 32 ->
  HD.deriveChildSK fuel (Some parent) index params
  = HD.hkdfModR fuel (HD.FillBytes32 parent ++ Bytes.BigEndian_PutUint32 index) params /\
  Bytes.len (HD.FillBytes32 parent ++ Bytes.BigEndian_PutUint32 index) = 36 /\
  Base58Enc.be_value (HD.FillBytes32 parent) = parent /\
  Bytes.BigEndian_Uint32 (Bytes.BigEndian_PutUint32 index) = index /\
  HD.deriveChildSK fuel (Some parent) index params <> Some (Err HD.errIkmInvalid).
Proof.
  intros Hp Hi.
  assert (Hl : length (Encoder.ToLEndian parent) = 32%nat) by apply length_le_bytes.
  assert (Heq : HD.deriveChildSK fuel (Some parent) index params
                = HD.hkdfModR fuel (HD.FillBytes32 parent
                                    ++ Bytes.BigEndian_PutUint32 index) params).
  { unfold HD.deriveChildSK, Bytes.len. rewrite Hl.
    cbn [Z.eqb negb Z.of_nat Pos.of_succ_nat Pos.succ Pos.eqb].
    by rewrite beToLE32_rev. }
  assert (Hlen : Bytes.len (HD.FillBytes32 parent ++ Bytes.BigEndian_PutUint32 index) = 36).
  { unfold Bytes.len, HD.FillBytes32.
    by rewrite length_app, length_rev, length_le_bytes. }
  split; [done|]. split; [done|]. split; [|split].
  - unfold HD.FillBytes32. rewrite be_value_rev, le_value_le_bytes.
    apply Z.mod_small. change (256 ^ Z.of_nat 32) with (2 ^ 256). lia.
  - rewrite <- (app_nil_r (Bytes.BigEndian_PutUint32 index)).
    by apply BigEndian_roundtrip.
  - rewrite Heq. unfold HD.hkdfModR.
    destruct (HD.R params) as [r|]; [|done].
    destruct (r <=? 0); [done|]. rewrite Hlen. change (36 <? 32) with false. cbv iota.
    destruct fuel as [|fuel]; [done|]. cbn [HD.hkdfModR_loop].
    destruct (negb _).
    + destruct (_ >=? _); [done|]. by destruct (Signer.FromLEndian _).
    + clear. generalize (SHA256.Sum256 (HD.Salt params)). 
      induction fuel as [|fuel IH]; intros salt; [done|]. cbn [HD.hkdfModR_loop].
      destruct (negb _).
      * destruct (_ >=? _); [done|]. by destruct (Signer.FromLEndian _).
      * apply IH.
Qed.

(** The scalar 1 as parent and index 12381. *)
Lemma deriveChildSK_key_material_witness :
  Base58Enc.be_value (HD.FillBytes32 1) = 1 /\
  Bytes.len (HD.FillBytes32 1 ++ Bytes.BigEndian_PutUint32 12381) = 36.
Proof.
  destruct (deriveChildSK_key_material 0 1 12381 (HD.TezSignHDParams []))
    as (_ & Hlen & Hval & _).
  - lia.
  - lia.
  - split; [exact Hval | exact Hlen].
Defined.


Section PathFacts.
Import HD.

(** Once an index has failed, or the fuel has run out, the rest of the path
    changes nothing. *)
Lemma derivePath_stops (fuel : nat) (path : list Z) (params : hdParams)
    (r : option (result hd_error Z)) :
  (forall sk, r <> Some (Ok sk)) ->
  fold_left (fun acc i =>
               match acc with
               | Some (Ok sk) => deriveChildSK fuel (Some sk) i params
               | r => r
               end) path r = r.
Proof.
  intros Hr. induction path as [|i path IH]; [done|]. cbn [fold_left].
  destruct r as [[sk|e]|]; [by destruct (Hr sk)|exact IH|exact IH].
Qed.

Lemma derivePathSK_split (fuel : nat) (master : Z) (p1 p2 : list Z) (params : hdParams) :
  derivePathSK fuel (Some master) (p1 ++ p2) params
  = match derivePathSK fuel (Some master) p1 params with
    | Some (Ok sk) => derivePathSK fuel (Some sk) p2 params
    | r => r
    end.
Proof.
  unfold derivePathSK. rewrite fold_left_app.
  destruct (fold_left _ p1 (Some (Ok master))) as [[sk|e]|]; [done| |];
    by apply derivePath_stops.
Qed.

End PathFacts.

(** Derivation along a path composes and stops at the first failure:
    deriving along [p1 ++ p2] from a master key is deriving along [p2]
    from the key derived along [p1], or the failure of that derivation.
    Hence every key [GenerateHDKey] returns for a master salt and a seed
    is the child, under its index, of one and the same key: the one
    derived from the master key along 12381, 1729, 0, 0. *)
Theorem GenerateHDKey_path (fuel : nat) (masterSalt seed : list byte) :
  (forall (master : Z) (p1 p2 : list Z) (params : HD.hdParams),
      HD.derivePathSK fuel (Some master) (p1 ++ p2) params
      = match HD.derivePathSK fuel (Some master) p1 params with
        | Some (Ok sk) => HD.derivePathSK fuel (Some sk) p2 params
        | r => r
        end) /\
  (forall index : Z,
      HD.GenerateHDKey fuel masterSalt seed index
      = match HD.deriveMasterSK fuel seed (HD.TezSignHDParams masterSalt) with
        | Some (Ok masterSK) =>
            match HD.derivePathSK fuel (Some masterSK) [12381; 1729; 0; 0]
                    (HD.TezSignHDParams masterSalt) with
            | Some (Ok account) =>
                HD.deriveChildSK fuel (Some account) index (HD.TezSignHDParams masterSalt)
            | r => r
            end
        | r => r
        end).
Proof.
  split; [intros; apply derivePathSK_split|].
  intros index. unfold HD.GenerateHDKey. cbv zeta.
  destruct (HD.deriveMasterSK fuel seed (HD.TezSignHDParams masterSalt))
    as [[masterSK|e]|]; [|done..].
  change [12381; 1729; 0; 0; index] with ([12381; 1729; 0; 0] ++ [index]).
  rewrite derivePathSK_split.
  by destruct (HD.derivePathSK fuel (Some masterSK) [12381; 1729; 0; 0] _) as [[acct|e]|].
Qed.
